(** * i18nstats.py: translation statistics for the card data repository

    A shallow embedding of [src/i18nstats.py] and the properties of its
    canonical formatter and of its translation comparator.

    Python values are modelled as follows.
    - [str] is a sequence of code points: [pstr := list N].
    - A decoded JSON value is a [json]: [None], [bool], [int], [str], [list]
      and [dict] (insertion ordered, as an association list with string
      keys).  Python [float] (a JSON number with a fraction or an exponent,
      [NaN], [Infinity]) is outside the model: the decoder reports it as
      [OutsideModel].
    - Module level counters, standard output and the files live in a
      [world] that every effectful function threads; a Python exception that
      nothing catches is the outcome [Raise]. *)

From Stdlib Require Import ZArith NArith Lia Ascii String Decimal DecimalN DecimalPos DecimalFacts.
From stdpp Require Import base option list gmap.

Set Warnings "-register-all".

Local Open Scope N_scope.

(** ** Python [str] *)

Abbreviation pstr := (list N).

Definition py (s : string) : pstr :=
  (fun a => N_of_ascii a) <$> list_ascii_of_string s.
Arguments py _%_string.

Definition pstr_eqb (a b : pstr) : bool := bool_decide (a = b).

(** [a < b] on [str]: lexicographic on code points. *)
Fixpoint pstr_ltb (a b : pstr) : bool :=
  match a, b with
  | [], [] => false
  | [], _ :: _ => true
  | _ :: _, [] => false
  | x :: a', y :: b' => if x <? y then true else if y <? x then false else pstr_ltb a' b'
  end.

(** [s.startswith(p)] *)
Fixpoint startswith (p s : pstr) : bool :=
  match p, s with
  | [], _ => true
  | _ :: _, [] => false
  | x :: p', y :: s' => (x =? y) && startswith p' s'
  end.

(** [p in s] for a non-empty [p] *)
Fixpoint occurs (p s : pstr) : bool :=
  match s with
  | [] => false
  | _ :: s' => startswith p s || occurs p s'
  end.

(** [s.replace(old, new)] for a non-empty [old]: occurrences are found from
    left to right and do not overlap.  [skip] counts the characters of the
    occurrence just replaced that are still to be dropped. *)
Fixpoint replace_from (old new : pstr) (skip : nat) (s : pstr) : pstr :=
  match s with
  | [] => []
  | c :: s' =>
      match skip with
      | S k => replace_from old new k s'
      | O =>
          if startswith old s
          then new ++ replace_from old new (pred (length old)) s'
          else c :: replace_from old new O s'
      end
  end.

Definition replace (old new s : pstr) : pstr := replace_from old new O s.

(** [re.sub("^" + "    " * i, "\t" * i, s, flags=re.MULTILINE)]: at the
    start of the text and after every line feed, [4 * i] spaces become [i]
    tabs.  [bol] says that the position is the beginning of a line. *)
Definition LF : N := 10.
Definition TAB : N := 9.
Definition SP : N := 32.

Fixpoint re_sub_indent (i : nat) (bol : bool) (skip : nat) (s : pstr) : pstr :=
  match s with
  | [] => []
  | c :: s' =>
      match skip with
      | S k => re_sub_indent i bol k s'
      | O =>
          if bol && startswith (repeat SP (4 * i)) s
          then repeat TAB i ++ re_sub_indent i false (pred (4 * i)) s'
          else c :: re_sub_indent i (c =? LF) O s'
      end
  end.

(** ** Decoded JSON values *)

Inductive json : Type :=
  | JNull
  | JBool (b : bool)
  | JInt (z : Z)
  | JStr (s : pstr)
  | JArr (l : list json)
  | JObj (o : list (pstr * json)).

(** Python dictionaries keep insertion order; [keq] is the equality of the
    keys ([==] on hashable values). *)
Section Dict.
Context {K V : Type} (keq : K -> K -> bool).

Fixpoint dict_get (k : K) (d : list (K * V)) : option V :=
  match d with
  | [] => None
  | (k', v) :: d' => if keq k' k then Some v else dict_get k d'
  end.

Definition dict_mem (k : K) (d : list (K * V)) : bool :=
  match dict_get k d with Some _ => true | None => false end.

(** [d[k] = v] *)
Fixpoint dict_set (k : K) (v : V) (d : list (K * V)) : list (K * V) :=
  match d with
  | [] => [(k, v)]
  | (k', v') :: d' => if keq k' k then (k', v) :: d' else (k', v') :: dict_set k v d'
  end.

(** [d.pop(k)] for a key that is present (absent: no change) *)
Fixpoint dict_pop (k : K) (d : list (K * V)) : list (K * V) :=
  match d with
  | [] => []
  | (k', v') :: d' => if keq k' k then d' else (k', v') :: dict_pop k d'
  end.

(** [dict(pairs)] *)
Definition dict_of_pairs (ps : list (K * V)) : list (K * V) :=
  foldl (fun d kv => dict_set kv.1 kv.2 d) [] ps.
End Dict.

Abbreviation fdict := (list (pstr * json)).
Definition fget (k : pstr) (d : fdict) : option json := dict_get pstr_eqb k d.
Definition fmem (k : pstr) (d : fdict) : bool := dict_mem pstr_eqb k d.
Definition fset (k : pstr) (v : json) (d : fdict) : fdict := dict_set pstr_eqb k v d.

(** Python [a == b] on decoded values.  [True == 1] and [False == 0];
    dictionaries compare without regard to order. *)
Fixpoint py_eq (a b : json) : bool :=
  match a, b with
  | JNull, JNull => true
  | JBool x, JBool y => Bool.eqb x y
  | JBool x, JInt z => (Z.b2z x =? z)%Z
  | JInt z, JBool x => (z =? Z.b2z x)%Z
  | JInt x, JInt y => (x =? y)%Z
  | JStr s, JStr t => pstr_eqb s t
  | JArr l1, JArr l2 =>
      (fix all2 (l1 l2 : list json) : bool :=
         match l1, l2 with
         | [], [] => true
         | x :: l1', y :: l2' => py_eq x y && all2 l1' l2'
         | _, _ => false
         end) l1 l2
  | JObj o1, JObj o2 =>
      (length o1 =? length o2)%nat &&
      (fix sub (o : list (pstr * json)) : bool :=
         match o with
         | [] => true
         | (k, v) :: o' =>
             match fget k o2 with
             | Some v' => py_eq v v'
             | None => false
             end && sub o'
         end) o1
  | _, _ => false
  end.

(** [bool(x)] *)
Definition truthy (x : json) : bool :=
  match x with
  | JNull => false
  | JBool b => b
  | JInt z => negb (z =? 0)%Z
  | JStr s => negb (pstr_eqb s [])
  | JArr l => match l with [] => false | _ => true end
  | JObj o => match o with [] => false | _ => true end
  end.

(** Lists and dictionaries cannot be keys or set members. *)
Definition hashable (x : json) : bool :=
  match x with
  | JArr _ | JObj _ => false
  | _ => true
  end.

(** ** [json.dumps(x, ensure_ascii=False, sort_keys=True, indent=4,
       separators=(',', ': '))] *)

Definition hexdigit (n : N) : N := if n <? 10 then 48 + n else 87 + n.

(** The replacement of one character inside a string literal: the seven
    short escapes, [\u00XX] for the other control characters, and the
    character itself otherwise. *)
Definition escape_char (c : N) : pstr :=
  if c =? 34 then [92; 34]
  else if c =? 92 then [92; 92]
  else if c =? 10 then [92; 110]
  else if c =? 13 then [92; 114]
  else if c =? 9 then [92; 116]
  else if c =? 8 then [92; 98]
  else if c =? 12 then [92; 102]
  else if c <? 32 then [92; 117; 48; 48; hexdigit (c / 16); hexdigit (c mod 16)]
  else [c].

Definition encode_basestring (s : pstr) : pstr :=
  34 :: concat (escape_char <$> s) ++ [34].

Fixpoint uint_chars (u : Decimal.uint) : pstr :=
  match u with
  | Nil => []
  | D0 u' => 48 :: uint_chars u'
  | D1 u' => 49 :: uint_chars u'
  | D2 u' => 50 :: uint_chars u'
  | D3 u' => 51 :: uint_chars u'
  | D4 u' => 52 :: uint_chars u'
  | D5 u' => 53 :: uint_chars u'
  | D6 u' => 54 :: uint_chars u'
  | D7 u' => 55 :: uint_chars u'
  | D8 u' => 56 :: uint_chars u'
  | D9 u' => 57 :: uint_chars u'
  end.

(** [int.__repr__] *)
Definition int_repr (z : Z) : pstr :=
  match z with
  | Z0 => [48]
  | Zpos p => uint_chars (Pos.to_uint p)
  | Zneg p => 45 :: uint_chars (Pos.to_uint p)
  end.

(** [sorted(dct.items())]: the items in the order of their keys, which are
    distinct in a dictionary. *)
Fixpoint insert_item (kv : pstr * json) (l : list (pstr * json)) : list (pstr * json) :=
  match l with
  | [] => [kv]
  | kv' :: l' =>
      if pstr_ltb kv.1 kv'.1 then kv :: l else kv' :: insert_item kv l'
  end.

Definition sorted_items (o : list (pstr * json)) : list (pstr * json) :=
  foldr insert_item [] o.

(** The encoder is written over the text that follows a line feed at a
    nesting level: four spaces per level for [indent=4]. *)
Section Encoder.
Variable indent : nat -> pstr.

Definition newline_indent (level : nat) : pstr := LF :: indent level.

Fixpoint iterencode (x : json) (level : nat) : pstr :=
  match x with
  | JNull => py "null"
  | JBool true => py "true"
  | JBool false => py "false"
  | JInt z => int_repr z
  | JStr s => encode_basestring s
  | JArr [] => py "[]"
  | JArr (x0 :: l) =>
      91 :: newline_indent (S level) ++ iterencode x0 (S level) ++
      (fix items (l : list json) : pstr :=
         match l with
         | [] => []
         | y :: l' => 44 :: newline_indent (S level) ++ iterencode y (S level) ++ items l'
         end) l ++
      newline_indent level ++ [93]
  | JObj o =>
      (* the items are rendered in the order they are stored in; [dumps]
         sorts every dictionary first *)
      match o with
      | [] => py "{}"
      | (k0, v0) :: o' =>
          123 :: newline_indent (S level) ++
          encode_basestring k0 ++ [58; 32] ++ iterencode v0 (S level) ++
          (fix items (o : list (pstr * json)) : pstr :=
             match o with
             | [] => []
             | (k, v) :: o' =>
                 44 :: newline_indent (S level) ++
                 encode_basestring k ++ [58; 32] ++ iterencode v (S level) ++ items o'
             end) o' ++
          newline_indent level ++ [125]
      end
  end.
End Encoder.

(** Every dictionary with its items in key order, as [sort_keys=True]
    visits them. *)
Fixpoint sort_keys (x : json) : json :=
  match x with
  | JArr l => JArr (sort_keys <$> l)
  | JObj o => JObj (sorted_items ((fun kv => (kv.1, sort_keys kv.2)) <$> o))
  | _ => x
  end.

Definition indent4 (level : nat) : pstr := repeat SP (4 * level).

Definition json_dumps (x : json) : pstr := iterencode indent4 (sort_keys x) 0.

(** ** [format_json] *)

Definition tabify (s : pstr) : pstr :=
  foldl (fun t i => re_sub_indent i true O t) s [8; 7; 6; 5; 4; 3; 2; 1]%nat.

Definition rewrite_punctuation (s : pstr) : pstr :=
  let s := replace [0x2019] [39] (replace [0x2018] [39] s) in
  let s := replace [0x2013] [45] (replace [0x2212] [45] s) in
  let s := replace [SP; 92; 110] [92; 110] (replace [92; 114; 92; 110] [92; 110] s) in
  replace [93; 91] [93; SP; 91] s.

Definition format_json (json_data : json) : pstr :=
  tabify (rewrite_punctuation (json_dumps json_data)) ++ [LF].

(** ** [json.loads] *)

(** [ValueError] is what [json.loads] raises ([JSONDecodeError]);
    [OutsideModel] marks a text whose value has a Python [float] in it;
    [FuelExhausted] is the end of the recursion budget, which a budget of
    the length of the text does not reach on a rendering of the encoder
    (see [json_loads_format_json]). *)
Inductive decode_error : Type := ValueError | OutsideModel | FuelExhausted.

Inductive res (A : Type) : Type :=
  | Ok (a : A)
  | Err (e : decode_error).
Arguments Ok {A} a.
Arguments Err {A} e.

(** Sequencing, for decoding results here and for the effects of the
    program below: the first computation, then the rest on its result. *)
Class Bind (T : Type -> Type) : Type :=
  bind : forall {A B : Type}, T A -> (A -> T B) -> T B.

Notation "x <- m ; k" := (bind m (fun x => k))
  (at level 20, m at level 100, k at level 200, only parsing).
Notation "' pat <- m ; k" := (bind m (fun p => let 'pat := p in k))
  (at level 20, pat pattern, m at level 100, k at level 200, only parsing).

Global Instance res_bind : Bind res := fun _ _ m f =>
  match m with
  | Ok a => f a
  | Err e => Err e
  end.

Definition is_ws (c : N) : bool := (c =? 32) || (c =? 9) || (c =? 10) || (c =? 13).

Fixpoint skip_ws (s : pstr) : pstr :=
  match s with
  | c :: s' => if is_ws c then skip_ws s' else s
  | [] => []
  end.

Definition is_digit (c : N) : bool := (48 <=? c) && (c <=? 57).

Definition hex_val (c : N) : option N :=
  if (48 <=? c) && (c <=? 57) then Some (c - 48)
  else if (97 <=? c) && (c <=? 102) then Some (c - 87)
  else if (65 <=? c) && (c <=? 70) then Some (c - 55)
  else None.

Definition hex4 (a b c d : N) : option N :=
  match hex_val a, hex_val b, hex_val c, hex_val d with
  | Some x, Some y, Some z, Some w => Some (((x * 16 + y) * 16 + z) * 16 + w)
  | _, _, _, _ => None
  end.

(** The character of a short escape [\c]. *)
Definition backslash (c : N) : option N :=
  if c =? 34 then Some 34
  else if c =? 92 then Some 92
  else if c =? 47 then Some 47
  else if c =? 98 then Some 8
  else if c =? 102 then Some 12
  else if c =? 110 then Some 10
  else if c =? 114 then Some 13
  else if c =? 116 then Some 9
  else None.

Definition is_high_surrogate (c : N) : bool := (0xD800 <=? c) && (c <=? 0xDBFF).
Definition is_low_surrogate (c : N) : bool := (0xDC00 <=? c) && (c <=? 0xDFFF).
Definition join_surrogates (hi lo : N) : N :=
  0x10000 + (((hi - 0xD800) * 1024) + (lo - 0xDC00)).

(** [scanstring(s, end, strict=True)], from the character after the opening
    quote: the content of the literal and the text after its closing
    quote. *)
Fixpoint scanstring (s : pstr) : res (pstr * pstr) :=
  match s with
  | [] => Err ValueError
  | c :: r =>
      if c =? 34 then Ok ([], r)
      else if c =? 92 then
        match r with
        | [] => Err ValueError
        | e :: r1 =>
            if e =? 117 then
              match r1 with
              | h1 :: h2 :: h3 :: h4 :: r2 =>
                  match hex4 h1 h2 h3 h4 with
                  | None => Err ValueError
                  | Some uni =>
                      match r2 with
                      | b :: u :: g1 :: g2 :: g3 :: g4 :: r3 =>
                          if is_high_surrogate uni && (b =? 92) && (u =? 117) then
                            match hex4 g1 g2 g3 g4 with
                            | None => Err ValueError
                            | Some uni2 =>
                                if is_low_surrogate uni2
                                then '(t, rest) <- scanstring r3;
                                     Ok (join_surrogates uni uni2 :: t, rest)
                                else '(t, rest) <- scanstring r2;
                                     Ok (uni :: t, rest)
                            end
                          else '(t, rest) <- scanstring r2; Ok (uni :: t, rest)
                      | _ => '(t, rest) <- scanstring r2; Ok (uni :: t, rest)
                      end
                  end
              | _ => Err ValueError
              end
            else
              match backslash e with
              | None => Err ValueError
              | Some ch => '(t, rest) <- scanstring r1; Ok (ch :: t, rest)
              end
        end
      else if c <? 32 then Err ValueError
      else '(t, rest) <- scanstring r; Ok (c :: t, rest)
  end.

Definition digit_cons (c : N) (u : Decimal.uint) : Decimal.uint :=
  if c =? 48 then D0 u else if c =? 49 then D1 u else if c =? 50 then D2 u
  else if c =? 51 then D3 u else if c =? 52 then D4 u else if c =? 53 then D5 u
  else if c =? 54 then D6 u else if c =? 55 then D7 u else if c =? 56 then D8 u
  else D9 u.

Fixpoint scan_digits (s : pstr) : Decimal.uint * pstr :=
  match s with
  | c :: r =>
      if is_digit c then let '(u, rest) := scan_digits r in (digit_cons c u, rest)
      else (Nil, s)
  | [] => (Nil, [])
  end.

(** Does the text go on with a fraction (a dot and a digit) or with an
    exponent (e or E, an optional sign, a digit)?  Then the number is a
    [float]. *)
Definition starts_digit (s : pstr) : bool :=
  match s with c :: _ => is_digit c | [] => false end.

Definition starts_exponent (s : pstr) : bool :=
  match s with
  | e :: r =>
      ((e =? 101) || (e =? 69)) &&
      match r with
      | sg :: r' => if (sg =? 43) || (sg =? 45) then starts_digit r' else is_digit sg
      | [] => false
      end
  | [] => false
  end.

Definition float_follows (s : pstr) : bool :=
  match s with
  | c :: r => ((c =? 46) && starts_digit r) || starts_exponent s
  | [] => false
  end.

(** The integer part at the head of [s]: an optional minus sign, then a
    single zero or a non-zero digit and any digits. *)
Definition match_integer (s : pstr) : option (bool * Decimal.uint * pstr) :=
  let '(neg, s1) :=
    match s with
    | c :: r => if c =? 45 then (true, r) else (false, s)
    | [] => (false, s)
    end in
  match s1 with
  | c :: r =>
      if c =? 48 then Some (neg, D0 Nil, r)
      else if is_digit c then
        let '(u, rest) := scan_digits r in Some (neg, digit_cons c u, rest)
      else None
  | [] => None
  end.

Definition match_number (s : pstr) : res (json * pstr) :=
  match match_integer s with
  | Some (neg, u, rest) =>
      if float_follows rest then Err OutsideModel
      else
        let n := Z.of_N (N.of_uint u) in
        Ok (JInt (if neg then - n else n)%Z, rest)
  | None =>
      if startswith (py "NaN") s || startswith (py "Infinity") s
         || startswith (py "-Infinity") s
      then Err OutsideModel else Err ValueError
  end.

Section Containers.
(** The decoder of one value, at the budget below the container's. *)
Variable scan : pstr -> res (json * pstr).

(** The values of a list, from the first character of a value. *)
Fixpoint array_loop (fuel : nat) (acc : list json) (s : pstr) : res (json * pstr) :=
  '(v, s1) <- scan s;
  match skip_ws s1 with
  | c :: r =>
      if c =? 93 then Ok (JArr (acc ++ [v]), r)
      else if c =? 44 then
        match fuel with
        | S f => array_loop f (acc ++ [v]) (skip_ws r)
        | O => Err FuelExhausted
        end
      else Err ValueError
  | [] => Err ValueError
  end.

(** The pairs of a dictionary, from the quote of a key. *)
Fixpoint object_loop (fuel : nat) (acc : list (pstr * json)) (s : pstr) : res (json * pstr) :=
  match s with
  | q :: s0 =>
      if q =? 34 then
        '(key, s1) <- scanstring s0;
        match skip_ws s1 with
        | c :: s2 =>
            if c =? 58 then
              '(v, s3) <- scan (skip_ws s2);
              match skip_ws s3 with
              | c' :: r =>
                  if c' =? 125 then Ok (JObj (dict_of_pairs pstr_eqb (acc ++ [(key, v)])), r)
                  else if c' =? 44 then
                    match fuel with
                    | S f => object_loop f (acc ++ [(key, v)]) (skip_ws r)
                    | O => Err FuelExhausted
                    end
                  else Err ValueError
              | [] => Err ValueError
              end
            else Err ValueError
        | [] => Err ValueError
        end
      else Err ValueError
  | [] => Err ValueError
  end.
End Containers.

Fixpoint scan_once (fuel : nat) (s : pstr) : res (json * pstr) :=
  match fuel with
  | O => Err FuelExhausted
  | S f =>
      match s with
      | [] => Err ValueError
      | c :: r =>
          if c =? 34 then '(t, rest) <- scanstring r; Ok (JStr t, rest)
          else if c =? 123 then
            match skip_ws r with
            | c' :: r' =>
                if c' =? 125 then Ok (JObj [], r')
                else object_loop (scan_once f) f [] (skip_ws r)
            | [] => Err ValueError
            end
          else if c =? 91 then
            match skip_ws r with
            | c' :: r' =>
                if c' =? 93 then Ok (JArr [], r')
                else array_loop (scan_once f) f [] (skip_ws r)
            | [] => Err ValueError
            end
          else if startswith (py "null") s then Ok (JNull, drop 4 s)
          else if startswith (py "true") s then Ok (JBool true, drop 4 s)
          else if startswith (py "false") s then Ok (JBool false, drop 5 s)
          else match_number s
      end
  end.

Definition json_loads (s : pstr) : res json :=
  if startswith [0xFEFF] s then Err ValueError
  else
    '(v, rest) <- scan_once (S (length s)) (skip_ws s);
    match skip_ws rest with
    | [] => Ok v
    | _ :: _ => Err ValueError
    end.

(** ** The world of the program *)

Abbreviation path := (list N).

(** What [open(path, "rb").read().decode("utf-8")] gives: the bytes are
    UTF-8 for a text, or they are not. *)
Inductive content : Type :=
  | Undecodable
  | Text (t : pstr).

Record file : Type := File { writable : bool; data : content }.

Inductive msg : Type :=
  | MsgNotValidJson (p : path)
  | MsgInvalidContent (p : path)
  | MsgFixingFormatting (p : path)
  | MsgCannotWrite (p : path)
  | MsgIOError (p : path)
  | MsgLoading (what : pstr)
  | WarnExtraFields (p : path) (extra : list pstr)
  | WarnDuplicateCode (code : json) (p : path)
  | WarnExtraCodes (p : path) (extra : list json)
  | WarnCouldNotLoad (p : path)
  | WarnAlreadyHasEntry (code : json)
  | MsgWithoutExtra (text : pstr)
  | MsgNoTranslatable (locale : pstr) (p : path)
  | MsgUnexpectedEntry (locale : pstr) (code : json)
  | MsgIgnoring (code : json) (field : pstr) (value : json)
  | MsgMissingJson (text : pstr)
  | MsgUntranslatedJson (text : pstr)
  | MsgShort (p : path) (translated total : nat)
  | MsgProcessing (langs : list pstr)
  | MsgIgnoringNonJson (name : pstr)
  | WarnCannotProcess (p : path)
  | MsgI18nFiles (files : list path)
  | MsgSkipping
  | MsgFound (formatting validation : Z).

(** The messages whose text starts with [WARN]. *)
Definition is_warning (m : msg) : bool :=
  match m with
  | WarnExtraFields _ _ | WarnDuplicateCode _ _ | WarnExtraCodes _ _
  | WarnCouldNotLoad _ | WarnAlreadyHasEntry _ | WarnCannotProcess _ => true
  | _ => false
  end.

Record world : Type := World {
  formatting_errors : Z;
  validation_errors : Z;
  stdout : list msg;
  fs : gmap path file;        (* the readable regular files *)
  dirs : gmap path (list pstr) (* [os.listdir] of the directories *)
}.

(** An exception that nothing catches ends the run; [NotModelled] is a run
    that leaves the model (a [float] was decoded, or the [repr] of a
    container was needed for a file name). *)
Inductive exn : Type :=
  | TypeError | AttributeError | KeyError | OSError | UnicodeEncodeError
  | NotModelled.

Inductive outcome (A : Type) : Type :=
  | Ret (a : A)
  | Raise (e : exn).
Arguments Ret {A} a.
Arguments Raise {A} e.

Definition M (A : Type) : Type := world -> outcome A * world.

Definition ret {A : Type} (a : A) : M A := fun w => (Ret a, w).

Global Instance M_bind : Bind M := fun _ _ m f w =>
  match m w with
  | (Ret a, w') => f a w'
  | (Raise e, w') => (Raise e, w')
  end.

Definition raise {A : Type} (e : exn) : M A := fun w => (Raise e, w).

Definition lift {A : Type} (o : outcome A) : M A := fun w => (o, w).

Record Args : Type := {
  fix_formatting : bool;
  verbose : Z;
  base_path : path;
  pack_path : path;
  schema_path : path;
  languages : option (list pstr);
  hide_completed : bool;
  i18n_files : list path
}.

Definition verbose_print (args : Args) (text : msg) (minimum_verbosity : Z) : M unit :=
  fun w =>
    if (minimum_verbosity <=? verbose args)%Z
    then (Ret (), World (formatting_errors w) (validation_errors w)
                        (stdout w ++ [text]) (fs w) (dirs w))
    else (Ret (), w).

Definition add_formatting_errors (n : Z) : M unit := fun w =>
  (Ret (), World (formatting_errors w + n) (validation_errors w) (stdout w) (fs w) (dirs w)).

Definition add_validation_errors (n : Z) : M unit := fun w =>
  (Ret (), World (formatting_errors w) (validation_errors w + n) (stdout w) (fs w) (dirs w)).

Definition write_file (p : path) (f : file) : M unit := fun w =>
  (Ret (), World (formatting_errors w) (validation_errors w) (stdout w)
                 (<[p := f]> (fs w)) (dirs w)).

Definition check_file_access (p : path) : M bool := fun w =>
  (Ret (bool_decide (is_Some (fs w !! p))), w).

Definition os_listdir (p : path) : M (list pstr) := fun w =>
  match dirs w !! p with
  | Some names => (Ret names, w)
  | None => (Raise OSError, w)
  end.

(** [os.path.join(a, b)] of [posixpath] *)
Definition os_path_join (a b : path) : path :=
  if startswith [47] b then b
  else if pstr_eqb a [] || pstr_eqb (drop (length a - 1)%nat a) [47] then a ++ b
  else a ++ 47 :: b.

Definition endswith (suffix s : pstr) : bool :=
  (length suffix <=? length s)%nat &&
  pstr_eqb (drop (length s - length suffix)%nat s) suffix.

Definition removesuffix (suffix s : pstr) : pstr :=
  if endswith suffix s && negb (pstr_eqb suffix [])
  then take (length s - length suffix)%nat s else s.

Definition has_surrogate (t : pstr) : bool :=
  existsb (fun c => (0xD800 <=? c) && (c <=? 0xDFFF)) t.

(** ** [load_json_file] *)

Definition load_json_file (args : Args) (p : path) : M json :=
  fun w =>
    match fs w !! p with
    | None => (Raise OSError, w)
    | Some f =>
        let decoded :=
          match data f with
          | Undecodable => Err ValueError
          | Text raw_data => json_loads raw_data
          end in
        match decoded, data f with
        | Ok json_data, Text raw_data =>
            let formatted_raw_data := format_json json_data in
            if occurs (py "<sup>") formatted_raw_data then
              (_ <- verbose_print args (MsgInvalidContent p) 0;
               _ <- add_validation_errors 1;
               ret JNull) w
            else if negb (pstr_eqb formatted_raw_data raw_data) then
              (_ <- add_formatting_errors 0;
               _ <- (if fix_formatting args && (0 <? length formatted_raw_data)%nat then
                      _ <- verbose_print args (MsgFixingFormatting p) 0;
                      if writable f then
                        (* the file is truncated when it is opened *)
                        _ <- write_file p (File true (Text []));
                        if has_surrogate formatted_raw_data then raise UnicodeEncodeError
                        else write_file p (File true (Text formatted_raw_data))
                      else
                        _ <- verbose_print args (MsgCannotWrite p) 0;
                        verbose_print args (MsgIOError p) 0
                    else ret ());
               ret json_data) w
            else (Ret json_data, w)
        | Err ValueError, _ | Ok _, Undecodable =>
            (* the handler prints, counts, and then reads [e.message], an
               attribute that the exceptions of Python 3 do not have *)
            (_ <- verbose_print args (MsgNotValidJson p) 0;
             _ <- add_validation_errors 1;
             raise AttributeError) w
        | Err _, _ => (Raise NotModelled, w)
        end
    end.

(** ** Iteration and attribute access on decoded values *)

(** [for c in x]: the elements of a list, the keys of a dictionary, the
    characters of a string; anything else is not iterable. *)
Definition py_iter (x : json) : outcome (list json) :=
  match x with
  | JArr l => Ret l
  | JObj o => Ret ((fun kv => JStr kv.1) <$> o)
  | JStr s => Ret ((fun c => JStr [c]) <$> s)
  | _ => Raise TypeError
  end.

(** [c.get("code")]: only a dictionary has [get]. *)
Definition get_code (c : json) : outcome json :=
  match c with
  | JObj o => Ret (default JNull (fget (py "code") o))
  | _ => Raise AttributeError
  end.

(** [k in s] for a set or the keys of a dictionary: [k] is hashed first. *)
Definition check_hashable (k : json) : outcome unit :=
  if hashable k then Ret () else Raise TypeError.

Abbreviation cdict := (list (json * fdict)).
Definition cget (k : json) (d : cdict) : option fdict := dict_get py_eq k d.
Definition cmem (k : json) (d : cdict) : bool := dict_mem py_eq k d.
Definition cset (k : json) (v : fdict) (d : cdict) : cdict := dict_set py_eq k v d.
Definition cpop (k : json) (d : cdict) : cdict := dict_pop py_eq k d.

Definition set_mem (k : json) (s : list json) : bool := existsb (py_eq k) s.

(** ** Locales and statistics *)

Record i18nLocale : Type := {
  name : pstr;
  locale_base_path : path
}.

Definition resolvePath (self : i18nLocale) (enPath : path) : path :=
  os_path_join (os_path_join (locale_base_path self) (name self)) enPath.

Record i18nStats : Type := {
  locale : i18nLocale;
  en_file_name : path;
  translated : nat;
  untranslated : cdict;
  missing : cdict;
  total : nat
}.

Definition print_short (self : i18nStats) (args : Args) : M unit :=
  if (translated self =? total self)%nat && hide_completed args then ret ()
  else verbose_print args
         (MsgShort (resolvePath (locale self) (en_file_name self))
                   (translated self) (total self)) 0.

(** ** The translatable fields of a record *)

(** The fields, in the order the set is written in the source.  A Python
    set has no specified iteration order: the properties below are stated
    through lookups and sizes, which do not depend on it. *)
Definition translatable_fields : list pstr :=
  [py "flavor"; py "name"; py "subname"; py "customization_text";
   py "customization_change"; py "text"; py "traits"; py "back_name";
   py "back_flavor"; py "back_text"; py "back_traits"; py "slot"].

Definition is_translatable (field : pstr) : bool :=
  existsb (pstr_eqb field) translatable_fields.

Definition extra_fields (item : fdict) : list pstr :=
  filter (fun k => negb (is_translatable k) && negb (pstr_eqb k (py "code")))
         (fst <$> item).

Definition translatable_of (item : fdict) : fdict :=
  foldl (fun result field =>
           match fget field item with
           | Some v => fset field v result
           | None => result
           end) [] translatable_fields.

Definition get_translatable_strings (args : Args) (item : fdict) (file_path : path)
    (warn_if_extra : bool) : M (fdict * bool) :=
  let extra := extra_fields item in
  _ <- (if warn_if_extra && negb (length extra =? 0)%nat
       then verbose_print args (WarnExtraFields file_path extra) 0
       else ret ());
  ret (translatable_of item, negb (length extra =? 0)%nat).

Fixpoint check_duplicate_codes_loop (args : Args) (file_path : path)
    (codes : list json) (cs : list json) : M unit :=
  match cs with
  | [] => ret ()
  | c :: cs' =>
      code <- lift (get_code c);
      _ <- lift (check_hashable code);
      if set_mem code codes then
        _ <- verbose_print args (WarnDuplicateCode code file_path) 0;
        check_duplicate_codes_loop args file_path codes cs'
      else check_duplicate_codes_loop args file_path (codes ++ [code]) cs'
  end.

Definition check_duplicate_codes (args : Args) (file_data : json) (file_path : path) : M unit :=
  cs <- lift (py_iter file_data);
  check_duplicate_codes_loop args file_path [] cs.

Definition check_extra_i18n_codes (args : Args) (i18n_dict en_dict : cdict)
    (file_path : path) : M unit :=
  let extra_i18n := filter (fun k => negb (cmem k en_dict)) (fst <$> i18n_dict) in
  if negb (length extra_i18n =? 0)%nat
  then verbose_print args (WarnExtraCodes file_path extra_i18n) 0
  else ret ().

(** [flatten_i18n_dict] writes the code into every dictionary of fields,
    in place: the first component is the mapping after the call, the second
    the list that the call returns. *)
Definition flatten_i18n_dict (i18n_dict : cdict) : cdict * list fdict :=
  let d := (fun kv : json * fdict => (kv.1, fset (py "code") kv.1 kv.2)) <$> i18n_dict in
  (d, snd <$> d).

Definition as_dict (c : json) : outcome fdict :=
  match c with
  | JObj o => Ret o
  | _ => Raise AttributeError
  end.

(** The loop of [load_translatable_dict] over the records of the file. *)
Fixpoint load_translatable_loop (args : Args) (file_path : path) (warn_if_extra : bool)
    (translatables : cdict) (total : nat) (found_extra : bool) (cs : list json)
    : M (cdict * nat * bool) :=
  match cs with
  | [] => ret (translatables, total, found_extra)
  | c :: cs' =>
      code <- lift (get_code c);
      _ <- lift (check_hashable code);
      if cmem code translatables then
        _ <- verbose_print args (WarnAlreadyHasEntry code) 0;
        load_translatable_loop args file_path warn_if_extra translatables total found_extra cs'
      else
        item <- lift (as_dict c);
        '(translatable, extra) <- get_translatable_strings args item file_path warn_if_extra;
        let found_extra := if extra then true else found_extra in
        let translatables :=
          if (0 <? length translatable)%nat then cset code translatable translatables
          else translatables in
        load_translatable_loop args file_path warn_if_extra translatables
          (total + length translatable)%nat found_extra cs'
  end.

(** [load_translatable_dict] after the file is read: the duplicate check,
    the loop and the message about extra fields. *)
Definition translatable_dict_of_data (args : Args) (file_path : path) (warn_if_extra : bool)
    (file_data : json) : M (cdict * nat) :=
  _ <- check_duplicate_codes args file_data file_path;
  cs <- lift (py_iter file_data);
  '(translatables, total, found_extra) <-
    load_translatable_loop args file_path warn_if_extra [] 0%nat false cs;
  if found_extra && warn_if_extra then
    let '(translatables, flat) := flatten_i18n_dict translatables in
    _ <- verbose_print args (MsgWithoutExtra (format_json (JArr (JObj <$> flat)))) 1;
    ret (translatables, total)
  else ret (translatables, total).

Definition load_translatable_dict (args : Args) (file_path : path) (warn_if_extra : bool)
    : M (cdict * nat) :=
  readable <- check_file_access file_path;
  if readable then
    file_data <- load_json_file args file_path;
    translatable_dict_of_data args file_path warn_if_extra file_data
  else
    _ <- verbose_print args (WarnCouldNotLoad file_path) 1;
    ret ([], 0%nat).

Definition should_ignore (ignore_dict : cdict) (code : json) (field : pstr) (value : json) : bool :=
  match cget code ignore_dict with
  | None => false
  | Some fields =>
      match fget field fields with
      | None => false
      | Some v => py_eq v value
      end
  end.

(** ** [compare_translations] *)

(** The loop over the fields of one source record: the untranslated
    fields so far and the running count of translated fields. *)
Fixpoint compare_fields (args : Args) (ignore_dict : cdict) (code : json)
    (i18n_strings : fdict) (untranslated : fdict) (translated : nat)
    (en_items : list (pstr * json)) : M (fdict * nat) :=
  match en_items with
  | [] => ret (untranslated, translated)
  | (field, value) :: rest =>
      match fget field i18n_strings with
      | Some loc =>
          if should_ignore ignore_dict code field loc then
            _ <- verbose_print args (MsgIgnoring code field loc) 2;
            compare_fields args ignore_dict code i18n_strings untranslated (S translated) rest
          else if py_eq value loc && negb (py_eq value (JStr [])) then
            compare_fields args ignore_dict code i18n_strings
              (fset field value untranslated) translated rest
          else
            compare_fields args ignore_dict code i18n_strings untranslated (S translated) rest
      | None =>
          compare_fields args ignore_dict code i18n_strings
            (fset field value untranslated) translated rest
      end
  end.

(** The loop over the records of the localized file: the working copy of
    the source mapping, the count and the untranslated mapping. *)
Fixpoint compare_codes (args : Args) (loc : i18nLocale) (ignore_dict : cdict)
    (en_dict : cdict) (translated : nat) (untranslated_all : cdict)
    (i18n_items : list (json * fdict)) : M (cdict * nat * cdict) :=
  match i18n_items with
  | [] => ret (en_dict, translated, untranslated_all)
  | (code, i18n_strings) :: rest =>
      match cget code en_dict with
      | None =>
          _ <- verbose_print args (MsgUnexpectedEntry (name loc) code) 0;
          compare_codes args loc ignore_dict en_dict translated untranslated_all rest
      | Some en_strings =>
          '(untranslated, translated) <-
            compare_fields args ignore_dict code i18n_strings [] translated en_strings;
          let untranslated_all :=
            if (0 <? length untranslated)%nat then cset code untranslated untranslated_all
            else untranslated_all in
          compare_codes args loc ignore_dict (cpop code en_dict) translated untranslated_all rest
      end
  end.

(** [compare_translations] in two parts: the three mappings are loaded,
    then they are compared. *)
Definition load_mappings (args : Args) (loc : i18nLocale) (en_file_path : path)
    : M (cdict * nat * cdict * cdict) :=
  '(en_dict, total) <- load_translatable_dict args en_file_path false;
  _ <- (if (total =? 0)%nat
        then verbose_print args (MsgNoTranslatable (name loc) en_file_path) 1
        else ret ());
  let i18n_file_path := resolvePath loc en_file_path in
  '(i18n_dict, _) <- load_translatable_dict args i18n_file_path true;
  _ <- check_extra_i18n_codes args i18n_dict en_dict i18n_file_path;
  let ignore_file_path := removesuffix (py ".json") i18n_file_path ++ py ".ignore" in
  '(ignore_dict, _) <- load_translatable_dict args ignore_file_path false;
  ret (en_dict, total, i18n_dict, ignore_dict).

Definition compare_mappings (args : Args) (loc : i18nLocale) (en_file_path : path)
    (en_dict : cdict) (total : nat) (i18n_dict ignore_dict : cdict) : M i18nStats :=
  '(en_dict, translated, untranslated) <-
    compare_codes args loc ignore_dict en_dict 0%nat [] i18n_dict;
  (* stats.missing = en_dict: the same dictionary, which the rendering of
     the message then writes the codes into *)
  missing <-
    (if negb (length en_dict =? 0)%nat then
       let '(missing, flat) := flatten_i18n_dict en_dict in
       _ <- verbose_print args (MsgMissingJson (format_json (JArr (JObj <$> flat)))) 1;
       ret missing
     else ret en_dict);
  untranslated <-
    (if negb (length untranslated =? 0)%nat then
       let '(untranslated, flat) := flatten_i18n_dict untranslated in
       _ <- verbose_print args (MsgUntranslatedJson (format_json (JArr (JObj <$> flat)))) 1;
       ret untranslated
     else ret untranslated);
  ret {| locale := loc; en_file_name := en_file_path; translated := translated;
         untranslated := untranslated; missing := missing; total := total |}.

Definition compare_translations (args : Args) (loc : i18nLocale) (en_file_path : path)
    : M i18nStats :=
  '(en_dict, total, i18n_dict, ignore_dict) <- load_mappings args loc en_file_path;
  compare_mappings args loc en_file_path en_dict total i18n_dict ignore_dict.

(** ** The index files and the walk over locales and files *)

Definition PACK_DIR : path := py "pack".

Definition load_cycles (args : Args) : M json :=
  _ <- verbose_print args (MsgLoading (py "cycle")) 1;
  load_json_file args (os_path_join (base_path args) (py "cycles.json")).

(** [str(x)], as [format] and [%s] apply it; the [repr] of a container
    is not modelled. *)
Definition py_str (x : json) : outcome pstr :=
  match x with
  | JStr s => Ret s
  | JInt z => Ret (int_repr z)
  | JNull => Ret (py "None")
  | JBool true => Ret (py "True")
  | JBool false => Ret (py "False")
  | _ => Raise NotModelled
  end.

(** [p[key]] *)
Definition getitem (p : json) (key : pstr) : outcome json :=
  match p with
  | JObj o => match fget key o with Some v => Ret v | None => Raise KeyError end
  | _ => Raise TypeError
  end.

Definition setitem (p : json) (key : pstr) (v : json) : json :=
  match p with
  | JObj o => JObj (fset key v o)
  | _ => p
  end.

(** A component of [os.path.join] has to be a string. *)
Definition as_str (x : json) : outcome pstr :=
  match x with
  | JStr s => Ret s
  | _ => Raise TypeError
  end.

Definition load_pack (args : Args) (p : json) : M json :=
  cycle_code <- lift (getitem p (py "cycle_code"));
  let p := if py_eq cycle_code (JStr (py "promotional"))
           then setitem p (py "cycle_code") (JStr (py "promo")) else p in
  code <- lift (getitem p (py "code"));
  code_text <- lift (py_str code);
  cycle_code <- lift (getitem p (py "cycle_code"));
  cycle_dir <- lift (as_str cycle_code);
  player <- check_file_access
    (os_path_join (os_path_join (pack_path args) cycle_dir) (code_text ++ py ".json"));
  let p := setitem p (py "player") (JBool player) in
  encounter <- check_file_access
    (os_path_join (os_path_join (pack_path args) cycle_dir) (code_text ++ py "_encounter.json"));
  ret (setitem p (py "encounter") (JBool encounter)).

Fixpoint load_packs_loop (args : Args) (ps : list json) : M (list json) :=
  match ps with
  | [] => ret []
  | p :: ps' =>
      p' <- load_pack args p;
      rest <- load_packs_loop args ps';
      ret (p' :: rest)
  end.

Definition load_packs (args : Args) (cycles_data : json) : M json :=
  _ <- verbose_print args (MsgLoading (py "pack")) 1;
  packs_data <- load_json_file args (os_path_join (base_path args) (py "packs.json"));
  ps <- lift (py_iter packs_data);
  ps' <- load_packs_loop args ps;
  ret (match packs_data with JArr _ => JArr ps' | _ => packs_data end).

Definition get_languages (args : Args) : M (list pstr) :=
  match languages args with
  | Some l => ret l
  | None => os_listdir (os_path_join (base_path args) (py "translations"))
  end.

Fixpoint all_files_names (args : Args) (cycle_dir : pstr) (file_names : list pstr)
    : M (list path) :=
  match file_names with
  | [] => ret []
  | file_name :: rest =>
      if negb (endswith (py ".json") file_name) then
        _ <- verbose_print args (MsgIgnoringNonJson file_name) 1;
        all_files_names args cycle_dir rest
      else
        more <- all_files_names args cycle_dir rest;
        ret (os_path_join (os_path_join PACK_DIR cycle_dir) file_name :: more)
  end.

Fixpoint all_files_cycles (args : Args) (cycle_dirs : list pstr) : M (list path) :=
  match cycle_dirs with
  | [] => ret []
  | cycle_dir :: rest =>
      file_names <- os_listdir (os_path_join PACK_DIR cycle_dir);
      here <- all_files_names args cycle_dir file_names;
      more <- all_files_cycles args rest;
      ret (here ++ more)
  end.

(** The generator [all_files], run to its end. *)
Definition all_files (args : Args) : M (list path) :=
  cycle_dirs <- os_listdir PACK_DIR;
  packs <- all_files_cycles args cycle_dirs;
  ret (packs ++ [py "cycles.json"; py "encounters.json"; py "factions.json";
                 py "packs.json"; py "subtypes.json"; py "types.json"]).

Fixpoint check_translations (args : Args) (loc : i18nLocale) (files : list path) : M unit :=
  match files with
  | [] => ret ()
  | en_file_path :: rest =>
      stats <- compare_translations args loc en_file_path;
      _ <- print_short stats args;
      check_translations args loc rest
  end.

Fixpoint check_locales (args : Args) (files : list path) (langs : list pstr) : M unit :=
  match langs with
  | [] => ret ()
  | locale_name :: rest =>
      _ <- check_translations args
             {| name := locale_name;
                locale_base_path := os_path_join (base_path args) (py "translations") |}
             files;
      check_locales args files rest
  end.

Definition check_all_locales (args : Args) (fileIterator : M (list path)) : M unit :=
  langs <- get_languages args;
  _ <- verbose_print args (MsgProcessing langs) 1;
  files <- fileIterator;
  check_locales args files langs.

(** [sys.stdout.write] *)
Definition stdout_write (text : msg) : M unit := fun w =>
  (Ret (), World (formatting_errors w) (validation_errors w) (stdout w ++ [text])
                 (fs w) (dirs w)).

Definition reset_counters : M unit := fun w =>
  (Ret (), World 0 0 (stdout w) (fs w) (dirs w)).

Definition get_counters : M (Z * Z) := fun w =>
  (Ret (formatting_errors w, validation_errors w), w).

Section Main.
(** [os.path.abspath], [os.path.relpath] (to the working directory and to
    a given directory) and [pathlib.Path(p).parts]: the path algebra of
    the standard library, which depends on the working directory. *)
Variable abspath : path -> path.
Variable relpath : path -> option path -> path.
Variable path_parts : path -> list pstr.

Definition join_parts (parts : list pstr) : pstr :=
  match parts with
  | [] => []
  | x :: l => x ++ concat ((fun y => 47 :: y) <$> l)
  end.

Fixpoint check_file_list (args : Args) (files : list path) : M unit :=
  match files with
  | [] => ret ()
  | f :: rest =>
      let base_translations_path := os_path_join (base_path args) (py "translations") in
      let abs_translations_path := abspath base_translations_path in
      let abs_f := abspath f in
      _ <- (if startswith abs_translations_path abs_f then
              let parts := path_parts (relpath abs_f (Some abs_translations_path)) in
              if (length parts <? 2)%nat then
                verbose_print args (WarnCannotProcess f) 0
              else
                check_translations args
                  {| name := default [] (head parts);
                     locale_base_path := base_translations_path |}
                  [join_parts (drop 1 parts)]
            else
              check_all_locales args (ret [relpath abs_f None]));
      check_file_list args rest
  end.

(** [main], after [parse_commandline]: the status that [sys.exit]
    receives. *)
Definition main (args : Args) : M Z :=
  _ <- reset_counters;
  cycles <- load_cycles args;
  packs <- load_packs args cycles;
  _ <- (if truthy cycles && truthy packs then
          if (length (i18n_files args) =? 0)%nat then
            check_all_locales args (all_files args)
          else
            _ <- verbose_print args (MsgI18nFiles (i18n_files args)) 0;
            check_file_list args (i18n_files args)
        else verbose_print args MsgSkipping 0);
  '(formatting, validation) <- get_counters;
  _ <- stdout_write (MsgFound formatting validation);
  if (formatting =? 0)%Z && (validation =? 0)%Z then ret 0%Z else ret 1%Z.

(** The exit status of the process: an exception that nothing catches
    ends it with status 1. *)
Definition exit_status (args : Args) (w : world) : option Z :=
  match (main args w).1 with
  | Ret status => Some status
  | Raise NotModelled => None
  | Raise _ => Some 1%Z
  end.
End Main.

(** ** The vocabulary of the properties *)

Inductive hkey : Type :=
  | KNone
  | KInt (z : Z)
  | KStr (s : pstr).

Definition key_of (x : json) : option hkey :=
  match x with
  | JNull => Some KNone
  | JBool b => Some (KInt (Z.b2z b))
  | JInt z => Some (KInt z)
  | JStr s => Some (KStr s)
  | _ => None
  end.

(** An association list that stands for a Python dictionary with hashable
    keys: no two entries have equal keys. *)
Definition keys_of (d : cdict) : list (option hkey) := (fun kv => key_of kv.1) <$> d.

Definition py_dict (d : cdict) : Prop :=
  Forall (fun kv => hashable kv.1 = true) d /\ NoDup (keys_of d).

Definition fields_of (d : fdict) : list pstr := fst <$> d.

(** The number of (code, field) pairs of a mapping. *)
Definition pairs (d : cdict) : nat := sum_list_with (fun kv => length kv.2) d.

(** Only standard output grows. *)
Definition quiet (w w' : world) : Prop :=
  formatting_errors w' = formatting_errors w /\
  validation_errors w' = validation_errors w /\
  fs w' = fs w /\ dirs w' = dirs w /\
  exists out, stdout w' = stdout w ++ out.

(** The classification of one source field against the localized record:
    [true] for translated. *)
Definition field_translated (ign : cdict) (code : json) (lf : fdict)
    (fv : pstr * json) : bool :=
  match fget fv.1 lf with
  | Some lv =>
      should_ignore ign code fv.1 lv
      || negb (py_eq fv.2 lv && negb (py_eq fv.2 (JStr [])))
  | None => false
  end.

Definition untranslated_fields (ign : cdict) (code : json) (lf sf : fdict) : fdict :=
  filter (fun fv => negb (field_translated ign code lf fv)) sf.

Definition translated_fields (ign : cdict) (code : json) (lf sf : fdict) : fdict :=
  filter (fun fv => field_translated ign code lf fv) sf.

(** What one localized record adds to the untranslated mapping and to the
    count, against the source mapping [en]. *)
Definition code_untranslated (ign en : cdict) (kv : json * fdict) : option (json * fdict) :=
  match cget kv.1 en with
  | Some sf =>
      let uf := untranslated_fields ign kv.1 kv.2 sf in
      if (0 <? length uf)%nat then Some (kv.1, uf) else None
  | None => None
  end.

Definition code_translated (ign en : cdict) (kv : json * fdict) : nat :=
  match cget kv.1 en with
  | Some sf => length (translated_fields ign kv.1 kv.2 sf)
  | None => 0%nat
  end.

(** The source records that no localized record addresses. *)
Definition unaddressed (en items : cdict) : cdict :=
  foldl (fun e kv => cpop kv.1 e) en items.

(** A mapping after [flatten_i18n_dict] has written the codes into it. *)
Definition with_codes (d : cdict) : cdict := (flatten_i18n_dict d).1.

Definition fields_nodup (d : cdict) : Prop :=
  Forall (fun kv => NoDup (fields_of kv.2)) d.

Fixpoint wf_json (x : json) : bool :=
  match x with
  | JArr l => forallb wf_json l
  | JObj o => bool_decide (NoDup (fst <$> o)) && forallb (fun kv => wf_json kv.2) o
  | _ => true
  end.

(** A field mapping: a dictionary from hashable codes to non-empty
    dictionaries of translatable fields. *)
Definition field_mapping (d : cdict) : Prop :=
  py_dict d /\
  Forall (fun kv => NoDup (fields_of kv.2)
                    /\ Forall (fun f => is_translatable f = true) (fields_of kv.2)
                    /\ (0 < length kv.2)%nat) d.

Global Instance hkey_eq_dec : EqDecision hkey.
Proof. solve_decision. Defined.

Global Instance py_dict_dec (d : cdict) : Decision (py_dict d).
Proof. unfold py_dict. apply _. Defined.

Global Instance field_mapping_dec (d : cdict) : Decision (field_mapping d).
Proof. unfold field_mapping. apply _. Defined.

(** [d.get(code, {}).get(field)] *)
Definition recorded (d : cdict) (code : json) (field : pstr) : option json :=
  match cget code d with
  | Some fields => fget field fields
  | None => None
  end.

Definition empty_world : world := World 0 0 [] ∅ ∅.

Definition quiet_args : Args :=
  {| fix_formatting := false; verbose := 0; base_path := py ".";
     pack_path := py "./pack"; schema_path := py "./schema"; languages := None;
     hide_completed := false; i18n_files := [] |}.

Definition locale_fr : i18nLocale :=
  {| name := py "fr"; locale_base_path := py "./translations" |}.

(** The record of the ignore example: one code, one text. *)
Definition ability_mapping : cdict :=
  [(JStr (py "01001"), [(py "text", JStr (py "Ability text"))])].

(** A source record with a name and a text, and a localized record that
    translates the name, repeats the text and has no flavor. *)
Definition noise_source : cdict :=
  [(JStr (py "A1"), [(py "name", JStr (py "Noise")); (py "text", JStr (py "Draw 1"));
                     (py "flavor", JStr (py "Loud"))])].

Definition noise_localized : cdict :=
  [(JStr (py "A1"), [(py "name", JStr (py "Bruit")); (py "text", JStr (py "Draw 1"))])].

(** What [translated] counts: for every localized record whose code is in
    the source, the source fields classified translated. *)
Definition translated_count (ign source localized : cdict) : nat :=
  sum_list_with
    (fun kv => match cget kv.1 source with
               | Some sf => length (translated_fields ign kv.1 kv.2 sf)
               | None => 0%nat
               end) localized.

Definition values_wf (d : cdict) : Prop :=
  Forall (fun kv => Forall (fun fv => wf_json fv.2 = true) kv.2) d.

Global Instance values_wf_dec (d : cdict) : Decision (values_wf d).
Proof. unfold values_wf. apply _. Defined.

(** A field that an identical localized record leaves translated: its
    value is the empty string, or an ignore rule equals it. *)
Definition empty_or_ignored (ign : cdict) (code : json) (fv : pstr * json) : bool :=
  py_eq fv.2 (JStr []) || should_ignore ign code fv.1 fv.2.

(** The files of the examples: a file holds the canonical text of a
    value. *)
Definition file_of (x : json) : file := File true (Text (format_json x)).

Definition record_of (code : pstr) (fields : fdict) : json :=
  JObj ((py "code", JStr code) :: fields).

Definition noise_file : json :=
  JArr [record_of (py "A1") [(py "name", JStr (py "Noise")); (py "text", JStr (py "Draw 1"))]].

Definition world_with (files : list (path * json)) : world :=
  World 0 0 [] (list_to_map ((fun pf => (pf.1, file_of pf.2)) <$> files)) ∅.

(** The world after some more output. *)
Definition emit (w : world) (out : list msg) : world :=
  World (formatting_errors w) (validation_errors w) (stdout w ++ out) (fs w) (dirs w).

(** What [verbose_print] adds to the output. *)
Definition printed (args : Args) (m : msg) (lvl : Z) : list msg :=
  if (lvl <=? verbose args)%Z then [m] else [].

Definition code_of (c : json) : json :=
  match c with
  | JObj o => default JNull (fget (py "code") o)
  | _ => JNull
  end.

Definition record_fields (c : json) : fdict :=
  match c with
  | JObj o => o
  | _ => []
  end.

(** A record: a dictionary whose code, if any, is hashable. *)
Definition is_record (c : json) : bool :=
  match c with
  | JObj _ => hashable (code_of c)
  | _ => false
  end.

Definition record_key (c : json) : option hkey := key_of (code_of c).

(** What a record brings to the mapping. *)
Definition record_entry (c : json) : option (json * fdict) :=
  let translatable := translatable_of (record_fields c) in
  if (0 <? length translatable)%nat then Some (code_of c, translatable) else None.

Definition duplicate_records : list json :=
  [record_of (py "02001") [(py "name", JStr (py "First"))];
   record_of (py "02001") [(py "name", JStr (py "Second")); (py "text", JStr (py "More"))]].

Definition source_path : path := py "pack/core.json".

Definition localized_path : path := py "./translations/fr/pack/core.json".

Definition fieldless_then_named : json :=
  JArr [record_of (py "X") []; record_of (py "X") [(py "name", JStr (py "N"))]].

Definition no_code (d : cdict) : Prop :=
  Forall (fun kv => fget (py "code") kv.2 = None) d.

(** A computation that leaves the counter of formatting errors as it
    is. *)
Definition keeps_formatting {A : Type} (m : M A) : Prop :=
  forall w, formatting_errors (m w).2 = formatting_errors w.

(** The files of a run whose cycle index has no final line feed. *)
Definition without_final_newline (t : pstr) : pstr := take (length t - 1)%nat t.

Definition cycles_value : json := JArr [JObj [(py "code", JStr (py "core"))]].

Definition packs_value : json :=
  JArr [JObj [(py "code", JStr (py "core")); (py "cycle_code", JStr (py "core"))]].

Definition run_args : Args :=
  {| fix_formatting := false; verbose := 0; base_path := py ".";
     pack_path := py "./pack"; schema_path := py "./schema";
     languages := Some [py "fr"]; hide_completed := false; i18n_files := [] |}.

Definition run_world : world :=
  World 0 0 []
    (list_to_map
       [(py "./cycles.json",
         File true (Text (without_final_newline (format_json cycles_value))));
        (py "./packs.json", file_of packs_value);
        (py "pack/core/core.json", file_of noise_file)])
    (list_to_map [(py "pack", [py "core"]); (py "pack/core", [py "core.json"])]).

Definition same_path (p : path) : path := p.

Definition same_relpath (p : path) (start : option path) : path := p.

Definition one_part (p : path) : list pstr := [p].

Definition curly_quote : json := JStr [0x2019].

Definition spaced_newline : json := JStr [32; 32; 10].

Definition rewritten_sequences : list pstr :=
  [[0x2018]; [0x2019]; [0x2212]; [0x2013]; [92; 114; 92; 110]; [SP; 92; 110]; [93; 91]].

Definition untouched (s : pstr) : bool :=
  forallb (fun p => negb (occurs p s)) rewritten_sequences.

(** The items of a list after the first one, and the same for the pairs of
    a dictionary: what the two inner loops of [iterencode] produce. *)
Definition arr_items (indent : nat -> pstr) (level : nat) (l : list json) : pstr :=
  foldr (fun y t => 44 :: newline_indent indent level ++ iterencode indent y level ++ t) [] l.

Definition obj_items (indent : nat -> pstr) (level : nat) (o : fdict) : pstr :=
  foldr (fun kv t => 44 :: newline_indent indent level ++ encode_basestring kv.1
                     ++ [58; 32] ++ iterencode indent kv.2 level ++ t) [] o.

(** The first character of a rendered value. *)
Definition value_start (c : N) : bool :=
  (c =? 34) || (c =? 45) || is_digit c || (c =? 91) || (c =? 123)
  || (c =? 110) || (c =? 116) || (c =? 102).

(** What may follow a rendered value: the end of the text, a line feed or
    a comma. *)
Definition ends_value (rest : pstr) : bool :=
  match rest with
  | [] => true
  | c :: _ => (c =? 10) || (c =? 44)
  end.

(** The number of values in a value. *)
Fixpoint weight (x : json) : nat :=
  match x with
  | JArr l => S (foldr (fun y n => weight y + n)%nat 0%nat l)
  | JObj o => S (foldr (fun kv n => weight kv.2 + n)%nat 0%nat o)
  | _ => 1%nat
  end.

(** An indentation of [ts.1] tabs, then [ts.2] spaces. *)
Definition render_indent (ts : nat * nat) : pstr := repeat TAB ts.1 ++ repeat SP ts.2.

(** One substitution on an indentation: [4 * i] spaces at the start of the
    line become [i] tabs. *)
Definition tab_step (i : nat) (ts : nat * nat) : nat * nat :=
  if (ts.1 =? 0)%nat && (4 * i <=? ts.2)%nat then (i, (ts.2 - 4 * i)%nat) else ts.

(** The indentation of a level after the eight substitutions. *)
Definition indent_tabs (level : nat) : pstr :=
  render_indent (foldl (fun ts i => tab_step i ts) (0%nat, (4 * level)%nat)
                       [8; 7; 6; 5; 4; 3; 2; 1]%nat).

Definition no_sp_head (s : pstr) : Prop :=
  match s with
  | c :: _ => c <> SP
  | [] => True
  end.

Definition key_lt (a b : pstr * json) : Prop := pstr_ltb a.1 b.1 = true.

(** The keys go up strictly along the list. *)
Fixpoint sorted_keys (l : fdict) : Prop :=
  match l with
  | [] => True
  | kv :: l' => Forall (key_lt kv) l' /\ sorted_keys l'
  end.

(** A card record with its keys out of order, a negative number and a
    nested list. *)
Definition sample_card : json :=
  JObj [ (py "name", JStr (py "Noise"));
         (py "code", JStr (py "A1"));
         (py "xp", JInt (-2));
         (py "deck_options", JArr [JObj [(py "level", JInt 0); (py "faction", JNull)];
                                   JBool true; JArr []]) ].

Definition broken_world : world :=
  World 0 0 [] {[ py "cycles.json" := File true (Text (py "[1,")) ]} ∅.

Definition sup_world : world :=
  World 0 0 []
    {[ py "cycles.json" := File true (Text ([91; 34] ++ py "x<sup>2</sup>" ++ [34; 93])) ]} ∅.

Definition fixing_args : Args :=
  {| fix_formatting := true; verbose := 0; base_path := py "."; pack_path := py "./pack";
     schema_path := py "./schema"; languages := None; hide_completed := false;
     i18n_files := [] |}.

Definition fixable_world : world :=
  World 0 0 [] {[ py "x.json" := File true (Text (py "[1, 2]")) ]} ∅.

(** The English file, the localized file and the ignore file of the
    ignore example: the same record in all three. *)
Definition ability_file : json :=
  JArr [record_of (py "01001") [(py "text", JStr (py "Ability text"))]].

Definition ignore_world : world :=
  world_with [(source_path, ability_file); (localized_path, ability_file);
              (py "./translations/fr/pack/core.ignore", ability_file)].

(** A file that holds the string of two spaces and a line feed. *)
Definition cascade_world : world :=
  World 0 0 [] {[ py "x.json" := File true (Text [34; 32; 32; 92; 110; 34; 10]) ]} ∅.

Definition noise_mapping : cdict :=
  [(JStr (py "A1"), [(py "name", JStr (py "Noise")); (py "text", JStr (py "Draw 1"))])].

(** The path of the ignore file: the localized path with [.ignore] in
    place of a final [.json], or with [.ignore] added when the path does
    not end in [.json]. *)
Definition ignore_path (loc : i18nLocale) (en_file_path : path) : path :=
  removesuffix (py ".json") (resolvePath loc en_file_path) ++ py ".ignore".

Definition listing_world : world :=
  World 0 0 [] ∅
    {[ py "pack" := [py "core"];
       os_path_join (py "pack") (py "core") := [py "core.json"; py "README.md"] ]}.

Definition promotional_pack : json :=
  JObj [(py "code", JStr (py "books")); (py "cycle_code", JStr (py "promotional"))].

(** A relation between the world before and after that a computation
    keeps, whatever its outcome. *)
Definition preserves (R : world -> world -> Prop) {A : Type} (m : M A) : Prop :=
  forall w, R w (m w).2.

(** Nothing is written: the files and the directories are the same, and
    standard output has only grown. *)
Definition read_only (w w' : world) : Prop :=
  fs w' = fs w /\ dirs w' = dirs w /\ exists out, stdout w' = stdout w ++ out.

(** No file appears or disappears. *)
Definition same_files (w w' : world) : Prop :=
  dom (fs w') = dom (fs w) /\ dirs w' = dirs w.

(** The counter of validation errors does not go down. *)
Definition counts_up (w w' : world) : Prop :=
  (validation_errors w <= validation_errors w')%Z.

(** * Properties *)

(** ** Keys: [==] on hashable values is an equivalence *)

Lemma pstr_eqb_true (a b : pstr) : pstr_eqb a b = true <-> a = b.
Proof. unfold pstr_eqb. apply bool_decide_eq_true. Qed.

Lemma pstr_eqb_false (a b : pstr) : pstr_eqb a b = false <-> a <> b.
Proof. unfold pstr_eqb. apply bool_decide_eq_false. Qed.

Lemma pstr_eqb_refl (a : pstr) : pstr_eqb a a = true.
Proof. by apply pstr_eqb_true. Qed.

Lemma py_eq_key (a b : json) :
  hashable a = true -> hashable b = true ->
  py_eq a b = true <-> key_of a = key_of b.
Proof.
  destruct a as [|x|x|s| |], b as [|y|y|t| |]; simpl; try done; intros _ _.
  - destruct x, y; simpl; split; congruence.
  - rewrite Z.eqb_eq. split; congruence.
  - rewrite Z.eqb_eq. split; congruence.
  - rewrite Z.eqb_eq. split; congruence.
  - rewrite pstr_eqb_true. split; congruence.
Qed.

Lemma py_eq_key_false (a b : json) :
  hashable a = true -> hashable b = true ->
  py_eq a b = false <-> key_of a <> key_of b.
Proof.
  intros Ha Hb. rewrite <- (py_eq_key a b Ha Hb). destruct (py_eq a b); split; congruence.
Qed.

Lemma py_eq_refl_key (a : json) : hashable a = true -> py_eq a a = true.
Proof. intros Ha. by apply py_eq_key. Qed.

(** ** Dictionaries *)

Lemma fget_None (f : pstr) (d : fdict) : fget f d = None <-> f ∉ fields_of d.
Proof.
  induction d as [|[k v] d IH]; simpl.
  - split; [intros _; apply not_elem_of_nil | done].
  - unfold fget in *. simpl. destruct (pstr_eqb k f) eqn:E.
    + apply pstr_eqb_true in E. subst. split; [done | intros H; exfalso; apply H; left].
    + apply pstr_eqb_false in E. rewrite not_elem_of_cons. rewrite IH. naive_solver.
Qed.

Lemma fget_Some_elem (f : pstr) (v : json) (d : fdict) :
  fget f d = Some v -> (f, v) ∈ d.
Proof.
  induction d as [|[k v'] d IH]; simpl; [done|].
  unfold fget in *. simpl. destruct (pstr_eqb k f) eqn:E.
  - apply pstr_eqb_true in E. intros [= ->]. subst. left.
  - intros H. right. auto.
Qed.

Lemma fget_elem (f : pstr) (v : json) (d : fdict) :
  NoDup (fields_of d) -> (f, v) ∈ d -> fget f d = Some v.
Proof.
  induction d as [|[k v'] d IH]; simpl; intros Hnd Hin.
  - by apply elem_of_nil in Hin.
  - apply NoDup_cons in Hnd as [Hk Hnd]. unfold fget in *. simpl.
    apply elem_of_cons in Hin as [[= -> ->]|Hin].
    + by rewrite pstr_eqb_refl.
    + destruct (pstr_eqb k f) eqn:E; [|auto].
      apply pstr_eqb_true in E. subst. exfalso. apply Hk.
      apply list_elem_of_fmap. by exists (f, v).
Qed.

Lemma fset_fresh (f : pstr) (v : json) (d : fdict) :
  fget f d = None -> fset f v d = d ++ [(f, v)].
Proof.
  induction d as [|[k v'] d IH]; simpl; [done|].
  unfold fget, fset in *. simpl. destruct (pstr_eqb k f); [done|].
  intros H. by rewrite IH.
Qed.

Lemma fget_app (f : pstr) (d1 d2 : fdict) :
  fget f (d1 ++ d2) = match fget f d1 with Some v => Some v | None => fget f d2 end.
Proof.
  induction d1 as [|[k v] d1 IH]; simpl; [done|].
  unfold fget in *. simpl. by destruct (pstr_eqb k f).
Qed.

Lemma cget_ext (k k' : json) (d : cdict) :
  hashable k = true -> hashable k' = true ->
  Forall (fun kv => hashable kv.1 = true) d ->
  py_eq k k' = true -> cget k d = cget k' d.
Proof.
  intros Hk Hk' Hd E. induction Hd as [|[k0 v] d H0 Hd IH]; simpl; [done|].
  unfold cget in *. simpl in *.
  apply py_eq_key in E; [|done..].
  destruct (py_eq k0 k) eqn:E1, (py_eq k0 k') eqn:E2; try done.
  - apply py_eq_key in E1; [|done..]. apply py_eq_key_false in E2; [|done..]. congruence.
  - apply py_eq_key in E2; [|done..]. apply py_eq_key_false in E1; [|done..]. congruence.
Qed.

Lemma cget_None (k : json) (d : cdict) :
  hashable k = true -> Forall (fun kv => hashable kv.1 = true) d ->
  cget k d = None <-> key_of k ∉ keys_of d.
Proof.
  intros Hk Hd. induction Hd as [|[k0 v] d H0 Hd IH]; simpl.
  - split; [intros _; apply not_elem_of_nil | done].
  - unfold cget in *. simpl in *. rewrite not_elem_of_cons.
    destruct (py_eq k0 k) eqn:E.
    + apply py_eq_key in E; [|done..]. split; [done|]. intros [H _]. congruence.
    + apply py_eq_key_false in E; [|done..]. rewrite IH. naive_solver.
Qed.

Lemma cget_Some_elem (k : json) (v : fdict) (d : cdict) :
  cget k d = Some v -> exists k0, (k0, v) ∈ d /\ py_eq k0 k = true.
Proof.
  induction d as [|[k0 v0] d IH]; simpl; [done|].
  unfold cget in *. simpl. destruct (py_eq k0 k) eqn:E.
  - intros [= ->]. exists k0. split; [left | done].
  - intros H. destruct (IH H) as (k1 & Hin & E1). exists k1. split; [by right | done].
Qed.

Lemma cget_elem (k : json) (v : fdict) (d : cdict) :
  py_dict d -> (k, v) ∈ d -> cget k d = Some v.
Proof.
  intros [Hh Hnd]. induction d as [|[k0 v0] d IH]; simpl; intros Hin.
  - by apply elem_of_nil in Hin.
  - apply Forall_cons in Hh as [H0 Hh]. simpl in Hnd. apply NoDup_cons in Hnd as [Hk Hnd].
    unfold cget in *. simpl in *. apply elem_of_cons in Hin as [[= -> ->]|Hin].
    + by rewrite py_eq_refl_key.
    + destruct (py_eq k0 k) eqn:E; [|auto].
      assert (hashable k = true) as Hk'.
      { rewrite Forall_forall in Hh. by apply (Hh (k, v)). }
      apply py_eq_key in E; [|done..]. exfalso. apply Hk. rewrite E.
      apply list_elem_of_fmap. by exists (k, v).
Qed.

Lemma cset_fresh (k : json) (v : fdict) (d : cdict) :
  cget k d = None -> cset k v d = d ++ [(k, v)].
Proof.
  induction d as [|[k0 v0] d IH]; simpl; [done|].
  unfold cget, cset in *. simpl. destruct (py_eq k0 k); [done|].
  intros H. by rewrite IH.
Qed.

Lemma cget_app (k : json) (d1 d2 : cdict) :
  cget k (d1 ++ d2) = match cget k d1 with Some v => Some v | None => cget k d2 end.
Proof.
  induction d1 as [|[k0 v] d1 IH]; simpl; [done|].
  unfold cget in *. simpl. by destruct (py_eq k0 k).
Qed.

Lemma cpop_keys (k : json) (d : cdict) :
  hashable k = true -> py_dict d ->
  py_dict (cpop k d) /\
  forall k', hashable k' = true ->
    cget k' (cpop k d) = if py_eq k k' then None else cget k' d.
Proof.
  intros Hk [Hh Hnd]. induction d as [|[k0 v0] d IH]; simpl.
  - split; [done|]. intros k' _. by destruct (py_eq k k').
  - apply Forall_cons in Hh as [H0 Hh]. simpl in *. apply NoDup_cons in Hnd as [Hk0 Hnd].
    destruct (IH Hh Hnd) as [[IH1 IH2] IH3]. unfold cpop, cget in *. simpl.
    destruct (py_eq k0 k) eqn:E.
    + split; [done|]. intros k' Hk'. simpl.
      apply py_eq_key in E; [|done..].
      destruct (py_eq k k') eqn:E1.
      * apply py_eq_key in E1; [|done..]. apply cget_None; [done..|]. congruence.
      * apply py_eq_key_false in E1; [|done..].
        destruct (py_eq k0 k') eqn:E2; [|done].
        apply py_eq_key in E2; [|done..]. congruence.
    + apply py_eq_key_false in E; [|done..]. split.
      * split; [by constructor|]. simpl. constructor; [|done].
        intros Hin. apply Hk0. clear -Hin.
        induction d as [|[k1 v1] d IHd]; simpl in *; [done|].
        destruct (py_eq k1 k); [by right|].
        simpl in Hin. apply elem_of_cons in Hin as [->|Hin]; [left | right; auto].
      * intros k' Hk'. simpl. rewrite IH3; [|done].
        destruct (py_eq k0 k') eqn:E2; [|done].
        apply py_eq_key in E2; [|done..].
        destruct (py_eq k k') eqn:E1; [|done].
        apply py_eq_key in E1; [|done..]. congruence.
Qed.

Lemma pairs_app (d1 d2 : cdict) : pairs (d1 ++ d2) = (pairs d1 + pairs d2)%nat.
Proof. apply sum_list_with_app. Qed.

Lemma pairs_cpop (k : json) (v : fdict) (d : cdict) :
  cget k d = Some v -> (pairs (cpop k d) + length v = pairs d)%nat.
Proof.
  induction d as [|[k0 v0] d IH]; simpl; [done|].
  unfold cget, cpop, pairs in *. simpl. destruct (py_eq k0 k).
  - intros [= ->]. lia.
  - intros H. specialize (IH H). simpl. lia.
Qed.

(** ** Effects: what a computation does to the world *)

Lemma quiet_refl (w : world) : quiet w w.
Proof. repeat split. exists []. by rewrite app_nil_r. Qed.

Lemma quiet_trans (w1 w2 w3 : world) : quiet w1 w2 -> quiet w2 w3 -> quiet w1 w3.
Proof.
  intros (A1 & B1 & C1 & D1 & o1 & E1) (A2 & B2 & C2 & D2 & o2 & E2).
  repeat split; try congruence. exists (o1 ++ o2). by rewrite E2, E1, app_assoc.
Qed.

Lemma verbose_print_run (args : Args) (m : msg) (lvl : Z) (w : world) :
  exists w', verbose_print args m lvl w = (Ret (), w') /\ quiet w w'.
Proof.
  unfold verbose_print. destruct (lvl <=? verbose args)%Z.
  - eexists. split; [done|]. repeat split. by exists [m].
  - eexists. split; [done|]. apply quiet_refl.
Qed.

Lemma bind_ret {A B : Type} (m : M A) (f : A -> M B) (w w' : world) (a : A) :
  m w = (Ret a, w') -> bind m f w = f a w'.
Proof. intros H. unfold bind, M_bind. by rewrite H. Qed.

(** ** The loop over the fields of one record *)

Lemma filter_bool_cons {A : Type} (p : A -> bool) (x : A) (l : list A) :
  filter p (x :: l) = if p x then x :: filter p l else filter p l.
Proof. rewrite filter_cons. destruct (decide _) as [H|H]; destruct (p x); done. Qed.

Lemma compare_fields_run (args : Args) (ign : cdict) (code : json) (lf : fdict)
    (items : fdict) :
  forall (u : fdict) (t : nat) (w : world),
    NoDup (fields_of items) ->
    (forall f, f ∈ fields_of items -> fget f u = None) ->
    exists w',
      compare_fields args ign code lf u t items w
      = (Ret (u ++ untranslated_fields ign code lf items,
              (t + length (translated_fields ign code lf items))%nat), w')
      /\ quiet w w'.
Proof.
  unfold untranslated_fields, translated_fields.
  induction items as [|[f v] items IH]; intros u t w Hnd Hfresh.
  - exists w. simpl. rewrite app_nil_r, Nat.add_0_r. split; [done | apply quiet_refl].
  - simpl in Hnd. apply NoDup_cons in Hnd as [Hf Hnd].
    assert (fget f u = None) as Hfu by (apply Hfresh; left).
    assert (forall u', (u' = u \/ u' = u ++ [(f, v)]) ->
              forall g, g ∈ fields_of items -> fget g u' = None) as Hnext.
    { intros u' [->| ->] g Hg.
      - apply Hfresh. by right.
      - rewrite fget_app, (Hfresh g) by (by right). unfold fget. simpl.
        destruct (pstr_eqb f g) eqn:E; [|done].
        apply pstr_eqb_true in E. by subst. }
    rewrite !filter_bool_cons.
    destruct (field_translated ign code lf (f, v)) eqn:Hft;
      unfold field_translated in Hft; simpl in Hft |- *;
      destruct (fget f lf) as [lv|] eqn:Hlf; try done.
    + destruct (should_ignore ign code f lv) eqn:Hig; simpl in Hft.
      * destruct (verbose_print_run args (MsgIgnoring code f lv) 2 w) as (w1 & Hp & Hq).
        rewrite (bind_ret _ _ _ _ _ Hp).
        destruct (IH u (S t) w1 Hnd (Hnext u (or_introl eq_refl))) as (w' & Hr & Hq').
        exists w'. rewrite Hr. split; [|by eapply quiet_trans].
        by rewrite Nat.add_succ_r.
      * apply negb_true_iff in Hft. rewrite Hft.
        destruct (IH u (S t) w Hnd (Hnext u (or_introl eq_refl))) as (w' & Hr & Hq').
        exists w'. rewrite Hr. split; [|done]. by rewrite Nat.add_succ_r.
    + apply orb_false_iff in Hft as [Hig Hft]. apply negb_false_iff in Hft.
      rewrite Hig, Hft. rewrite (fset_fresh _ _ _ Hfu).
      destruct (IH (u ++ [(f, v)]) t w Hnd (Hnext _ (or_intror eq_refl)))
        as (w' & Hr & Hq').
      exists w'. rewrite Hr. split; [|done]. by rewrite <- app_assoc.
    + rewrite (fset_fresh _ _ _ Hfu).
      destruct (IH (u ++ [(f, v)]) t w Hnd (Hnext _ (or_intror eq_refl)))
        as (w' & Hr & Hq').
      exists w'. rewrite Hr. split; [|done]. by rewrite <- app_assoc.
Qed.

(** ** The loop over the records of the localized file *)

Lemma cpop_absent (k : json) (d : cdict) : cget k d = None -> cpop k d = d.
Proof.
  induction d as [|[k0 v0] d IH]; simpl; [done|].
  unfold cget, cpop in *. simpl. destruct (py_eq k0 k); [done|].
  intros H. by rewrite IH.
Qed.

Lemma fields_nodup_cpop (k : json) (d : cdict) :
  fields_nodup d -> fields_nodup (cpop k d).
Proof.
  unfold fields_nodup. induction 1 as [|[k0 v0] d H0 Hd IH]; simpl; [done|].
  unfold cpop in *. simpl. destruct (py_eq k0 k); [done | by constructor].
Qed.

Lemma fields_nodup_cget (k : json) (sf : fdict) (d : cdict) :
  fields_nodup d -> cget k d = Some sf -> NoDup (fields_of sf).
Proof.
  intros Hd Hget. apply cget_Some_elem in Hget as (k0 & Hin & _).
  unfold fields_nodup in Hd. rewrite Forall_forall in Hd. by apply (Hd (k0, sf)).
Qed.

Lemma sum_list_with_ext_Forall {A : Type} (f g : A -> nat) (l : list A) :
  Forall (fun x => f x = g x) l -> sum_list_with f l = sum_list_with g l.
Proof. induction 1 as [|x l Hx Hl IH]; simpl; [done | by rewrite Hx, IH]. Qed.

Lemma omap_cons' {A B : Type} (f : A -> option B) (x : A) (l : list A) :
  omap f (x :: l) = match f x with Some y => y :: omap f l | None => omap f l end.
Proof. done. Qed.

Lemma omap_ext_Forall {A B : Type} (f g : A -> option B) (l : list A) :
  Forall (fun x => f x = g x) l -> omap f l = omap g l.
Proof. induction 1 as [|x l Hx Hl IH]; csimpl; [done | by rewrite Hx, IH]. Qed.

Lemma compare_codes_run (args : Args) (loc : i18nLocale) (ign : cdict) (items : cdict) :
  forall (en : cdict) (t : nat) (u : cdict) (w : world),
    py_dict items -> py_dict en -> fields_nodup en ->
    (forall kv, kv ∈ items -> cget kv.1 u = None) ->
    exists w',
      compare_codes args loc ign en t u items w
      = (Ret (unaddressed en items,
              (t + sum_list_with (code_translated ign en) items)%nat,
              u ++ omap (code_untranslated ign en) items), w')
      /\ quiet w w'.
Proof.
  induction items as [|[code lf] items IH]; intros en t u w Hitems Hen Hnd Hfresh.
  - exists w. simpl. rewrite app_nil_r, Nat.add_0_r. split; [done | apply quiet_refl].
  - destruct Hitems as [Hh Hk]. apply Forall_cons in Hh as [Hcode Hh].
    simpl in Hcode, Hk. apply NoDup_cons in Hk as [Hcode' Hk].
    assert (py_dict items) as Hitems by done.
    assert (forall kv, kv ∈ items -> hashable kv.1 = true /\ py_eq code kv.1 = false) as Hne.
    { intros kv Hin. rewrite Forall_forall in Hh. split; [by apply Hh|].
      apply py_eq_key_false; [done | by apply Hh |]. intros E. apply Hcode'. rewrite E.
      apply list_elem_of_fmap. by exists kv. }
    simpl. unfold code_translated at 1, code_untranslated at 1, unaddressed. simpl.
    destruct (cget code en) as [sf|] eqn:Hget.
    + destruct (compare_fields_run args ign code lf sf [] t w) as (w1 & Hf & Hq1).
      { by eapply fields_nodup_cget. }
      { done. }
      rewrite (bind_ret _ _ _ _ _ Hf). simpl.
      destruct (cpop_keys code en Hcode Hen) as [Hen' Hlook].
      set (uf := untranslated_fields ign code lf sf).
      set (u1 := if (0 <? length uf)%nat then cset code uf u else u).
      assert (u1 = u ++ (if (0 <? length uf)%nat then [(code, uf)] else [])) as Hu1.
      { unfold u1. destruct (0 <? length uf)%nat; [|by rewrite app_nil_r].
        apply cset_fresh. apply (Hfresh (code, lf)). left. }
      destruct (IH (cpop code en) (t + length (translated_fields ign code lf sf))%nat u1 w1)
        as (w' & Hr & Hq'); [done | done | by apply fields_nodup_cpop | |].
      { intros kv Hin. rewrite Hu1, cget_app, (Hfresh kv) by (by right).
        destruct (0 <? length uf)%nat; [|done]. unfold cget. simpl.
        by rewrite (proj2 (Hne kv Hin)). }
      exists w'. rewrite Hr. split; [|by eapply quiet_trans].
      assert (Forall (fun kv => cget kv.1 (cpop code en) = cget kv.1 en) items) as Hsame.
      { rewrite Forall_forall. intros kv Hin. destruct (Hne kv Hin) as [Hkv Hneq].
        by rewrite Hlook, Hneq. }
      assert (sum_list_with (code_translated ign (cpop code en)) items
              = sum_list_with (code_translated ign en) items) as E1.
      { apply sum_list_with_ext_Forall. eapply Forall_impl; [exact Hsame|].
        intros kv Hkv. unfold code_translated. by rewrite Hkv. }
      assert (omap (code_untranslated ign (cpop code en)) items
              = omap (code_untranslated ign en) items) as E2.
      { apply omap_ext_Forall. eapply Forall_impl; [exact Hsame|].
        intros kv Hkv. unfold code_untranslated. by rewrite Hkv. }
      rewrite E1, E2, Hu1, Nat.add_assoc, <- app_assoc. fold uf.
      by destruct (0 <? length uf)%nat.
    + destruct (verbose_print_run args (MsgUnexpectedEntry (name loc) code) 0 w)
        as (w1 & Hp & Hq1).
      rewrite (bind_ret _ _ _ _ _ Hp).
      destruct (IH en t u w1) as (w' & Hr & Hq'); [done..| |].
      { intros kv Hin. apply Hfresh. by right. }
      exists w'. rewrite Hr. split; [|by eapply quiet_trans].
      by rewrite (cpop_absent _ _ Hget).
Qed.

Lemma with_codes_nil : with_codes [] = [].
Proof. done. Qed.

Lemma compare_mappings_run (args : Args) (loc : i18nLocale) (p : path)
    (en : cdict) (total : nat) (items ign : cdict) (w : world) :
  py_dict items -> py_dict en -> fields_nodup en ->
  exists w',
    compare_mappings args loc p en total items ign w
    = (Ret {| locale := loc; en_file_name := p;
              translated := sum_list_with (code_translated ign en) items;
              untranslated := with_codes (omap (code_untranslated ign en) items);
              missing := with_codes (unaddressed en items);
              total := total |}, w')
    /\ quiet w w'.
Proof.
  intros Hitems Hen Hnd. unfold compare_mappings.
  destruct (compare_codes_run args loc ign items en 0 [] w) as (w1 & Hr & Hq1); [done..|].
  rewrite (bind_ret _ _ _ _ _ Hr). simpl.
  set (en' := unaddressed en items). set (u := omap (code_untranslated ign en) items).
  assert (exists w2,
    (if negb (length en' =? 0)%nat
     then let '(missing, flat) := flatten_i18n_dict en' in
          _ <- verbose_print args (MsgMissingJson (format_json (JArr (JObj <$> flat)))) 1;
          ret missing
     else ret en') w1 = (Ret (with_codes en'), w2) /\ quiet w1 w2) as (w2 & H2 & Hq2).
  { destruct en' as [|kv en']; [exists w1; split; [done | apply quiet_refl]|].
    change (negb (length (kv :: _) =? 0)%nat) with true. cbv iota.
    unfold flatten_i18n_dict at 1.
    match goal with |- context [verbose_print args ?m 1] =>
      destruct (verbose_print_run args m 1 w1) as (w2 & Hp & Hq2) end.
    exists w2. split; [|done]. rewrite (bind_ret _ _ _ _ _ Hp). done. }
  rewrite (bind_ret _ _ _ _ _ H2).
  assert (exists w3,
    (if negb (length u =? 0)%nat
     then let '(untranslated, flat) := flatten_i18n_dict u in
          _ <- verbose_print args (MsgUntranslatedJson (format_json (JArr (JObj <$> flat)))) 1;
          ret untranslated
     else ret u) w2 = (Ret (with_codes u), w3) /\ quiet w2 w3) as (w3 & H3 & Hq3).
  { destruct u as [|kv u]; [exists w2; split; [done | apply quiet_refl]|].
    change (negb (length (kv :: _) =? 0)%nat) with true. cbv iota.
    unfold flatten_i18n_dict at 1.
    match goal with |- context [verbose_print args ?m 1] =>
      destruct (verbose_print_run args m 1 w2) as (w3 & Hp & Hq3) end.
    exists w3. split; [|done]. rewrite (bind_ret _ _ _ _ _ Hp). done. }
  rewrite (bind_ret _ _ _ _ _ H3).
  exists w3. split; [done|]. eauto using quiet_trans.
Qed.

(** ** Well-formed values: the keys of a dictionary are distinct *)

Lemma json_rect' (P : json -> Prop) :
  P JNull -> (forall b, P (JBool b)) -> (forall z, P (JInt z)) -> (forall s, P (JStr s)) ->
  (forall l, Forall P l -> P (JArr l)) ->
  (forall o, Forall (fun kv => P kv.2) o -> P (JObj o)) ->
  forall x, P x.
Proof.
  intros Hn Hb Hi Hs Ha Ho. fix IH 1.
  intros [|b|z|s|l|o]; [exact Hn | apply Hb | apply Hi | apply Hs | |].
  - apply Ha. induction l as [|x l IHl]; constructor; [apply IH | exact IHl].
  - apply Ho. induction o as [|[k v] o IHo]; constructor; [apply IH | exact IHo].
Qed.

Lemma py_eq_arr (l1 l2 : list json) :
  py_eq (JArr l1) (JArr l2)
  = match l1, l2 with
    | [], [] => true
    | x :: l1', y :: l2' => py_eq x y && py_eq (JArr l1') (JArr l2')
    | _, _ => false
    end.
Proof. by destruct l1, l2. Qed.

Lemma py_eq_obj (o1 o2 : fdict) :
  py_eq (JObj o1) (JObj o2)
  = (length o1 =? length o2)%nat
    && forallb (fun kv => match fget kv.1 o2 with
                          | Some v' => py_eq kv.2 v'
                          | None => false
                          end) o1.
Proof.
  simpl. f_equal. induction o1 as [|[k v] o1 IH]; simpl; [done|]. by rewrite IH.
Qed.

Lemma py_eq_refl (x : json) : wf_json x = true -> py_eq x x = true.
Proof.
  induction x as [|b|z|s|l IH|o IH] using json_rect'; intros Hwf; try done.
  - by destruct b.
  - apply Z.eqb_refl.
  - apply pstr_eqb_refl.
  - simpl in Hwf. induction IH as [|x l Hx Hl IHl]; [done|].
    rewrite py_eq_arr. simpl in Hwf. apply andb_true_iff in Hwf as [H1 H2].
    rewrite (Hx H1). by apply IHl.
  - simpl in Hwf. apply andb_true_iff in Hwf as [Hnd Hwf].
    apply bool_decide_eq_true in Hnd.
    rewrite py_eq_obj, Nat.eqb_refl. simpl.
    apply forallb_forall. intros [k v] Hin. simpl.
    apply list_elem_of_In in Hin.
    rewrite (fget_elem k v o Hnd Hin).
    rewrite Forall_forall in IH. apply (IH (k, v) Hin).
    rewrite forallb_forall in Hwf. apply (Hwf (k, v)). by apply list_elem_of_In.
Qed.

(** ** What [load_translatable_dict] builds *)

Lemma field_mapping_py_dict (d : cdict) : field_mapping d -> py_dict d.
Proof. by intros [H _]. Qed.

Lemma field_mapping_nodup (d : cdict) : field_mapping d -> fields_nodup d.
Proof.
  intros [_ H]. unfold fields_nodup. eapply Forall_impl; [exact H|]. by intros kv [? _].
Qed.

Lemma code_not_translatable : is_translatable (py "code") = false.
Proof. reflexivity. Qed.

Lemma field_mapping_not_code (d : cdict) (k : json) (sf : fdict) (f : pstr) :
  field_mapping d -> (k, sf) ∈ d -> f ∈ fields_of sf -> f <> py "code".
Proof.
  intros [_ H] Hin Hf ->. rewrite Forall_forall in H.
  destruct (H (k, sf) Hin) as (_ & Ht & _). rewrite Forall_forall in Ht.
  specialize (Ht _ Hf). by rewrite code_not_translatable in Ht.
Qed.

Lemma fget_fset_ne (f k : pstr) (v : json) (d : fdict) :
  f <> k -> fget f (fset k v d) = fget f d.
Proof.
  intros Hne. induction d as [|[k0 v0] d IH]; simpl.
  - unfold fget, fset. simpl. destruct (pstr_eqb k f) eqn:E; [|done].
    apply pstr_eqb_true in E. congruence.
  - unfold fget, fset in *. simpl. destruct (pstr_eqb k0 k) eqn:E; simpl.
    + apply pstr_eqb_true in E. subst k0.
      destruct (pstr_eqb k f) eqn:E'; [|done]. apply pstr_eqb_true in E'. congruence.
    + by rewrite IH.
Qed.

Lemma fget_filter (p : pstr * json -> bool) (f : pstr) (v : json) (d : fdict) :
  NoDup (fields_of d) -> (f, v) ∈ d ->
  fget f (filter p d) = if p (f, v) then Some v else None.
Proof.
  induction d as [|[k v0] d IH]; intros Hnd Hin.
  - by apply elem_of_nil in Hin.
  - simpl in Hnd. apply NoDup_cons in Hnd as [Hk Hnd]. rewrite filter_bool_cons.
    apply elem_of_cons in Hin as [[= -> ->]|Hin].
    + destruct (p (k, v0)).
      * unfold fget. simpl. by rewrite pstr_eqb_refl.
      * apply fget_None. intros Hf. apply Hk.
        apply list_elem_of_fmap in Hf as ([k' v'] & -> & Hf). simpl.
        apply list_elem_of_filter in Hf as [_ Hf].
        apply list_elem_of_fmap. by exists (k', v').
    + assert (k <> f) as Hne.
      { intros ->. apply Hk. apply list_elem_of_fmap. by exists (f, v). }
      destruct (p (k, v0)); [|by apply IH].
      unfold fget in *. simpl. apply pstr_eqb_false in Hne. rewrite Hne. by apply IH.
Qed.

Lemma untranslated_absent (ign en items : cdict) (k : json) :
  hashable k = true -> Forall (fun kv => hashable kv.1 = true) items ->
  key_of k ∉ keys_of items ->
  cget k (with_codes (omap (code_untranslated ign en) items)) = None.
Proof.
  intros Hk Hh. induction Hh as [|kv items Hkv Hh IH]; intros Hnot; [done|].
  simpl in Hnot. apply not_elem_of_cons in Hnot as [Hne Hnot]. csimpl.
  specialize (IH Hnot). unfold code_untranslated at 1.
  destruct (cget kv.1 en) as [sf|]; [|done].
  destruct (0 <? length _)%nat; [|done]. simpl.
  unfold with_codes, flatten_i18n_dict, cget in *. simpl.
  assert (py_eq kv.1 k = false) as ->; [|done].
  apply py_eq_key_false; [done..|]. congruence.
Qed.

Lemma untranslated_lookup (ign en items : cdict) (code : json) (lf : fdict) :
  py_dict items -> (code, lf) ∈ items ->
  cget code (with_codes (omap (code_untranslated ign en) items))
  = match cget code en with
    | Some sf =>
        let uf := untranslated_fields ign code lf sf in
        if (0 <? length uf)%nat then Some (fset (py "code") code uf) else None
    | None => None
    end.
Proof.
  intros [Hh Hnd] Hin. induction items as [|[c0 l0] items IH]; [by apply elem_of_nil in Hin|].
  apply Forall_cons in Hh as [Hc0 Hh]. simpl in Hc0, Hnd.
  apply NoDup_cons in Hnd as [Hk Hnd]. csimpl.
  apply elem_of_cons in Hin as [[= -> ->]|Hin].
  - unfold code_untranslated at 1. simpl. destruct (cget c0 en) as [sf|] eqn:Hget.
    + simpl. destruct (0 <? length _)%nat eqn:Hlen.
      * unfold with_codes, flatten_i18n_dict, cget. simpl. by rewrite py_eq_refl_key.
      * by apply untranslated_absent.
    + by apply untranslated_absent.
  - assert (hashable code = true) as Hcode.
    { rewrite Forall_forall in Hh. by apply (Hh (code, lf)). }
    assert (py_eq c0 code = false) as Hne.
    { apply py_eq_key_false; [done..|]. intros E. apply Hk. rewrite E.
      apply list_elem_of_fmap. by exists (code, lf). }
    etrans; [|apply (IH Hh Hnd Hin)]. unfold code_untranslated at 1. simpl.
    destruct (cget c0 en) as [sf|]; [|done].
    destruct (0 <? length _)%nat; [|done]. simpl.
    unfold with_codes, flatten_i18n_dict, cget. simpl. by rewrite Hne.
Qed.

Lemma recorded_untranslated (ign source localized : cdict) (code : json)
    (lf sf : fdict) (field : pstr) (value : json) :
  field_mapping source -> py_dict localized ->
  (code, lf) ∈ localized -> cget code source = Some sf -> (field, value) ∈ sf ->
  recorded (with_codes (omap (code_untranslated ign source) localized)) code field
  = if field_translated ign code lf (field, value) then None else Some value.
Proof.
  intros Hsrc Hloc Hin Hget Hfv. unfold recorded.
  rewrite (untranslated_lookup ign source localized code lf Hloc Hin), Hget. simpl.
  destruct (cget_Some_elem _ _ _ Hget) as (k0 & Hk0 & _).
  assert (NoDup (fields_of sf)) as Hnd.
  { eapply fields_nodup_cget; [by apply field_mapping_nodup | done]. }
  assert (field <> py "code") as Hne.
  { eapply (field_mapping_not_code source k0 sf); [done..|].
    apply list_elem_of_fmap. by exists (field, value). }
  unfold untranslated_fields.
  destruct (0 <? length _)%nat eqn:Hlen.
  - rewrite (fget_fset_ne _ _ _ _ Hne), (fget_filter _ field value sf Hnd Hfv).
    by destruct (field_translated ign code lf (field, value)).
  - apply Nat.ltb_ge in Hlen.
    destruct (field_translated ign code lf (field, value)) eqn:Hft; [done|].
    exfalso. assert ((field, value) ∈ filter (fun fv => negb (field_translated ign code lf fv)) sf) as Hmem.
    { apply list_elem_of_filter. split; [|done]. by rewrite Hft. }
    destruct (filter _ sf); [by apply elem_of_nil in Hmem | simpl in Hlen; lia].
Qed.

(** ** The comparator classifies every field (C2, C7) *)

Ltac by_decision := apply (bool_decide_unpack _); vm_compute; exact I.

(** C2: for a code in both mappings and a field of the source record, a
    field absent from the localized record is untranslated with the source
    value; a field present, equal to the source value, non-empty and not
    ignored is untranslated with the source value; any other field is
    translated, also when the localized value is the empty string.  The
    translated fields are the ones that [translated] counts. *)
Theorem compare_mappings_classifies (args : Args) (loc : i18nLocale) (p : path)
    (source : cdict) (total : nat) (localized ignore : cdict) (w : world) :
  field_mapping source -> py_dict localized ->
  exists stats w',
    compare_mappings args loc p source total localized ignore w = (Ret stats, w')
    /\ translated stats = translated_count ignore source localized
    /\ forall code lf sf field value,
         (code, lf) ∈ localized -> cget code source = Some sf -> (field, value) ∈ sf ->
         match fget field lf with
         | None =>
             recorded (untranslated stats) code field = Some value
             /\ (field, value) ∉ translated_fields ignore code lf sf
         | Some lv =>
             if negb (should_ignore ignore code field lv)
                && py_eq value lv && negb (py_eq value (JStr []))
             then recorded (untranslated stats) code field = Some value
                  /\ (field, value) ∉ translated_fields ignore code lf sf
             else recorded (untranslated stats) code field = None
                  /\ (field, value) ∈ translated_fields ignore code lf sf
         end
         /\ (fget field lf = Some (JStr []) ->
             recorded (untranslated stats) code field = None
             /\ (field, value) ∈ translated_fields ignore code lf sf).
Proof.
  intros Hsrc Hloc.
  destruct (compare_mappings_run args loc p source total localized ignore w)
    as (w' & Hrun & _); [done | by apply field_mapping_py_dict | by apply field_mapping_nodup |].
  eexists _, w'. split; [exact Hrun|]. split; [done|]. simpl.
  intros code lf sf field value Hin Hget Hfv.
  pose proof (recorded_untranslated ignore source localized code lf sf field value
                Hsrc Hloc Hin Hget Hfv) as Hrec.
  assert ((field, value) ∈ translated_fields ignore code lf sf
          <-> field_translated ignore code lf (field, value) = true) as Htf.
  { unfold translated_fields. rewrite list_elem_of_filter.
    destruct (field_translated ignore code lf (field, value)); naive_solver. }
  assert (field_translated ignore code lf (field, value)
          = match fget field lf with
            | Some lv => should_ignore ignore code field lv
                         || negb (py_eq value lv && negb (py_eq value (JStr [])))
            | None => false
            end) as Hft by done.
  destruct (fget field lf) as [lv|].
  - split.
    + destruct (should_ignore ignore code field lv); simpl in *.
      { rewrite Hrec, Htf, Hft. done. }
      destruct (py_eq value lv && negb (py_eq value (JStr []))); simpl in *;
        rewrite Hrec, Htf, Hft; [split; [done | congruence] | done].
    + intros [= ->]. rewrite Hrec, Htf, Hft.
      destruct (should_ignore ignore code field (JStr [])); simpl; [done|].
      by destruct (py_eq value (JStr [])).
  - rewrite Hrec, Htf, Hft. split; [split; [done | congruence] | done].
Qed.

Lemma compare_mappings_classifies_witness :
  field_mapping noise_source /\ py_dict noise_localized /\
  exists stats w',
    compare_mappings quiet_args locale_fr (py "pack/core.json") noise_source 3
      noise_localized [] empty_world = (Ret stats, w')
    /\ translated stats = 1%nat.
Proof.
  assert (field_mapping noise_source) as H1 by by_decision.
  assert (py_dict noise_localized) as H2 by by_decision.
  split; [exact H1|]. split; [exact H2|].
  destruct (compare_mappings_classifies quiet_args locale_fr (py "pack/core.json")
              noise_source 3 noise_localized [] empty_world H1 H2)
    as (stats & w' & Hrun & Ht & _).
  exists stats, w'. split; [exact Hrun|]. rewrite Ht. reflexivity.
Defined.

(** C7: a field whose localized value equals the entry of the ignore
    mapping for its code and field is classified translated: it is among
    the fields that [translated] counts and it is not recorded as
    untranslated, whatever the source value is. *)
Theorem ignore_rule_counts_as_translated (args : Args) (loc : i18nLocale) (p : path)
    (source : cdict) (total : nat) (localized ignore : cdict) (w : world) :
  field_mapping source -> py_dict localized ->
  exists stats w',
    compare_mappings args loc p source total localized ignore w = (Ret stats, w')
    /\ translated stats = translated_count ignore source localized
    /\ forall code lf sf rules field value lv iv,
         (code, lf) ∈ localized -> cget code source = Some sf -> (field, value) ∈ sf ->
         fget field lf = Some lv ->
         cget code ignore = Some rules -> fget field rules = Some iv ->
         py_eq iv lv = true ->
         (field, value) ∈ translated_fields ignore code lf sf
         /\ recorded (untranslated stats) code field = None.
Proof.
  intros Hsrc Hloc.
  destruct (compare_mappings_run args loc p source total localized ignore w)
    as (w' & Hrun & _); [done | by apply field_mapping_py_dict | by apply field_mapping_nodup |].
  eexists _, w'. split; [exact Hrun|]. split; [done|]. simpl.
  intros code lf sf rules field value lv iv Hin Hget Hfv Hlv Hrules Hiv Heq.
  assert (field_translated ignore code lf (field, value) = true) as Hft.
  { unfold field_translated, should_ignore. simpl. by rewrite Hlv, Hrules, Hiv, Heq. }
  split.
  - unfold translated_fields. apply list_elem_of_filter. by rewrite Hft.
  - by rewrite (recorded_untranslated ignore source localized code lf sf field value), Hft.
Qed.

Lemma ignore_rule_counts_as_translated_witness :
  field_mapping ability_mapping /\ py_dict ability_mapping /\
  exists stats w',
    compare_mappings quiet_args locale_fr (py "pack/core.json") ability_mapping 1
      ability_mapping ability_mapping empty_world = (Ret stats, w')
    /\ translated stats = 1%nat
    /\ recorded (untranslated stats) (JStr (py "01001")) (py "text") = None.
Proof.
  assert (field_mapping ability_mapping) as H1 by by_decision.
  assert (py_dict ability_mapping) as H2 by by_decision.
  split; [exact H1|]. split; [exact H2|].
  destruct (ignore_rule_counts_as_translated quiet_args locale_fr (py "pack/core.json")
              ability_mapping 1 ability_mapping ability_mapping empty_world H1 H2)
    as (stats & w' & Hrun & Ht & Hfield).
  exists stats, w'. split; [exact Hrun|]. split; [rewrite Ht; reflexivity|].
  apply (Hfield (JStr (py "01001")) [(py "text", JStr (py "Ability text"))]
           [(py "text", JStr (py "Ability text"))] [(py "text", JStr (py "Ability text"))]
           (py "text") (JStr (py "Ability text")) (JStr (py "Ability text"))
           (JStr (py "Ability text"))); try reflexivity; by left.
Defined.

(** ** A localized mapping identical to the source (C1) *)

Lemma filter_ext_elem {A : Type} (p q : A -> bool) (l : list A) :
  (forall x, x ∈ l -> p x = q x) -> filter p l = filter q l.
Proof.
  induction l as [|x l IH]; intros H; [done|].
  rewrite !filter_bool_cons, (H x) by left. rewrite IH; [done|].
  intros y Hy. apply H. by right.
Qed.

Lemma unaddressed_self (d : cdict) : py_dict d -> unaddressed d d = [].
Proof.
  intros [Hh _]. induction Hh as [|[k v] d Hk Hd IH]; [done|].
  unfold unaddressed in *. simpl in *. unfold cpop at 2. simpl.
  by rewrite py_eq_refl_key.
Qed.

Lemma field_translated_self (ign : cdict) (code : json) (sf : fdict) (fv : pstr * json) :
  NoDup (fields_of sf) -> fv ∈ sf -> wf_json fv.2 = true ->
  field_translated ign code sf fv = empty_or_ignored ign code fv.
Proof.
  intros Hnd Hin Hwf. destruct fv as [f v]. unfold field_translated, empty_or_ignored.
  simpl in *. rewrite (fget_elem f v sf Hnd Hin), (py_eq_refl v Hwf). simpl.
  rewrite negb_involutive. apply orb_comm.
Qed.

(** C1, as the code has it: when the localized mapping is the source
    mapping, nothing is missing, [translated] counts the source fields
    whose value is the empty string or equals an ignore rule, and every
    other source field is recorded as untranslated with its value. *)
Theorem identical_mapping_stats (args : Args) (loc : i18nLocale) (p : path)
    (source : cdict) (total : nat) (ignore : cdict) (w : world) :
  field_mapping source -> values_wf source ->
  exists stats w',
    compare_mappings args loc p source total source ignore w = (Ret stats, w')
    /\ missing stats = []
    /\ translated stats
       = sum_list_with (fun kv => length (filter (empty_or_ignored ignore kv.1) kv.2)) source
    /\ forall code sf field value,
         (code, sf) ∈ source -> (field, value) ∈ sf ->
         recorded (untranslated stats) code field
         = if empty_or_ignored ignore code (field, value) then None else Some value.
Proof.
  intros Hsrc Hwf. pose proof (field_mapping_py_dict _ Hsrc) as Hpd.
  pose proof (field_mapping_nodup _ Hsrc) as Hnd.
  destruct (compare_mappings_run args loc p source total source ignore w)
    as (w' & Hrun & _); [done..|].
  eexists _, w'. split; [exact Hrun|]. simpl.
  unfold fields_nodup, values_wf in *. rewrite Forall_forall in Hnd, Hwf.
  split; [by rewrite unaddressed_self|]. split.
  - apply sum_list_with_ext_Forall. rewrite Forall_forall. intros [code sf] Hin.
    unfold code_translated. simpl. rewrite (cget_elem code sf source Hpd Hin).
    unfold translated_fields. f_equal. apply filter_ext_elem. intros fv Hfv.
    apply field_translated_self; [by apply (Hnd (code, sf)) | done |].
    specialize (Hwf (code, sf) Hin). simpl in Hwf. rewrite Forall_forall in Hwf. by apply Hwf.
  - intros code sf field value Hin Hfv.
    rewrite (recorded_untranslated ignore source source code sf sf field value
               Hsrc Hpd Hin (cget_elem code sf source Hpd Hin) Hfv).
    rewrite field_translated_self; [done | by apply (Hnd (code, sf)) | done |].
    specialize (Hwf (code, sf) Hin). simpl in Hwf. rewrite Forall_forall in Hwf.
    by apply (Hwf (field, value)).
Qed.

Lemma identical_mapping_stats_witness :
  field_mapping noise_source /\ values_wf noise_source /\
  exists stats w',
    compare_mappings quiet_args locale_fr (py "pack/core.json") noise_source 3
      noise_source [] empty_world = (Ret stats, w')
    /\ missing stats = [] /\ translated stats = 0%nat.
Proof.
  assert (field_mapping noise_source) as H1 by by_decision.
  assert (values_wf noise_source) as H2 by by_decision.
  split; [exact H1|]. split; [exact H2|].
  destruct (identical_mapping_stats quiet_args locale_fr (py "pack/core.json")
              noise_source 3 [] empty_world H1 H2)
    as (stats & w' & Hrun & Hm & Ht & _).
  exists stats, w'. split; [exact Hrun|]. split; [exact Hm|]. rewrite Ht. reflexivity.
Defined.

(** C1 fails as stated: the source file and the localized file hold the
    same record, with a name and a text; both fields are reported
    untranslated and [translated] is 0 while [total] is 2. *)
Lemma identical_file_not_complete :
  exists stats w',
    compare_translations quiet_args locale_fr (py "pack/core.json")
      (world_with [(py "pack/core.json", noise_file);
                   (py "./translations/fr/pack/core.json", noise_file)])
    = (Ret stats, w')
    /\ total stats = 2%nat /\ translated stats = 0%nat
    /\ ~ (translated stats = total stats /\ untranslated stats = []).
Proof.
  eexists _, _. split; [vm_compute; reflexivity|]. simpl.
  split; [done|]. split; [done|]. intros [H _]. discriminate H.
Qed.

(** ** The loader on a list of records (C8, C10) *)

Lemma emit_nil (w : world) : emit w [] = w.
Proof. destruct w. unfold emit. simpl. by rewrite app_nil_r. Qed.

Lemma emit_emit (w : world) (a b : list msg) : emit (emit w a) b = emit w (a ++ b).
Proof. unfold emit. simpl. by rewrite app_assoc. Qed.

Lemma verbose_print_emit (args : Args) (m : msg) (lvl : Z) (w : world) :
  verbose_print args m lvl w = (Ret (), emit w (printed args m lvl)).
Proof.
  unfold verbose_print, printed. destruct (lvl <=? verbose args)%Z; [done|].
  by rewrite emit_nil.
Qed.

Lemma set_mem_false (k : json) (s : list json) :
  hashable k = true -> Forall (fun x => hashable x = true) s ->
  set_mem k s = false <-> key_of k ∉ key_of <$> s.
Proof.
  intros Hk Hs. unfold set_mem. induction Hs as [|x s Hx Hs IH]; simpl.
  - split; [intros _; apply not_elem_of_nil | done].
  - rewrite orb_false_iff, IH, not_elem_of_cons, py_eq_key_false by done. done.
Qed.

Lemma check_duplicate_step (args : Args) (p : path) (codes : list json) (c : json)
    (cs : list json) (w : world) :
  is_record c = true ->
  check_duplicate_codes_loop args p codes (c :: cs) w
  = if set_mem (code_of c) codes
    then check_duplicate_codes_loop args p codes cs
           (emit w (printed args (WarnDuplicateCode (code_of c) p) 0))
    else check_duplicate_codes_loop args p (codes ++ [code_of c]) cs w.
Proof.
  intros Hrec. destruct c as [| | | | |o]; try discriminate Hrec.
  simpl in Hrec. simpl. unfold bind, M_bind, lift, check_hashable. simpl.
  rewrite Hrec. destruct (set_mem _ codes); [|done].
  by rewrite verbose_print_emit.
Qed.

Lemma check_duplicate_distinct (args : Args) (p : path) (cs : list json) :
  forall (codes rest : list json) (w : world),
    Forall (fun c => is_record c = true) cs ->
    Forall (fun x => hashable x = true) codes ->
    NoDup (record_key <$> cs) ->
    (forall c, c ∈ cs -> record_key c ∉ key_of <$> codes) ->
    check_duplicate_codes_loop args p codes (cs ++ rest) w
    = check_duplicate_codes_loop args p (codes ++ (code_of <$> cs)) rest w.
Proof.
  induction cs as [|c cs IH]; intros codes rest w Hrec Hcodes Hnd Hnew.
  - simpl. by rewrite app_nil_r.
  - apply Forall_cons in Hrec as [Hc Hrec]. simpl in Hnd.
    apply NoDup_cons in Hnd as [Hk Hnd].
    assert (hashable (code_of c) = true) as Hh by (by destruct c).
    rewrite <- app_comm_cons, check_duplicate_step by done.
    assert (set_mem (code_of c) codes = false) as ->.
    { apply set_mem_false; [done..|]. apply Hnew. left. }
    rewrite IH; [by rewrite <- app_assoc | done | | done |].
    + apply Forall_app. split; [done | by constructor].
    + intros c' Hc'. rewrite fmap_app, not_elem_of_app. split; [apply Hnew; by right|].
      simpl. rewrite not_elem_of_cons. split; [|apply not_elem_of_nil].
      intros E. apply Hk. apply list_elem_of_fmap. exists c'.
      split; [unfold record_key in *; congruence | done].
Qed.

Lemma load_step (args : Args) (p : path) (warn : bool) (d : cdict) (t : nat) (fe : bool)
    (c : json) (cs : list json) (w : world) :
  is_record c = true ->
  load_translatable_loop args p warn d t fe (c :: cs) w
  = if cmem (code_of c) d
    then load_translatable_loop args p warn d t fe cs
           (emit w (printed args (WarnAlreadyHasEntry (code_of c)) 0))
    else
      let translatable := translatable_of (record_fields c) in
      let extra := extra_fields (record_fields c) in
      load_translatable_loop args p warn
        (if (0 <? length translatable)%nat then cset (code_of c) translatable d else d)
        (t + length translatable)%nat
        (if negb (length extra =? 0)%nat then true else fe) cs
        (emit w (if warn && negb (length extra =? 0)%nat
                 then printed args (WarnExtraFields p extra) 0 else [])).
Proof.
  intros Hrec. destruct c as [| | | | |o]; try discriminate Hrec.
  simpl in Hrec. simpl. unfold bind, M_bind, lift, check_hashable. simpl.
  rewrite Hrec. destruct (cmem _ d); [by rewrite verbose_print_emit|].
  unfold get_translatable_strings, bind, M_bind, ret.
  destruct (warn && negb (length (extra_fields o) =? 0)%nat).
  - by rewrite verbose_print_emit.
  - by rewrite emit_nil.
Qed.

Lemma cmem_false (k : json) (d : cdict) : cmem k d = false <-> cget k d = None.
Proof. unfold cmem, cget, dict_mem. destruct (dict_get py_eq k d); split; congruence. Qed.

Lemma keys_of_app (d1 d2 : cdict) : keys_of (d1 ++ d2) = keys_of d1 ++ keys_of d2.
Proof. unfold keys_of. apply fmap_app. Qed.

(** Records with distinct codes that the mapping does not have yet: every
    one with a translatable field is appended, nothing is printed. *)
Lemma load_distinct (args : Args) (p : path) (cs : list json) :
  forall (d : cdict) (t : nat) (fe : bool) (rest : list json) (w : world),
    Forall (fun c => is_record c = true) cs ->
    Forall (fun kv => hashable kv.1 = true) d ->
    NoDup (record_key <$> cs) ->
    (forall c, c ∈ cs -> record_key c ∉ keys_of d) ->
    load_translatable_loop args p false d t fe (cs ++ rest) w
    = load_translatable_loop args p false (d ++ omap record_entry cs)
        (t + sum_list_with (fun c => length (translatable_of (record_fields c))) cs)%nat
        (fe || existsb (fun c => negb (length (extra_fields (record_fields c)) =? 0)%nat) cs)
        rest w.
Proof.
  induction cs as [|c cs IH]; intros d t fe rest w Hrec Hd Hnd Hnew.
  - simpl. by rewrite app_nil_r, Nat.add_0_r, orb_false_r.
  - apply Forall_cons in Hrec as [Hc Hrec]. simpl in Hnd.
    apply NoDup_cons in Hnd as [Hk Hnd].
    assert (hashable (code_of c) = true) as Hh by (by destruct c).
    rewrite <- app_comm_cons, load_step by done.
    assert (cget (code_of c) d = None) as Hget.
    { apply cget_None; [done..|]. apply Hnew. left. }
    rewrite (proj2 (cmem_false _ _) Hget). cbv zeta. simpl andb. cbv iota.
    rewrite emit_nil, omap_cons'. unfold record_entry at 1.
    simpl sum_list_with. simpl existsb.
    set (tr := translatable_of (record_fields c)).
    set (d1 := if (0 <? length tr)%nat then cset (code_of c) tr d else d).
    assert (d1 = d ++ (if (0 <? length tr)%nat then [(code_of c, tr)] else [])) as Hd1.
    { unfold d1. destruct (0 <? length tr)%nat; [by apply cset_fresh | by rewrite app_nil_r]. }
    rewrite IH; [| done | | done |].
    + rewrite Hd1, <- app_assoc, Nat.add_assoc. f_equal.
      * by destruct (0 <? length tr)%nat.
      * by destruct (negb (length (extra_fields (record_fields c)) =? 0)%nat), fe.
    + rewrite Hd1. apply Forall_app. split; [done|].
      destruct (0 <? length tr)%nat; by repeat constructor.
    + intros c' Hc'. rewrite Hd1, keys_of_app, not_elem_of_app.
      split; [apply Hnew; by right|].
      destruct (0 <? length tr)%nat; [|apply not_elem_of_nil]. simpl.
      rewrite not_elem_of_cons. split; [|apply not_elem_of_nil].
      intros E. apply Hk. apply list_elem_of_fmap. exists c'.
      split; [unfold record_key in *; congruence | done].
Qed.

Lemma set_mem_true (k x : json) (s : list json) :
  hashable k = true -> Forall (fun y => hashable y = true) s ->
  x ∈ s -> key_of x = key_of k -> set_mem k s = true.
Proof.
  intros Hk Hs Hx E. destruct (set_mem k s) eqn:Hm; [done|].
  apply set_mem_false in Hm; [|done..]. exfalso. apply Hm. rewrite <- E.
  apply list_elem_of_fmap. by exists x.
Qed.

Lemma cmem_elem (k k0 : json) (v : fdict) (d : cdict) :
  hashable k = true -> Forall (fun kv => hashable kv.1 = true) d ->
  (k0, v) ∈ d -> key_of k0 = key_of k -> cmem k d = true.
Proof.
  intros Hk Hd Hin E. destruct (cmem k d) eqn:Hm; [done|].
  apply cmem_false, cget_None in Hm; [|done..]. exfalso. apply Hm. rewrite <- E.
  apply list_elem_of_fmap. by exists (k0, v).
Qed.

Lemma record_entry_elem (c : json) (kv : json * fdict) :
  record_entry c = Some kv -> kv = (code_of c, translatable_of (record_fields c)).
Proof. unfold record_entry. destruct (0 <? _)%nat; congruence. Qed.

Lemma entries_keys (cs : list json) (x : option hkey) :
  x ∈ keys_of (omap record_entry cs) -> x ∈ record_key <$> cs.
Proof.
  unfold keys_of. rewrite !list_elem_of_fmap. intros (kv & -> & Hkv).
  apply list_elem_of_omap in Hkv as (c & Hc & He). exists c. split; [|done].
  apply record_entry_elem in He. by subst kv.
Qed.

Lemma entries_hashable (cs : list json) :
  Forall (fun c => is_record c = true) cs ->
  Forall (fun kv => hashable kv.1 = true) (omap record_entry cs).
Proof.
  rewrite !Forall_forall. intros Hrec kv Hkv.
  apply list_elem_of_omap in Hkv as (c & Hc & He).
  apply record_entry_elem in He. subst kv. simpl.
  specialize (Hrec c Hc). by destruct c.
Qed.

Lemma is_record_hashable (c : json) : is_record c = true -> hashable (code_of c) = true.
Proof. by destruct c. Qed.

(** C8, as the code has it: when a code occurs twice in a source list and
    its first record has a translatable field, the duplicate check prints
    one warning and the loop of the loader a second one; the mapping and
    the total are those of the list without the second record, which
    prints nothing. *)
Theorem duplicate_code_two_warnings (args : Args) (p : path) (l1 l2 l3 : list json)
    (r1 r2 : json) (w : world) :
  (0 <= verbose args)%Z ->
  Forall (fun c => is_record c = true) (l1 ++ r1 :: l2 ++ r2 :: l3) ->
  record_key r2 = record_key r1 ->
  NoDup (record_key <$> (l1 ++ r1 :: l2 ++ l3)) ->
  (0 < length (translatable_of (record_fields r1)))%nat ->
  let kept := l1 ++ r1 :: l2 ++ l3 in
  let d := omap record_entry kept in
  let t := sum_list_with (fun c => length (translatable_of (record_fields c))) kept in
  translatable_dict_of_data args p false (JArr (l1 ++ r1 :: l2 ++ r2 :: l3)) w
  = (Ret (d, t),
     emit w [WarnDuplicateCode (code_of r2) p; WarnAlreadyHasEntry (code_of r2)])
  /\ translatable_dict_of_data args p false (JArr kept) w = (Ret (d, t), w).
Proof.
  intros Hv Hrec Hkey Hnd Hlen kept d t.
  assert (forall m, printed args m 0 = [m]) as Hprint.
  { intros m. unfold printed. by rewrite (proj2 (Z.leb_le _ _) Hv). }
  set (P := l1 ++ r1 :: l2).
  assert (l1 ++ r1 :: l2 ++ r2 :: l3 = P ++ r2 :: l3) as Hall
    by (unfold P; by rewrite <- app_assoc).
  assert (kept = P ++ l3) as Hkept by (unfold kept, P; by rewrite <- app_assoc).
  rewrite Hall in Hrec. apply Forall_app in Hrec as [HP Hrec].
  apply Forall_cons in Hrec as [Hr2 Hl3].
  fold kept in Hnd. rewrite Hkept, fmap_app in Hnd.
  apply NoDup_app in Hnd as (HndP & Hdisj & Hnd3).
  assert (r1 ∈ P) as Hr1P by (unfold P; set_solver).
  assert (is_record r1 = true) as Hr1 by (rewrite Forall_forall in HP; by apply HP).
  assert (Forall (fun x => hashable x = true) (code_of <$> P)) as HcodesP.
  { apply Forall_fmap. eapply Forall_impl; [exact HP|]. apply is_record_hashable. }
  assert (forall c, c ∈ l3 -> record_key c ∉ record_key <$> P) as Hl3P.
  { intros c Hc Hin. apply (Hdisj _ Hin). apply list_elem_of_fmap. by exists c. }
  assert (forall c, c ∈ l3 -> record_key c ∉ key_of <$> (code_of <$> P)) as Hl3codes.
  { intros c Hc. rewrite <- list_fmap_compose. by apply Hl3P. }
  assert (forall c, c ∈ l3 -> record_key c ∉ keys_of (omap record_entry P)) as Hl3d.
  { intros c Hc Hin. apply (Hl3P c Hc). by apply entries_keys. }
  split.
  - rewrite Hall. unfold translatable_dict_of_data, check_duplicate_codes.
    unfold bind at 1 2, M_bind, lift. simpl py_iter. cbv iota beta.
    rewrite (check_duplicate_distinct args p P [] (r2 :: l3) w);
      [| exact HP | by constructor | exact HndP | intros c _; apply not_elem_of_nil].
    rewrite app_nil_l, check_duplicate_step by done.
    rewrite (set_mem_true (code_of r2) (code_of r1));
      [| by apply is_record_hashable | done | by apply list_elem_of_fmap_2 | done].
    rewrite Hprint, <- (app_nil_r l3).
    rewrite (check_duplicate_distinct args p l3 (code_of <$> P) []);
      [| exact Hl3 | exact HcodesP | exact Hnd3 | exact Hl3codes].
    simpl check_duplicate_codes_loop. unfold ret at 1. cbv iota beta.
    unfold bind at 1, M_bind. cbv iota beta.
    unfold bind at 1, M_bind.
    assert (forall w0,
      load_translatable_loop args p false [] 0 false (P ++ r2 :: l3 ++ []) w0
      = (Ret (d, t, existsb (fun c => negb (length (extra_fields (record_fields c)) =? 0)%nat)
                      kept),
         emit w0 [WarnAlreadyHasEntry (code_of r2)])) as Hload.
    { intros w0.
      rewrite (load_distinct args p P [] 0 false (r2 :: l3 ++ []) w0);
        [| exact HP | by constructor | exact HndP | intros c _; apply not_elem_of_nil].
      simpl app at 1. rewrite load_step by done.
      rewrite (cmem_elem (code_of r2) (code_of r1) (translatable_of (record_fields r1)));
        [| by apply is_record_hashable | by apply entries_hashable | | done].
      2: { apply list_elem_of_omap. exists r1. split; [done|]. unfold record_entry.
           by rewrite (proj2 (Nat.ltb_lt _ _) Hlen). }
      rewrite Hprint.
      rewrite (load_distinct args p l3 _ _ _ [] _);
        [| exact Hl3 | by apply entries_hashable | exact Hnd3 | exact Hl3d].
      simpl load_translatable_loop. unfold ret.
      unfold d, t. by rewrite Hkept, omap_app, sum_list_with_app, existsb_app. }
    rewrite Hload. cbv iota beta. unfold ret. rewrite andb_false_r. cbv iota.
    by rewrite emit_emit.
  - rewrite Hkept. unfold translatable_dict_of_data, check_duplicate_codes.
    unfold bind at 1 2, M_bind, lift. simpl py_iter. cbv iota beta.
    assert (Forall (fun c => is_record c = true) (P ++ l3)) as Hrec'
      by (by apply Forall_app).
    assert (NoDup (record_key <$> (P ++ l3))) as Hnd'.
    { rewrite fmap_app. by apply NoDup_app. }
    rewrite <- (app_nil_r (P ++ l3)).
    rewrite (check_duplicate_distinct args p (P ++ l3) [] [] w);
      [| exact Hrec' | by constructor | exact Hnd' | intros c _; apply not_elem_of_nil].
    simpl check_duplicate_codes_loop. unfold ret at 1. cbv iota beta.
    unfold bind at 1, M_bind. cbv iota beta. unfold bind at 1, M_bind.
    rewrite (load_distinct args p (P ++ l3) [] 0 false [] w);
      [| exact Hrec' | by constructor | exact Hnd' | intros c _; apply not_elem_of_nil].
    simpl load_translatable_loop. unfold ret. cbv iota beta.
    rewrite andb_false_r. cbv iota. unfold d, t. by rewrite Hkept.
Qed.

Lemma duplicate_code_two_warnings_witness :
  translatable_dict_of_data quiet_args (py "pack/core.json") false
    (JArr duplicate_records) empty_world
  = (Ret ([(JStr (py "02001"), [(py "name", JStr (py "First"))])], 1%nat),
     emit empty_world [WarnDuplicateCode (JStr (py "02001")) (py "pack/core.json");
                       WarnAlreadyHasEntry (JStr (py "02001"))]).
Proof.
  refine (proj1 (duplicate_code_two_warnings quiet_args (py "pack/core.json") [] [] []
            (record_of (py "02001") [(py "name", JStr (py "First"))])
            (record_of (py "02001") [(py "name", JStr (py "Second")); (py "text", JStr (py "More"))])
            empty_world _ _ _ _ _)).
  - simpl. lia.
  - by_decision.
  - reflexivity.
  - by_decision.
  - vm_compute. lia.
Defined.

(** C8 fails as stated: a source list with two records of code 02001
    prints two warnings, one from the duplicate check and one from the
    loop of the loader. *)
Lemma duplicate_code_not_one_warning :
  exists r w',
    translatable_dict_of_data quiet_args (py "pack/core.json") false
      (JArr duplicate_records) empty_world = (Ret r, w')
    /\ length (filter is_warning (stdout w')) = 2%nat.
Proof. eexists _, _. split; [vm_compute; reflexivity | reflexivity]. Qed.

(** ** The loader builds a field mapping *)

Lemma fields_of_fset (k : pstr) (v : json) (d : fdict) :
  fields_of (fset k v d)
  = if bool_decide (k ∈ fields_of d) then fields_of d else fields_of d ++ [k].
Proof.
  induction d as [|[k0 v0] d IH]; [done|].
  change (fields_of (fset k v ((k0, v0) :: d)))
    with (fields_of (if pstr_eqb k0 k then (k0, v) :: d else (k0, v0) :: fset k v d)).
  change (fields_of ((k0, v0) :: d)) with (k0 :: fields_of d).
  destruct (pstr_eqb k0 k) eqn:E.
  - apply pstr_eqb_true in E. subst. rewrite bool_decide_eq_true_2; [done | left].
  - apply pstr_eqb_false in E.
    change (fields_of ((k0, v0) :: fset k v d)) with (k0 :: fields_of (fset k v d)).
    rewrite IH. destruct (bool_decide (k ∈ fields_of d)) eqn:Hd.
    + apply bool_decide_eq_true in Hd. rewrite bool_decide_eq_true_2; [done | by right].
    + apply bool_decide_eq_false in Hd. rewrite bool_decide_eq_false_2; [done|].
      rewrite not_elem_of_cons. split; [congruence | done].
Qed.

Lemma gather_fields (item : fdict) (fields : list pstr) :
  forall acc : fdict,
    NoDup (fields_of acc) -> Forall (fun f => is_translatable f = true) (fields_of acc) ->
    Forall (fun f => is_translatable f = true) fields ->
    let result := foldl (fun result field =>
                           match fget field item with
                           | Some v => fset field v result
                           | None => result
                           end) acc fields in
    NoDup (fields_of result) /\ Forall (fun f => is_translatable f = true) (fields_of result).
Proof.
  induction fields as [|f fields IH]; intros acc Hnd Ht Hf; [done|].
  apply Forall_cons in Hf as [Hf Hfs]. simpl. apply IH; [| |done].
  - destruct (fget f item); [|done]. rewrite fields_of_fset.
    destruct (bool_decide (f ∈ fields_of acc)) eqn:E; [done|].
    apply bool_decide_eq_false in E. apply NoDup_app. split; [done|].
    split; [|apply NoDup_singleton]. intros x Hx Hx'. apply list_elem_of_singleton in Hx'.
    by subst.
  - destruct (fget f item); [|done]. rewrite fields_of_fset.
    destruct (bool_decide (f ∈ fields_of acc)); [done|].
    apply Forall_app. split; [done | by constructor].
Qed.

Lemma translatable_of_fields (item : fdict) :
  NoDup (fields_of (translatable_of item))
  /\ Forall (fun f => is_translatable f = true) (fields_of (translatable_of item)).
Proof.
  apply gather_fields; [apply NoDup_nil_2 | done |].
  unfold translatable_fields. repeat constructor.
Qed.

Lemma load_not_record (args : Args) (p : path) (warn : bool) (d : cdict) (t : nat)
    (fe : bool) (c : json) (cs : list json) (w : world) :
  is_record c = false ->
  exists e, load_translatable_loop args p warn d t fe (c :: cs) w = (Raise e, w).
Proof.
  intros Hrec. destruct c as [| | | | |o]; try (by eexists).
  simpl in Hrec. simpl. unfold bind, M_bind, lift, check_hashable. simpl.
  rewrite Hrec. by eexists.
Qed.

Lemma field_mapping_snoc (d : cdict) (code : json) (tr : fdict) :
  field_mapping d -> hashable code = true -> cget code d = None ->
  NoDup (fields_of tr) -> Forall (fun f => is_translatable f = true) (fields_of tr) ->
  (0 < length tr)%nat ->
  field_mapping (d ++ [(code, tr)]).
Proof.
  intros [[Hh Hnd] Hf] Hcode Hget Htr1 Htr2 Htr3. split; [split|].
  - apply Forall_app. split; [done | by constructor].
  - rewrite keys_of_app. apply NoDup_app. split; [done|]. split; [|apply NoDup_singleton].
    intros x Hx Hx'. apply list_elem_of_singleton in Hx'. subst x.
    by apply (proj1 (cget_None code d Hcode Hh)).
  - apply Forall_app. split; [done|]. by constructor.
Qed.

Lemma load_loop_invariant (args : Args) (p : path) (warn : bool) (cs : list json) :
  forall (d : cdict) (t : nat) (fe : bool) (w : world) (d' : cdict) (t' : nat)
         (fe' : bool) (w' : world),
    field_mapping d ->
    load_translatable_loop args p warn d t fe cs w = (Ret (d', t', fe'), w') ->
    field_mapping d' /\ (t' + pairs d = t + pairs d')%nat.
Proof.
  induction cs as [|c cs IH]; intros d t fe w d' t' fe' w' Hd Hrun.
  - simpl in Hrun. unfold ret in Hrun. injection Hrun as -> -> _ _. split; [done | lia].
  - destruct (is_record c) eqn:Hrec.
    2: { destruct (load_not_record args p warn d t fe c cs w Hrec) as [e He]. congruence. }
    rewrite load_step in Hrun by done.
    destruct (cmem (code_of c) d) eqn:Hmem; [by eapply IH|].
    cbv zeta in Hrun. set (tr := translatable_of (record_fields c)) in *.
    destruct (translatable_of_fields (record_fields c)) as [Htr1 Htr2]. fold tr in Htr1, Htr2.
    destruct (0 <? length tr)%nat eqn:Hlen.
    + apply Nat.ltb_lt in Hlen. apply cmem_false in Hmem.
      rewrite (cset_fresh _ _ _ Hmem) in Hrun.
      apply IH in Hrun as [H1 H2].
      * split; [done|]. rewrite pairs_app in H2. unfold pairs at 2 in H2. simpl in H2. lia.
      * apply field_mapping_snoc; [done | by apply is_record_hashable | done..].
    + apply Nat.ltb_ge in Hlen. apply IH in Hrun as [H1 H2]; [|done]. split; [done | lia].
Qed.

Lemma with_codes_py_dict (d : cdict) : py_dict d -> py_dict (with_codes d).
Proof.
  unfold py_dict, with_codes, flatten_i18n_dict, keys_of. simpl.
  rewrite Forall_fmap, <- list_fmap_compose. done.
Qed.

(** C10, first half: whatever the loader returns is a dictionary of
    hashable codes, and for a source or ignore file a field mapping whose
    records are not empty, with [total] the number of its pairs. *)
Lemma loaded_mapping (args : Args) (p : path) (warn : bool) (data : json)
    (w w' : world) (d : cdict) (t : nat) :
  translatable_dict_of_data args p warn data w = (Ret (d, t), w') ->
  py_dict d /\ (warn = false -> field_mapping d /\ t = pairs d).
Proof.
  unfold translatable_dict_of_data. unfold bind at 1, M_bind.
  destruct (check_duplicate_codes args data p w) as [[[]|e] w1]; [|done].
  unfold bind at 1, M_bind, lift. destruct (py_iter data) as [cs|e]; [|done].
  unfold bind at 1, M_bind.
  destruct (load_translatable_loop args p warn [] 0 false cs w1)
    as [[[[d0 t0] fe0]|e] w2] eqn:Hloop; [|done].
  apply load_loop_invariant in Hloop as [Hfm Ht]; [|by repeat split; constructor].
  destruct (fe0 && warn) eqn:E.
  - unfold flatten_i18n_dict. cbv beta iota zeta. unfold bind, M_bind.
    rewrite verbose_print_emit. unfold ret.
    intros [= <- <- _]. split.
    + by apply with_codes_py_dict, field_mapping_py_dict.
    + intros ->. by rewrite andb_false_r in E.
  - unfold ret. intros [= <- <- _]. split; [by apply field_mapping_py_dict|].
    intros _. split; [done|]. unfold pairs at 1 in Ht. simpl in Ht. lia.
Qed.

Lemma load_translatable_dict_mapping (args : Args) (p : path) (warn : bool)
    (w w' : world) (d : cdict) (t : nat) :
  load_translatable_dict args p warn w = (Ret (d, t), w') ->
  py_dict d /\ (warn = false -> field_mapping d /\ t = pairs d).
Proof.
  unfold load_translatable_dict, check_file_access. unfold bind at 1, M_bind.
  destruct (bool_decide _).
  - unfold bind at 1, M_bind.
    destruct (load_json_file args p w) as [[data|e] w1]; [|done]. apply loaded_mapping.
  - unfold bind, M_bind. rewrite verbose_print_emit. unfold ret. intros [= <- <- _].
    split; [by split; constructor|]. intros _. split; [|done].
    by repeat split; constructor.
Qed.

(** ** No localized file, or one that decodes to nothing (C6) *)

Lemma load_translatable_dict_absent (args : Args) (p : path) (warn : bool) (w : world) :
  fs w !! p = None ->
  load_translatable_dict args p warn w
  = (Ret ([], 0%nat), emit w (printed args (WarnCouldNotLoad p) 1)).
Proof.
  intros Hp. unfold load_translatable_dict, check_file_access, bind, M_bind.
  rewrite Hp. rewrite bool_decide_eq_false_2 by (by intros [x Hx]).
  by rewrite verbose_print_emit.
Qed.

(** With an empty localized mapping nothing is translated or untranslated,
    and every source record is missing, with its code written into it. *)
Lemma compare_mappings_empty (args : Args) (loc : i18nLocale) (p : path)
    (en : cdict) (total : nat) (ign : cdict) (w : world) :
  exists w',
    compare_mappings args loc p en total [] ign w
    = (Ret {| locale := loc; en_file_name := p; translated := 0; untranslated := [];
              missing := with_codes en; total := total |}, w')
    /\ quiet w w'.
Proof.
  unfold compare_mappings. simpl compare_codes. unfold bind at 1, M_bind, ret at 1.
  cbv beta iota. destruct en as [|kv en].
  - exists w. split; [done | apply quiet_refl].
  - change (negb (length (kv :: en) =? 0)%nat) with true. cbv iota.
    unfold flatten_i18n_dict at 1. cbv beta iota zeta. unfold bind, M_bind.
    rewrite verbose_print_emit. unfold ret. simpl.
    eexists. split; [done|]. repeat split. by eexists.
Qed.

(** C6 against the code.  A localized file that holds [null] decodes to
    [None]: the comparator does not treat it as an empty mapping, the
    duplicate check iterates over [None] and raises [TypeError].  Without a
    localized file the run returns, [translated] is 0 and [untranslated] is
    empty, but [missing] is the source mapping with the code written into
    every record by [flatten_i18n_dict]. *)
Theorem localized_nothing_evaluated :
  (compare_translations quiet_args locale_fr source_path
     (world_with [(source_path, noise_file); (localized_path, JNull)])).1
  = Raise TypeError
  /\ exists stats w',
       compare_translations quiet_args locale_fr source_path
         (world_with [(source_path, noise_file)]) = (Ret stats, w')
       /\ translated stats = 0%nat /\ untranslated stats = []
       /\ missing stats
          = [(JStr (py "A1"), [(py "name", JStr (py "Noise")); (py "text", JStr (py "Draw 1"));
                               (py "code", JStr (py "A1"))])]
       /\ (load_translatable_dict quiet_args source_path false
             (world_with [(source_path, noise_file)])).1
          = Ret ([(JStr (py "A1"), [(py "name", JStr (py "Noise"));
                                    (py "text", JStr (py "Draw 1"))])], 2%nat).
Proof.
  split; [vm_compute; reflexivity|].
  eexists _, _. split; [vm_compute; reflexivity|]. simpl.
  repeat split; vm_compute; reflexivity.
Qed.

(** ** Conservation (C9) *)

(** C9 against the code: a source record with two fields and no localized
    file.  [total] is 2 and [translated] is 0, but [missing] holds three
    pairs, the third being the code that [flatten_i18n_dict] wrote into the
    record. *)
Theorem conservation_evaluated :
  exists stats w',
    compare_translations quiet_args locale_fr source_path
      (world_with [(source_path, noise_file)]) = (Ret stats, w')
    /\ total stats = 2%nat
    /\ (translated stats + pairs (untranslated stats) + pairs (missing stats) = 3)%nat.
Proof. eexists _, _. split; [vm_compute; reflexivity|]. by split. Qed.

(** ** Records without translatable fields (C10) *)

(** C10 against the code: the first record of code X has no whitelisted
    field, so it is not stored and the loop does not see the second record
    of X as a duplicate; X is in the mapping with the fields of the second
    record, and with no localized file it is reported missing. *)
Theorem fieldless_code_evaluated :
  translatable_of (record_fields (record_of (py "X") [])) = []
  /\ exists stats w',
       compare_translations quiet_args locale_fr source_path
         (world_with [(source_path, fieldless_then_named)]) = (Ret stats, w')
       /\ total stats = 1%nat
       /\ recorded (missing stats) (JStr (py "X")) (py "name") = Some (JStr (py "N"))
       /\ filter is_warning (stdout w')
          = [WarnDuplicateCode (JStr (py "X")) source_path].
Proof.
  split; [reflexivity|].
  eexists _, _. split; [vm_compute; reflexivity|]. by repeat split.
Qed.

(** The loop itself conserves the fields: before the messages are
    rendered, every source pair is translated, untranslated or missing. *)
Lemma filter_partition_length {A : Type} (p : A -> bool) (l : list A) :
  (length (filter p l) + length (filter (fun x => negb (p x)) l) = length l)%nat.
Proof.
  induction l as [|x l IH]; [done|]. rewrite !filter_bool_cons.
  destruct (p x); simpl; lia.
Qed.

Lemma conservation_before_rendering (ign : cdict) (items : cdict) :
  forall en : cdict,
    py_dict items -> py_dict en ->
    (sum_list_with (code_translated ign en) items
     + pairs (omap (code_untranslated ign en) items)
     + pairs (unaddressed en items) = pairs en)%nat.
Proof.
  induction items as [|[code lf] items IH]; intros en Hitems Hen.
  - unfold unaddressed, pairs. simpl. lia.
  - destruct Hitems as [Hh Hk]. apply Forall_cons in Hh as [Hcode Hh].
    simpl in Hcode, Hk. apply NoDup_cons in Hk as [Hcode' Hk].
    destruct (cpop_keys code en Hcode Hen) as [Hen' Hlook].
    assert (Forall (fun kv => cget kv.1 (cpop code en) = cget kv.1 en) items) as Hsame.
    { rewrite Forall_forall. intros kv Hin. rewrite Forall_forall in Hh.
      rewrite Hlook by (by apply Hh).
      assert (py_eq code kv.1 = false) as ->; [|done].
      apply py_eq_key_false; [done | by apply Hh |]. intros E. apply Hcode'. rewrite E.
      apply list_elem_of_fmap. by exists kv. }
    assert (sum_list_with (code_translated ign (cpop code en)) items
            = sum_list_with (code_translated ign en) items) as E1.
    { apply sum_list_with_ext_Forall. eapply Forall_impl; [exact Hsame|].
      intros kv Hkv. unfold code_translated. by rewrite Hkv. }
    assert (omap (code_untranslated ign (cpop code en)) items
            = omap (code_untranslated ign en) items) as E2.
    { apply omap_ext_Forall. eapply Forall_impl; [exact Hsame|].
      intros kv Hkv. unfold code_untranslated. by rewrite Hkv. }
    specialize (IH (cpop code en) (conj Hh Hk) Hen'). rewrite E1, E2 in IH.
    rewrite omap_cons'. simpl sum_list_with.
    change (unaddressed en ((code, lf) :: items)) with (unaddressed (cpop code en) items).
    unfold code_translated at 1, code_untranslated at 1. simpl.
    destruct (cget code en) as [sf|] eqn:Hget.
    + pose proof (pairs_cpop code sf en Hget) as Hpop.
      pose proof (filter_partition_length (field_translated ign code lf) sf) as Hpart.
      unfold untranslated_fields, translated_fields in *.
      destruct (0 <? length _)%nat eqn:Hlen.
      * unfold pairs at 1. simpl. fold (pairs (omap (code_untranslated ign en) items)). lia.
      * apply Nat.ltb_ge in Hlen. lia.
    + rewrite (cpop_absent _ _ Hget) in IH |- *. lia.
Qed.

Lemma pairs_with_codes (d : cdict) :
  no_code d -> pairs (with_codes d) = (pairs d + length d)%nat.
Proof.
  unfold no_code. induction 1 as [|[k v] d Hk Hd IH]; [done|].
  change (with_codes ((k, v) :: d)) with ((k, fset (py "code") k v) :: with_codes d).
  unfold pairs in *. simpl in *.
  rewrite IH, (fset_fresh _ _ _ Hk), length_app. simpl. lia.
Qed.

Lemma with_codes_length (d : cdict) : length (with_codes d) = length d.
Proof. unfold with_codes, flatten_i18n_dict. simpl. apply length_fmap. Qed.

Lemma field_mapping_no_code (d : cdict) : field_mapping d -> no_code d.
Proof.
  intros Hd. unfold no_code. rewrite Forall_forall. intros [k sf] Hin. simpl.
  apply fget_None. intros Hf. by apply (field_mapping_not_code d k sf (py "code") Hd Hin Hf).
Qed.

Lemma no_code_cpop (k : json) (d : cdict) : no_code d -> no_code (cpop k d).
Proof.
  unfold no_code. induction 1 as [|[k0 v0] d H0 Hd IH]; simpl; [done|].
  unfold cpop in *. simpl. destruct (py_eq k0 k); [done | by constructor].
Qed.

Lemma no_code_unaddressed (items en : cdict) : no_code en -> no_code (unaddressed en items).
Proof.
  revert en. induction items as [|kv items IH]; intros en Hen; [done|].
  apply IH. by apply no_code_cpop.
Qed.

Lemma no_code_untranslated (ign en items : cdict) :
  no_code en -> no_code (omap (code_untranslated ign en) items).
Proof.
  intros Hen. unfold no_code. rewrite Forall_forall. intros [k uf] Hin.
  apply list_elem_of_omap in Hin as (kv & Hkv & He). unfold code_untranslated in He.
  destruct (cget kv.1 en) as [sf|] eqn:Hget; [|done].
  destruct (0 <? _)%nat; [|done]. injection He as <- <-. simpl.
  apply cget_Some_elem in Hget as (k0 & Hk0 & _).
  unfold no_code in Hen. rewrite Forall_forall in Hen. specialize (Hen _ Hk0). simpl in Hen.
  apply fget_None. apply fget_None in Hen. intros Hf. apply Hen.
  unfold untranslated_fields, fields_of in *. apply list_elem_of_fmap in Hf as (fv & -> & Hfv).
  apply list_elem_of_filter in Hfv as [_ Hfv]. apply list_elem_of_fmap. by exists fv.
Qed.

(** The statistics that [compare_mappings] returns are off the conservation
    equation by one pair for every record of [untranslated] and of
    [missing]: the code that [flatten_i18n_dict] wrote into it. *)
Lemma conservation_up_to_written_codes (args : Args) (loc : i18nLocale) (p : path)
    (source : cdict) (total : nat) (localized ignore : cdict) (w : world) :
  field_mapping source -> py_dict localized ->
  exists stats w',
    compare_mappings args loc p source total localized ignore w = (Ret stats, w')
    /\ (translated stats + pairs (untranslated stats) + pairs (missing stats)
        = pairs source + length (untranslated stats) + length (missing stats))%nat.
Proof.
  intros Hsrc Hloc. pose proof (field_mapping_py_dict _ Hsrc) as Hpd.
  destruct (compare_mappings_run args loc p source total localized ignore w)
    as (w' & Hrun & _); [done | done | by apply field_mapping_nodup |].
  eexists _, w'. split; [exact Hrun|]. simpl.
  pose proof (conservation_before_rendering ignore localized source Hloc Hpd) as Hc.
  pose proof (field_mapping_no_code _ Hsrc) as Hnc.
  rewrite !pairs_with_codes, !with_codes_length
    by (by apply no_code_unaddressed || by apply no_code_untranslated).
  lia.
Qed.

(** ** The exit status (C3) *)

Lemma keeps_ret {A : Type} (a : A) : keeps_formatting (ret a).
Proof. done. Qed.

Lemma keeps_raise {A : Type} (e : exn) : keeps_formatting (@raise A e).
Proof. done. Qed.

Lemma keeps_lift {A : Type} (o : outcome A) : keeps_formatting (lift o).
Proof. done. Qed.

Lemma keeps_bind {A B : Type} (m : M A) (f : A -> M B) :
  keeps_formatting m -> (forall a, keeps_formatting (f a)) -> keeps_formatting (bind m f).
Proof.
  intros Hm Hf w. unfold bind, M_bind. specialize (Hm w).
  destruct (m w) as [[a|e] w1]; simpl in *; [|done]. by rewrite Hf.
Qed.

Lemma keeps_verbose_print (args : Args) (m : msg) (lvl : Z) :
  keeps_formatting (verbose_print args m lvl).
Proof. intros w. by rewrite verbose_print_emit. Qed.

Lemma keeps_if {A : Type} (b : bool) (m1 m2 : M A) :
  keeps_formatting m1 -> keeps_formatting m2 -> keeps_formatting (if b then m1 else m2).
Proof. by destruct b. Qed.

Lemma keeps_add_formatting_zero : keeps_formatting (add_formatting_errors 0).
Proof. intros w. simpl. lia. Qed.

Lemma keeps_add_validation (n : Z) : keeps_formatting (add_validation_errors n).
Proof. done. Qed.

Lemma keeps_write_file (p : path) (f : file) : keeps_formatting (write_file p f).
Proof. done. Qed.

Lemma keeps_check_file_access (p : path) : keeps_formatting (check_file_access p).
Proof. done. Qed.

Lemma keeps_os_listdir (p : path) : keeps_formatting (os_listdir p).
Proof. intros w. unfold os_listdir. by destruct (dirs w !! p). Qed.

Lemma keeps_stdout_write (m : msg) : keeps_formatting (stdout_write m).
Proof. done. Qed.

Lemma keeps_get_counters : keeps_formatting get_counters.
Proof. done. Qed.

Create HintDb keeps.

#[local] Hint Resolve keeps_ret keeps_raise keeps_lift keeps_verbose_print
  keeps_add_formatting_zero keeps_add_validation keeps_write_file
  keeps_check_file_access keeps_os_listdir keeps_stdout_write keeps_get_counters : keeps.

Ltac keeps :=
  repeat first
    [ progress auto with keeps
    | apply keeps_bind; [|intros ?]
    | apply keeps_if
    | match goal with
      | |- keeps_formatting (let '(_, _) := ?x in _) => destruct x
      | |- keeps_formatting (match ?x with _ => _ end) => destruct x
      end ].

Ltac by_keeps :=
  match goal with
  | |- formatting_errors (?m ?w).2 = formatting_errors ?w =>
      let H := fresh in assert (keeps_formatting m) as H by keeps; exact (H w)
  end.

(** A file that is not in canonical form adds 0 to the counter. *)
Lemma keeps_load_json_file (args : Args) (p : path) : keeps_formatting (load_json_file args p).
Proof.
  intros w. unfold load_json_file. destruct (fs w !! p) as [f|]; [|done].
  destruct (data f) as [|raw]; [by_keeps|].
  destruct (json_loads raw) as [x|[]]; try done.
  - destruct (occurs _ _); [by_keeps|].
    destruct (negb _); [|done]. by_keeps.
  - by_keeps.
Qed.

#[local] Hint Resolve keeps_load_json_file : keeps.

Lemma keeps_check_duplicate_codes_loop (args : Args) (p : path) (cs : list json) :
  forall codes, keeps_formatting (check_duplicate_codes_loop args p codes cs).
Proof. induction cs as [|c cs IH]; intros codes; simpl; keeps. Qed.

#[local] Hint Resolve keeps_check_duplicate_codes_loop : keeps.

Lemma keeps_load_translatable_loop (args : Args) (p : path) (warn : bool) (cs : list json) :
  forall d t fe, keeps_formatting (load_translatable_loop args p warn d t fe cs).
Proof.
  induction cs as [|c cs IH]; intros d t fe; simpl; [keeps|].
  unfold get_translatable_strings. keeps.
Qed.

#[local] Hint Resolve keeps_load_translatable_loop : keeps.

Lemma keeps_load_translatable_dict (args : Args) (p : path) (warn : bool) :
  keeps_formatting (load_translatable_dict args p warn).
Proof.
  unfold load_translatable_dict, translatable_dict_of_data, check_duplicate_codes.
  keeps.
Qed.

#[local] Hint Resolve keeps_load_translatable_dict : keeps.

Lemma keeps_compare_fields (args : Args) (ign : cdict) (code : json) (lf : fdict)
    (items : fdict) :
  forall u t, keeps_formatting (compare_fields args ign code lf u t items).
Proof. induction items as [|[f v] items IH]; intros u t; simpl; keeps. Qed.

#[local] Hint Resolve keeps_compare_fields : keeps.

Lemma keeps_compare_codes (args : Args) (loc : i18nLocale) (ign : cdict) (items : cdict) :
  forall en t u, keeps_formatting (compare_codes args loc ign en t u items).
Proof. induction items as [|[code lf] items IH]; intros en t u; simpl; keeps. Qed.

#[local] Hint Resolve keeps_compare_codes : keeps.

Lemma keeps_compare_translations (args : Args) (loc : i18nLocale) (p : path) :
  keeps_formatting (compare_translations args loc p).
Proof.
  unfold compare_translations, load_mappings, compare_mappings, check_extra_i18n_codes.
  keeps.
Qed.

#[local] Hint Resolve keeps_compare_translations : keeps.

Lemma keeps_check_translations (args : Args) (loc : i18nLocale) (files : list path) :
  keeps_formatting (check_translations args loc files).
Proof. induction files as [|f files IH]; simpl; [keeps|]. unfold print_short. keeps. Qed.

#[local] Hint Resolve keeps_check_translations : keeps.

Lemma keeps_check_locales (args : Args) (files : list path) (langs : list pstr) :
  keeps_formatting (check_locales args files langs).
Proof. induction langs as [|l langs IH]; simpl; keeps. Qed.

#[local] Hint Resolve keeps_check_locales : keeps.

Lemma keeps_check_all_locales (args : Args) (it : M (list path)) :
  keeps_formatting it -> keeps_formatting (check_all_locales args it).
Proof. intros Hit. unfold check_all_locales, get_languages. keeps. Qed.

Lemma keeps_all_files_names (args : Args) (dir : pstr) (names : list pstr) :
  keeps_formatting (all_files_names args dir names).
Proof. induction names as [|n names IH]; simpl; keeps. Qed.

#[local] Hint Resolve keeps_all_files_names : keeps.

Lemma keeps_all_files_cycles (args : Args) (cycle_dirs : list pstr) :
  keeps_formatting (all_files_cycles args cycle_dirs).
Proof. induction cycle_dirs as [|c cycle_dirs IH]; simpl; keeps. Qed.

#[local] Hint Resolve keeps_all_files_cycles : keeps.

Lemma keeps_all_files (args : Args) : keeps_formatting (all_files args).
Proof. unfold all_files. keeps. Qed.

Lemma keeps_load_packs_loop (args : Args) (ps : list json) :
  keeps_formatting (load_packs_loop args ps).
Proof. induction ps as [|x ps IH]; simpl; [keeps|]. unfold load_pack. keeps. Qed.

#[local] Hint Resolve keeps_load_packs_loop : keeps.

Lemma keeps_load_cycles (args : Args) : keeps_formatting (load_cycles args).
Proof. unfold load_cycles. keeps. Qed.

Lemma keeps_load_packs (args : Args) (cycles : json) : keeps_formatting (load_packs args cycles).
Proof. unfold load_packs. keeps. Qed.

Lemma bind_run {A B : Type} (m : M A) (f : A -> M B) (w : world) :
  bind m f w
  = match m w with
    | (Ret a, w') => f a w'
    | (Raise e, w') => (Raise e, w')
    end.
Proof. done. Qed.

Section MainProperties.

Variable abspath : path -> path.

Variable relpath : path -> option path -> path.

Variable path_parts : path -> list pstr.

Lemma keeps_check_file_list (args : Args) (files : list path) :
  keeps_formatting (check_file_list abspath relpath path_parts args files).
Proof.
  induction files as [|f files IH]; simpl; [keeps|].
  apply keeps_bind; [|by intros ?].
  repeat apply keeps_if; [keeps.. |]. apply keeps_check_all_locales. keeps.
Qed.

Lemma main_outcome (args : Args) (w : world) :
  let run := main abspath relpath path_parts args w in
  formatting_errors run.2 = 0%Z
  /\ match run.1 with
     | Ret status => status = if (validation_errors run.2 =? 0)%Z then 0%Z else 1%Z
     | Raise _ => True
     end.
Proof.
  unfold main. cbv zeta. rewrite bind_run. unfold reset_counters. cbv beta iota.
  set (w0 := World 0 0 (stdout w) (fs w) (dirs w)).
  assert (formatting_errors w0 = 0%Z) as H0 by done. clearbody w0.
  rewrite bind_run. pose proof (keeps_load_cycles args w0) as K1.
  destruct (load_cycles args w0) as [[cycles|e1] w1]; simpl in K1;
    [|split; [simpl; congruence | done]].
  rewrite bind_run. pose proof (keeps_load_packs args cycles w1) as K2.
  destruct (load_packs args cycles w1) as [[packs|e2] w2]; simpl in K2;
    [|split; [simpl; congruence | done]].
  rewrite bind_run.
  match goal with |- context [(if truthy cycles && truthy packs then ?a else ?b) w2] =>
    set (branch := if truthy cycles && truthy packs then a else b)
  end.
  assert (keeps_formatting branch) as K3.
  { unfold branch. apply keeps_if; [|keeps]. apply keeps_if.
    - apply keeps_check_all_locales, keeps_all_files.
    - apply keeps_bind; [keeps|]. intros _. apply keeps_check_file_list. }
  specialize (K3 w2). clearbody branch.
  destruct (branch w2) as [[[]|e3] w3]; simpl in K3; [|split; [simpl; congruence | done]].
  unfold bind, M_bind, get_counters, stdout_write, ret. simpl.
  assert (formatting_errors w3 = 0%Z) as -> by congruence. simpl.
  destruct (validation_errors w3 =? 0)%Z eqn:Hv; simpl; by rewrite Hv.
Qed.

(** C3, as the code has it: at the end of every run the counter of
    formatting errors is 0, whatever the files hold, because a file that
    differs from its canonical rendering adds 0 to it; the process exits
    with status 0 exactly when the run reaches [sys.exit] and no
    validation error was counted. *)
Theorem exit_status_counts_validation_only (args : Args) (w : world) :
  let run := main abspath relpath path_parts args w in
  formatting_errors run.2 = 0%Z
  /\ (exit_status abspath relpath path_parts args w = Some 0%Z
      <-> (exists status, run.1 = Ret status) /\ validation_errors run.2 = 0%Z).
Proof.
  cbv zeta. destruct (main_outcome args w) as [Hf Hs]. split; [exact Hf|].
  unfold exit_status.
  destruct (main abspath relpath path_parts args w) as [[status|e] w'].
  - simpl in *. subst status. destruct (validation_errors w' =? 0)%Z eqn:Hv.
    + apply Z.eqb_eq in Hv. split; [by eauto | done].
    + apply Z.eqb_neq in Hv. split; [done | by intros [_ ?]].
  - simpl. split; [by destruct e | by intros [[s Hs'] _]].
Qed.

End MainProperties.

(** C3 fails as stated: the run loads a cycle index whose text differs
    from the canonical rendering of its value, and still exits with
    status 0, with both counters at 0. *)
Lemma noncanonical_file_exit_zero :
  (exists raw x,
     data <$> fs run_world !! py "./cycles.json" = Some (Text raw)
     /\ json_loads raw = Ok x /\ format_json x <> raw)
  /\ exit_status same_path same_relpath one_part run_args run_world = Some 0%Z
  /\ formatting_errors (main same_path same_relpath one_part run_args run_world).2 = 0%Z
  /\ exit_status same_path same_relpath one_part run_args run_world <> Some 1%Z.
Proof.
  split.
  - exists (without_final_newline (format_json cycles_value)), cycles_value.
    split; [reflexivity|]. split; [vm_compute; reflexivity|].
    vm_compute. discriminate.
  - split; [vm_compute; reflexivity|]. split; [vm_compute; reflexivity|].
    vm_compute. discriminate.
Qed.

(** ** The canonical formatter and the decoder (C4, C5) *)

(** *** Two values that the formatter does not give back *)

(** C4 fails as stated: the text of a string with a right single quotation
    mark decodes, and the rendering of the decoded value decodes to another
    string. *)
Lemma curly_quote_not_restored :
  json_loads [34; 0x2019; 34] = Ok curly_quote
  /\ exists y, json_loads (format_json curly_quote) = Ok y /\ py_eq y curly_quote = false.
Proof.
  split; [vm_compute; reflexivity|].
  exists (JStr [39]). split; vm_compute; reflexivity.
Qed.

(** C5 against the code.  The string of two spaces and a line feed is
    rendered with one space left before the escaped line feed, because
    [replace] goes over the text once; the text decodes to the string of
    one space and a line feed, whose rendering has no space: formatting
    the decoded output gives another text.  So a file that
    [fix_formatting] has rewritten is rewritten again by the next run. *)
Theorem format_json_cascade_evaluated :
  json_loads [34; 32; 32; 92; 110; 34; 10] = Ok spaced_newline
  /\ format_json spaced_newline = [34; 32; 92; 110; 34; 10]
  /\ json_loads (format_json spaced_newline) = Ok (JStr [32; 10])
  /\ format_json (JStr [32; 10]) = [34; 92; 110; 34; 10]
  /\ (let w1 := (load_json_file fixing_args (py "x.json") cascade_world).2 in
      let w2 := (load_json_file fixing_args (py "x.json") w1).2 in
      data <$> fs w1 !! py "x.json" = Some (Text [34; 32; 92; 110; 34; 10])
      /\ data <$> fs w2 !! py "x.json" = Some (Text [34; 92; 110; 34; 10])).
Proof. repeat split; vm_compute; reflexivity. Qed.

(** *** The punctuation rules leave a text without their sequences alone *)

Lemma replace_absent (old new s : pstr) :
  occurs old s = false -> replace old new s = s.
Proof.
  unfold replace. induction s as [|c s IH]; [done|].
  cbn [occurs replace_from]. intros H. apply orb_false_iff in H as [H1 H2].
  rewrite H1. f_equal. by apply IH.
Qed.

Lemma rewrite_punctuation_untouched (s : pstr) :
  untouched s = true -> rewrite_punctuation s = s.
Proof.
  unfold untouched, rewritten_sequences. cbn [forallb].
  rewrite !andb_true_iff, !negb_true_iff.
  intros (H1 & H2 & H3 & H4 & H5 & H6 & H7 & _).
  unfold rewrite_punctuation.
  rewrite (replace_absent _ _ _ H1), (replace_absent _ _ _ H2).
  rewrite (replace_absent _ _ _ H3), (replace_absent _ _ _ H4).
  rewrite (replace_absent _ _ _ H5), (replace_absent _ _ _ H6).
  by rewrite (replace_absent _ _ _ H7).
Qed.

(** *** The shape of a rendering *)

Lemma iterencode_arr indent x0 l level :
  iterencode indent (JArr (x0 :: l)) level
  = 91 :: newline_indent indent (S level) ++ iterencode indent x0 (S level)
    ++ arr_items indent (S level) l ++ newline_indent indent level ++ [93].
Proof.
  reflexivity.
Qed.

Lemma iterencode_obj indent k0 v0 o level :
  iterencode indent (JObj ((k0, v0) :: o)) level
  = 123 :: newline_indent indent (S level) ++ encode_basestring k0 ++ [58; 32]
    ++ iterencode indent v0 (S level)
    ++ obj_items indent (S level) o ++ newline_indent indent level ++ [125].
Proof.
  cbn [iterencode]. repeat f_equal.
  induction o as [|[k v] o IH]; [done|].
  cbn [obj_items foldr fst snd]. unfold obj_items in IH. by rewrite <- IH.
Qed.

(** Settles the comparisons of a character that is known by its bounds. *)
Ltac eqbs :=
  repeat match goal with
    | |- context [N.eqb ?a ?b] =>
        first [ replace (N.eqb a b) with false by (symmetry; apply N.eqb_neq; lia)
              | replace (N.eqb a b) with true by (symmetry; apply N.eqb_eq; lia) ]
    | |- context [N.ltb ?a ?b] =>
        first [ replace (N.ltb a b) with false by (symmetry; apply N.ltb_ge; lia)
              | replace (N.ltb a b) with true by (symmetry; apply N.ltb_lt; lia) ]
    | |- context [N.leb ?a ?b] =>
        first [ replace (N.leb a b) with false by (symmetry; apply N.leb_gt; lia)
              | replace (N.leb a b) with true by (symmetry; apply N.leb_le; lia) ]
    end.

(** *** Integers *)

Lemma nzhead_not_D0 (d d' : Decimal.uint) : nzhead d <> D0 d'.
Proof. induction d; simpl; congruence. Qed.

Lemma to_uint_head (p : positive) :
  match Pos.to_uint p with Nil | D0 _ => False | _ => True end.
Proof.
  pose proof (DecimalPos.Unsigned.to_of (Pos.to_uint p)) as H.
  rewrite DecimalPos.Unsigned.of_to in H. simpl in H.
  pose proof (DecimalPos.Unsigned.to_uint_nonzero p) as Hz.
  destruct (Pos.to_uint p) as [|d|d|d|d|d|d|d|d|d|d] eqn:E; try done.
  rewrite unorm_D0 in H. unfold unorm in H.
  destruct (nzhead d) eqn:En; try congruence.
  by apply nzhead_not_D0 in En.
Qed.

Lemma ends_value_cases (rest : pstr) :
  ends_value rest = true -> rest = [] \/ exists c r, rest = c :: r /\ (c = 10 \/ c = 44).
Proof.
  destruct rest as [|c r]; [by left|]. simpl. intros H. right. exists c, r. split; [done|].
  apply orb_true_iff in H as [H|H]; apply N.eqb_eq in H; auto.
Qed.

Lemma ends_value_no_digit (rest : pstr) : ends_value rest = true -> starts_digit rest = false.
Proof. intros [->|(c & r & -> & [->| ->])]%ends_value_cases; reflexivity. Qed.

Lemma ends_value_no_float (rest : pstr) : ends_value rest = true -> float_follows rest = false.
Proof. intros [->|(c & r & -> & [->| ->])]%ends_value_cases; reflexivity. Qed.

Lemma scan_digits_uint (u : Decimal.uint) (rest : pstr) :
  starts_digit rest = false -> scan_digits (uint_chars u ++ rest) = (u, rest).
Proof.
  intros H. induction u; cbn [uint_chars app scan_digits]; try (by rewrite IHu).
  destruct rest as [|c r]; [done|]. simpl in *. by rewrite H.
Qed.

Lemma match_integer_pos (p : positive) (rest : pstr) :
  starts_digit rest = false ->
  match_integer (uint_chars (Pos.to_uint p) ++ rest) = Some (false, Pos.to_uint p, rest).
Proof.
  intros H. pose proof (to_uint_head p) as Hh.
  destruct (Pos.to_uint p) eqn:E; try done;
    cbn [uint_chars app]; unfold match_integer;
    cbn [N.eqb Pos.eqb is_digit N.leb N.compare Pos.compare Pos.compare_cont andb];
    by rewrite (scan_digits_uint _ _ H).
Qed.

Lemma match_integer_neg (p : positive) (rest : pstr) :
  starts_digit rest = false ->
  match_integer (45 :: uint_chars (Pos.to_uint p) ++ rest) = Some (true, Pos.to_uint p, rest).
Proof.
  intros H. pose proof (to_uint_head p) as Hh.
  destruct (Pos.to_uint p) eqn:E; try done;
    cbn [uint_chars app]; unfold match_integer;
    cbn [N.eqb Pos.eqb is_digit N.leb N.compare Pos.compare Pos.compare_cont andb];
    by rewrite (scan_digits_uint _ _ H).
Qed.

Lemma match_number_int (z : Z) (rest : pstr) :
  ends_value rest = true -> match_number (int_repr z ++ rest) = Ok (JInt z, rest).
Proof.
  intros H. pose proof (ends_value_no_digit _ H) as Hd.
  pose proof (ends_value_no_float _ H) as Hf.
  unfold match_number. destruct z as [|p|p]; cbn [int_repr].
  - simpl. by rewrite Hf.
  - rewrite (match_integer_pos _ _ Hd), Hf.
    change (N.of_uint (Pos.to_uint p)) with (Pos.of_uint (Pos.to_uint p)).
    by rewrite DecimalPos.Unsigned.of_to.
  - cbn [app]. rewrite (match_integer_neg _ _ Hd), Hf.
    change (N.of_uint (Pos.to_uint p)) with (Pos.of_uint (Pos.to_uint p)).
    by rewrite DecimalPos.Unsigned.of_to.
Qed.

(** *** Strings *)

Lemma scanstring_u (h1 h2 h3 h4 uni : N) (r2 : pstr) :
  hex4 h1 h2 h3 h4 = Some uni -> is_high_surrogate uni = false ->
  scanstring (92 :: 117 :: h1 :: h2 :: h3 :: h4 :: r2)
  = ('(t, rest) <- scanstring r2; Ok (uni :: t, rest)).
Proof.
  intros Hh Hs. cbn [scanstring N.eqb Pos.eqb]. rewrite Hh.
  destruct r2 as [|b [|u [|g1 [|g2 [|g3 [|g4 r3]]]]]]; try reflexivity.
  by rewrite Hs.
Qed.

Lemma scanstring_escape_char (c : N) (t : pstr) :
  scanstring (escape_char c ++ t) = ('(t', rest) <- scanstring t; Ok (c :: t', rest)).
Proof.
  destruct (N.ltb_spec c 32) as [Hlt|Hge].
  - assert (c = N.of_nat (N.to_nat c)) as -> by lia.
    assert (N.to_nat c < 32)%nat as Hn by lia.
    generalize dependent (N.to_nat c). intros n Hn.
    do 32 (destruct n as [|n];
           [first [reflexivity | by apply scanstring_u]|]).
    lia.
  - unfold escape_char.
    destruct (N.eqb_spec c 34) as [->|H34]; [reflexivity|].
    destruct (N.eqb_spec c 92) as [->|H92]; [reflexivity|].
    eqbs. cbn [app scanstring]. by eqbs.
Qed.

Lemma scanstring_encode (s rest : pstr) :
  scanstring (concat (escape_char <$> s) ++ 34 :: rest) = Ok (s, rest).
Proof.
  induction s as [|c s IH]; [reflexivity|].
  rewrite fmap_cons. cbn [concat]. rewrite <- app_assoc.
  by rewrite scanstring_escape_char, IH.
Qed.

Lemma encode_basestring_app (s rest : pstr) :
  encode_basestring s ++ rest = 34 :: concat (escape_char <$> s) ++ 34 :: rest.
Proof. unfold encode_basestring. cbn [app]. by rewrite <- app_assoc. Qed.

(** *** The decoder on a rendering *)

Lemma value_start_cases (c : N) :
  value_start c = true ->
  c = 34 \/ c = 45 \/ (48 <= c <= 57) \/ c = 91 \/ c = 123 \/ c = 110 \/ c = 116 \/ c = 102.
Proof.
  unfold value_start, is_digit. rewrite !orb_true_iff, andb_true_iff, !N.eqb_eq, !N.leb_le.
  tauto.
Qed.

Lemma value_start_not_ws (c : N) : value_start c = true -> is_ws c = false.
Proof. intros H%value_start_cases. unfold is_ws. eqbs. reflexivity. Qed.

Lemma skip_ws_indent (w rest : pstr) :
  Forall (fun c => is_ws c = true) w -> skip_ws (w ++ rest) = skip_ws rest.
Proof. induction 1 as [|c w Hc _ IH]; [done|]. cbn [app skip_ws]. by rewrite Hc. Qed.

Lemma skip_ws_start (c : N) (r : pstr) : is_ws c = false -> skip_ws (c :: r) = c :: r.
Proof. intros H. cbn [skip_ws]. by rewrite H. Qed.

Lemma dict_of_pairs_distinct (o : fdict) :
  NoDup (fields_of o) -> dict_of_pairs pstr_eqb o = o.
Proof.
  unfold dict_of_pairs.
  enough (forall acc, NoDup (fields_of (acc ++ o)) ->
            foldl (fun d kv => dict_set pstr_eqb kv.1 kv.2 d) acc o = acc ++ o) as H
    by (intros Hnd; by apply (H [])).
  induction o as [|[k v] o IH]; intros acc Hnd; [by rewrite app_nil_r|].
  cbn [foldl fst snd].
  assert (fset k v acc = acc ++ [(k, v)]) as E.
  { apply fset_fresh, fget_None.
    unfold fields_of in *. rewrite fmap_app in Hnd. apply NoDup_app in Hnd as (_ & Hd & _).
    intros Hin. apply (Hd k Hin). left. }
  unfold fset in E. rewrite E, IH; rewrite <- app_assoc; done.
Qed.

Lemma array_loop_eq scan fuel acc s :
  array_loop scan fuel acc s
  = ('(v, s1) <- scan s;
     match skip_ws s1 with
     | c :: r =>
         if c =? 93 then Ok (JArr (acc ++ [v]), r)
         else if c =? 44 then
           match fuel with
           | S f => array_loop scan f (acc ++ [v]) (skip_ws r)
           | O => Err FuelExhausted
           end
         else Err ValueError
     | [] => Err ValueError
     end).
Proof. by destruct fuel. Qed.

Lemma object_loop_eq scan fuel acc s :
  object_loop scan fuel acc s
  = match s with
    | q :: s0 =>
        if q =? 34 then
          '(key, s1) <- scanstring s0;
          match skip_ws s1 with
          | c :: s2 =>
              if c =? 58 then
                '(v, s3) <- scan (skip_ws s2);
                match skip_ws s3 with
                | c' :: r =>
                    if c' =? 125 then Ok (JObj (dict_of_pairs pstr_eqb (acc ++ [(key, v)])), r)
                    else if c' =? 44 then
                      match fuel with
                      | S f => object_loop scan f (acc ++ [(key, v)]) (skip_ws r)
                      | O => Err FuelExhausted
                      end
                    else Err ValueError
                | [] => Err ValueError
                end
              else Err ValueError
          | [] => Err ValueError
          end
        else Err ValueError
    | [] => Err ValueError
    end.
Proof. by destruct fuel. Qed.

Section Decoder.

Variable indent : nat -> pstr.

Hypothesis indent_ws : forall level, Forall (fun c => is_ws c = true) (indent level).

Lemma iterencode_head (y : json) (level : nat) :
  exists c t, iterencode indent y level = c :: t /\ value_start c = true.
Proof.
  destruct y as [|[|]|[|p|p]|s|[|x0 l]|[|[k0 v0] o]];
    try (eexists _, _; split; reflexivity).
  pose proof (to_uint_head p) as H. cbn [iterencode int_repr].
  destruct (Pos.to_uint p); try done; eexists _, _; split; reflexivity.
Qed.

Lemma skip_ws_newline (level : nat) (y : json) (level' : nat) (rest : pstr) :
  skip_ws (newline_indent indent level ++ iterencode indent y level' ++ rest)
  = iterencode indent y level' ++ rest.
Proof.
  unfold newline_indent. cbn [app skip_ws]. change (is_ws LF) with true. cbv iota.
  rewrite skip_ws_indent by apply indent_ws.
  destruct (iterencode_head y level') as (c & t & -> & Hc).
  apply skip_ws_start. by apply value_start_not_ws.
Qed.

Lemma skip_ws_newline_close (level : nat) (c : N) (rest : pstr) :
  is_ws c = false ->
  skip_ws (newline_indent indent level ++ c :: rest) = c :: rest.
Proof.
  intros Hc. unfold newline_indent. cbn [app skip_ws]. change (is_ws LF) with true. cbv iota.
  rewrite skip_ws_indent by apply indent_ws. by apply skip_ws_start.
Qed.

(** The loop over the items of a list, for a decoder [scan] that reads
    every item back. *)
Lemma array_loop_items (scan : pstr -> res (json * pstr)) (level level' : nat)
    (l : list json) :
  forall (x0 : json) (acc : list json) (fuel : nat) (rest : pstr),
  Forall (fun y => forall r, ends_value r = true ->
                     scan (iterencode indent y level ++ r) = Ok (y, r)) (x0 :: l) ->
  (length l <= fuel)%nat ->
  array_loop scan fuel acc
    (iterencode indent x0 level ++ arr_items indent level l
     ++ newline_indent indent level' ++ 93 :: rest)
  = Ok (JArr (acc ++ x0 :: l), rest).
Proof.
  induction l as [|y l IH]; intros x0 acc fuel rest Hs Hf;
    apply Forall_cons in Hs as [Hx Hs]; rewrite array_loop_eq.
  - cbn [arr_items foldr app]. rewrite Hx by reflexivity.
    cbn [bind res_bind]. by rewrite skip_ws_newline_close.
  - cbn [arr_items foldr]. rewrite Hx by reflexivity.
    cbn [bind res_bind]. fold (arr_items indent level l).
    rewrite <- app_comm_cons, <- !app_assoc.
    rewrite (skip_ws_start 44) by reflexivity.
    change (44 =? 93) with false. change (44 =? 44) with true. cbv iota.
    destruct fuel as [|fuel]; [simpl in Hf; lia|].
    rewrite skip_ws_newline.
    rewrite (IH y (acc ++ [x0]) fuel rest Hs) by (simpl in Hf; lia).
    by rewrite <- app_assoc.
Qed.

Lemma object_loop_pair (scan : pstr -> res (json * pstr)) (fuel : nat) (acc : fdict)
    (k : pstr) (v : json) (level : nat) (rest : pstr) :
  (forall r, ends_value r = true -> scan (iterencode indent v level ++ r) = Ok (v, r)) ->
  ends_value rest = true ->
  object_loop scan fuel acc
    (encode_basestring k ++ [58; 32] ++ iterencode indent v level ++ rest)
  = match skip_ws rest with
    | c' :: r =>
        if c' =? 125 then Ok (JObj (dict_of_pairs pstr_eqb (acc ++ [(k, v)])), r)
        else if c' =? 44 then
          match fuel with
          | S f => object_loop scan f (acc ++ [(k, v)]) (skip_ws r)
          | O => Err FuelExhausted
          end
        else Err ValueError
    | [] => Err ValueError
    end.
Proof.
  intros Hv Hr. rewrite object_loop_eq, encode_basestring_app.
  change (34 =? 34) with true. cbv iota.
  rewrite scanstring_encode. cbn [bind res_bind app].
  rewrite (skip_ws_start 58) by reflexivity.
  change (58 =? 58) with true. cbv iota.
  destruct (iterencode_head v level) as (c & t & Ec & Hc).
  assert (skip_ws (32 :: iterencode indent v level ++ rest)
          = iterencode indent v level ++ rest) as ->.
  { cbn [skip_ws]. change (is_ws 32) with true. cbv iota. rewrite Ec.
    cbn [app]. apply skip_ws_start. by apply value_start_not_ws. }
  by rewrite (Hv rest Hr).
Qed.

Lemma object_loop_items (scan : pstr -> res (json * pstr)) (level level' : nat)
    (o : fdict) :
  forall (k0 : pstr) (v0 : json) (acc : fdict) (fuel : nat) (rest : pstr),
  Forall (fun kv => forall r, ends_value r = true ->
                      scan (iterencode indent kv.2 level ++ r) = Ok (kv.2, r))
         ((k0, v0) :: o) ->
  (length o <= fuel)%nat ->
  object_loop scan fuel acc
    (encode_basestring k0 ++ [58; 32] ++ iterencode indent v0 level
     ++ obj_items indent level o ++ newline_indent indent level' ++ 125 :: rest)
  = Ok (JObj (dict_of_pairs pstr_eqb (acc ++ (k0, v0) :: o)), rest).
Proof.
  induction o as [|[k v] o IH]; intros k0 v0 acc fuel rest Hs Hf;
    apply Forall_cons in Hs as [Hx Hs]; cbn [fst snd] in Hx.
  - cbn [obj_items foldr]. rewrite app_nil_l.
    rewrite (object_loop_pair scan fuel acc k0 v0 level _ Hx) by reflexivity.
    by rewrite skip_ws_newline_close.
  - cbn [obj_items foldr fst snd]. fold (obj_items indent level o).
    change ((44 :: ?a) ++ ?b) with (44 :: (a ++ b)).
    rewrite (object_loop_pair scan fuel acc k0 v0 level _ Hx) by reflexivity.
    rewrite (skip_ws_start 44) by reflexivity.
    change (44 =? 125) with false. change (44 =? 44) with true. cbv iota.
    destruct fuel as [|fuel]; [simpl in Hf; lia|].
    rewrite <- !app_assoc.
    rewrite encode_basestring_app.
    rewrite (skip_ws_newline_close level 34) by reflexivity.
    rewrite <- encode_basestring_app.
    pose proof (IH k v (acc ++ [(k0, v0)]) fuel rest Hs) as IH'.
    rewrite IH' by (simpl in Hf; lia).
    by rewrite <- app_assoc.
Qed.

End Decoder.

Lemma weight_pos (y : json) : (1 <= weight y)%nat.
Proof. destruct y; simpl; lia. Qed.

Lemma weight_items (l : list json) :
  (length l <= foldr (fun y n => weight y + n)%nat 0%nat l)%nat
  /\ Forall (fun y => weight y <= foldr (fun y n => weight y + n)%nat 0%nat l)%nat l.
Proof.
  induction l as [|y l [IH1 IH2]]; [split; [done | constructor]|].
  cbn [foldr length]. pose proof (weight_pos y). split; [lia|].
  constructor; [lia|]. eapply Forall_impl; [exact IH2|]. simpl. intros; lia.
Qed.

Lemma weight_pairs (o : fdict) :
  (length o <= foldr (fun kv n => weight kv.2 + n)%nat 0%nat o)%nat
  /\ Forall (fun kv => weight kv.2 <= foldr (fun kv n => weight kv.2 + n)%nat 0%nat o)%nat o.
Proof.
  induction o as [|kv o [IH1 IH2]]; [split; [done | constructor]|].
  cbn [foldr length]. pose proof (weight_pos kv.2). split; [lia|].
  constructor; [lia|]. eapply Forall_impl; [exact IH2|]. simpl. intros; lia.
Qed.

Lemma scan_once_number (f : nat) (c : N) (t : pstr) :
  is_digit c || (c =? 45) = true -> scan_once (S f) (c :: t) = match_number (c :: t).
Proof.
  intros H. assert (48 <= c <= 57 \/ c = 45) as Hc.
  { apply orb_true_iff in H as [H|H]; [|apply N.eqb_eq in H; lia].
    unfold is_digit in H. apply andb_true_iff in H as [H1 H2].
    apply N.leb_le in H1, H2. lia. }
  cbn [scan_once]. eqbs.
  change (py "null") with [110; 117; 108; 108].
  change (py "true") with [116; 114; 117; 101].
  change (py "false") with [102; 97; 108; 115; 101].
  cbn [startswith]. eqbs. reflexivity.
Qed.

Lemma int_repr_head (z : Z) :
  exists c t, int_repr z = c :: t /\ is_digit c || (c =? 45) = true.
Proof.
  destruct z as [|p|p]; cbn [int_repr]; try (eexists _, _; split; reflexivity).
  pose proof (to_uint_head p) as H.
  destruct (Pos.to_uint p); try done; eexists _, _; split; reflexivity.
Qed.

Lemma scan_once_open_arr (f : nat) (r : pstr) :
  scan_once (S f) (91 :: r)
  = match skip_ws r with
    | c' :: r' =>
        if c' =? 93 then Ok (JArr [], r') else array_loop (scan_once f) f [] (skip_ws r)
    | [] => Err ValueError
    end.
Proof. reflexivity. Qed.

Lemma scan_once_open_obj (f : nat) (r : pstr) :
  scan_once (S f) (123 :: r)
  = match skip_ws r with
    | c' :: r' =>
        if c' =? 125 then Ok (JObj [], r') else object_loop (scan_once f) f [] (skip_ws r)
    | [] => Err ValueError
    end.
Proof. reflexivity. Qed.

(** The decoder reads a rendering back, whatever the white space of the
    indentation, when the budget covers the number of values. *)
Lemma scan_once_iterencode (indent : nat -> pstr) (y : json) :
  (forall level, Forall (fun c => is_ws c = true) (indent level)) ->
  wf_json y = true ->
  forall (fuel level : nat) (rest : pstr),
  (weight y <= fuel)%nat -> ends_value rest = true ->
  scan_once fuel (iterencode indent y level ++ rest) = Ok (y, rest).
Proof.
  intros Hws.
  induction y as [|b|z|s|l IH|o IH] using json_rect';
    intros Hwf fuel level rest Hf Hr;
    (destruct fuel as [|f]; [simpl in Hf; lia|]).
  - reflexivity.
  - by destruct b.
  - cbn [iterencode]. destruct (int_repr_head z) as (c & t & Ec & Hc).
    pose proof (match_number_int z rest Hr) as Hm.
    rewrite Ec in *. cbn [app] in *. by rewrite scan_once_number.
  - cbn [iterencode]. rewrite encode_basestring_app. cbn [scan_once].
    change (34 =? 34) with true. cbv iota. by rewrite scanstring_encode.
  - destruct l as [|x0 l]; [reflexivity|].
    rewrite iterencode_arr. rewrite <- app_comm_cons, <- !app_assoc.
    change ([93] ++ rest) with (93 :: rest).
    rewrite scan_once_open_arr, skip_ws_newline by done.
    remember (array_loop _ _ _ _) as X eqn:EX.
    destruct (iterencode_head indent x0 (S level)) as (c & t & Ec & Hc).
    pose proof (value_start_cases c Hc) as Hc'.
    rewrite Ec. cbn [app]. eqbs. subst X. clear c t Ec Hc Hc'.
    simpl in Hf. destruct (weight_items (x0 :: l)) as [W1 W2].
    cbn [wf_json] in Hwf. rewrite forallb_forall in Hwf.
    rewrite (array_loop_items indent Hws (scan_once f) (S level) level l x0 [] f rest).
    + reflexivity.
    + rewrite Forall_forall in *. intros y Hy r Hr'.
      apply IH; [done | by apply Hwf, list_elem_of_In | | done].
      specialize (W2 y Hy). cbn [foldr] in *. lia.
    + cbn [foldr length] in *. pose proof (weight_pos x0). lia.
  - destruct o as [|[k0 v0] o]; [reflexivity|].
    rewrite iterencode_obj. rewrite <- app_comm_cons, <- !app_assoc.
    change ([125] ++ rest) with (125 :: rest).
    rewrite scan_once_open_obj.
    rewrite encode_basestring_app, (skip_ws_newline_close indent Hws (S level) 34) by done.
    change (34 =? 125) with false. cbv iota. rewrite <- encode_basestring_app.
    simpl in Hf. destruct (weight_pairs ((k0, v0) :: o)) as [W1 W2].
    cbn [wf_json] in Hwf. apply andb_true_iff in Hwf as [Hnd Hwf].
    apply bool_decide_eq_true in Hnd. rewrite forallb_forall in Hwf.
    rewrite (object_loop_items indent Hws (scan_once f) (S level) level o k0 v0 [] f rest).
    + cbn [app]. by rewrite dict_of_pairs_distinct.
    + rewrite Forall_forall in *. intros kv Hkv r Hr'.
      apply IH; [done | by apply Hwf, list_elem_of_In | | done].
      specialize (W2 kv Hkv). cbn [foldr fst snd] in *. lia.
    + cbn [foldr length fst snd] in *. pose proof (weight_pos v0). lia.
Qed.

(** *** Leading spaces to tabs *)

Lemma re_sub_skip (i : nat) (bol : bool) (s : pstr) :
  forall k, re_sub_indent i bol k s = re_sub_indent i bol 0 (drop k s).
Proof.
  induction s as [|c s IH]; intros [|k]; try reflexivity.
  cbn [re_sub_indent drop]. apply IH.
Qed.

Lemma re_sub_plain (i : nat) (body rest : pstr) :
  Forall (fun c => c <> LF) body ->
  re_sub_indent i false 0 (body ++ rest) = body ++ re_sub_indent i false 0 rest.
Proof.
  induction 1 as [|c body Hc _ IH]; [done|].
  cbn [app re_sub_indent andb]. apply N.eqb_neq in Hc. by rewrite Hc, IH.
Qed.

Lemma re_sub_no_match (i : nat) (s : pstr) :
  startswith (repeat SP (4 * i)) s = false ->
  re_sub_indent i true 0 s = re_sub_indent i false 0 s.
Proof.
  intros H. destruct s as [|c s]; [done|]. cbn [re_sub_indent andb]. by rewrite H.
Qed.

Lemma startswith_app (p s : pstr) : startswith p (p ++ s) = true.
Proof. induction p as [|c p IH]; [done|]. cbn [app startswith]. by rewrite N.eqb_refl. Qed.

Lemma startswith_spaces (n b : nat) (rest : pstr) :
  (b < n)%nat -> no_sp_head rest ->
  startswith (repeat SP n) (repeat SP b ++ rest) = false.
Proof.
  revert n. induction b as [|b IH]; intros [|n] Hn Hr; try lia.
  - destruct rest as [|c r]; [done|]. cbn [repeat app startswith].
    simpl in Hr. apply not_eq_sym, N.eqb_neq in Hr. by rewrite Hr.
  - cbn [repeat app startswith]. rewrite IH by (done || lia). apply andb_false_r.
Qed.

Lemma repeat_plain (c : N) (n : nat) : c <> LF -> Forall (fun c => c <> LF) (repeat c n).
Proof. intros H. induction n; constructor; done. Qed.

Lemma render_indent_plain (ts : nat * nat) : Forall (fun c => c <> LF) (render_indent ts).
Proof. apply Forall_app; split; by apply repeat_plain. Qed.

(** One substitution at the beginning of a line. *)
Lemma re_sub_indentation (i : nat) (ts : nat * nat) (rest : pstr) :
  (1 <= i)%nat -> no_sp_head rest ->
  re_sub_indent i true 0 (render_indent ts ++ rest)
  = render_indent (tab_step i ts) ++ re_sub_indent i false 0 rest.
Proof.
  intros Hi Hr. destruct ts as [a b]. unfold tab_step. cbn [fst snd].
  destruct a as [|a].
  - change (0 =? 0)%nat with true. cbn [andb].
    destruct (Nat.leb_spec (4 * i) b) as [Hb|Hb].
    + unfold render_indent. cbn [fst snd repeat app].
      assert (b = (4 * i) + (b - 4 * i))%nat as Eb by lia.
      rewrite Eb at 1. rewrite repeat_app, <- app_assoc.
      destruct (4 * i)%nat as [|m] eqn:Em; [lia|].
      cbn [repeat app re_sub_indent andb]. rewrite !Em.
      change (SP :: repeat SP m ++ ?r) with (repeat SP (S m) ++ r) at 1.
      rewrite startswith_app. cbn [pred].
      rewrite re_sub_skip, drop_app_length' by (by rewrite repeat_length).
      rewrite re_sub_plain by (by apply repeat_plain).
      by rewrite <- app_assoc.
    + rewrite re_sub_no_match by (by apply startswith_spaces).
      apply re_sub_plain, render_indent_plain.
  - cbn [andb]. rewrite re_sub_no_match.
    + apply re_sub_plain, render_indent_plain.
    + destruct (4 * i)%nat eqn:Em; [lia|]. reflexivity.
Qed.

Lemma escape_char_plain (c : N) : Forall (fun c => c <> LF) (escape_char c).
Proof.
  destruct (N.ltb_spec c 32) as [Hlt|Hge].
  - assert (c = N.of_nat (N.to_nat c)) as -> by lia.
    assert (N.to_nat c < 32)%nat as Hn by lia.
    generalize dependent (N.to_nat c). intros n Hn.
    do 32 (destruct n as [|n]; [by repeat constructor|]).
    lia.
  - unfold escape_char.
    destruct (N.eqb_spec c 34) as [->|H34]; [by repeat constructor|].
    destruct (N.eqb_spec c 92) as [->|H92]; [by repeat constructor|].
    eqbs. repeat constructor. unfold LF. lia.
Qed.

Lemma encode_basestring_plain (s : pstr) : Forall (fun c => c <> LF) (encode_basestring s).
Proof.
  unfold encode_basestring. constructor; [done|]. apply Forall_app. split; [|by repeat constructor].
  induction s as [|c s IH]; [constructor|].
  rewrite fmap_cons. cbn [concat]. apply Forall_app. split; [apply escape_char_plain | exact IH].
Qed.

Lemma int_repr_plain (z : Z) : Forall (fun c => c <> LF) (int_repr z).
Proof.
  assert (forall u, Forall (fun c => c <> LF) (uint_chars u)) as H
    by (induction u; by constructor).
  destruct z; cbn [int_repr]; [by repeat constructor | apply H | constructor; [done | apply H]].
Qed.

Lemma no_sp_head_value (indent : nat -> pstr) (y : json) (level : nat) (rest : pstr) :
  no_sp_head (iterencode indent y level ++ rest).
Proof.
  destruct (iterencode_head indent y level) as (c & t & -> & Hc).
  apply value_start_cases in Hc. cbn [app no_sp_head]. unfold SP. lia.
Qed.

Section Substitution.

Variable i : nat.

Variable ind : nat -> nat * nat.

Hypothesis i_pos : (1 <= i)%nat.

Lemma re_sub_newline (level : nat) (rest : pstr) :
no_sp_head rest ->
re_sub_indent i false 0 (newline_indent (fun n => render_indent (ind n)) level ++ rest)
= newline_indent (fun n => render_indent (tab_step i (ind n))) level
  ++ re_sub_indent i false 0 rest.
Proof.
intros Hr. unfold newline_indent. cbn [app re_sub_indent andb].
change (LF =? LF) with true. by rewrite re_sub_indentation.
Qed.

(** One substitution on a rendering changes the indentation of every line
  and nothing else. *)
Lemma re_sub_iterencode (y : json) :
forall (level : nat) (rest : pstr),
re_sub_indent i false 0 (iterencode (fun n => render_indent (ind n)) y level ++ rest)
= iterencode (fun n => render_indent (tab_step i (ind n))) y level
  ++ re_sub_indent i false 0 rest.
Proof.
induction y as [|b|z|s|l IH|o IH] using json_rect'; intros level rest.
- apply re_sub_plain. by repeat constructor.
- apply re_sub_plain. destruct b; by repeat constructor.
- apply re_sub_plain, int_repr_plain.
- apply re_sub_plain, encode_basestring_plain.
- destruct l as [|x0 l]; [apply re_sub_plain; by repeat constructor|].
  apply Forall_cons in IH as [IHx IH].
  rewrite !iterencode_arr. rewrite <- !app_comm_cons, <- !app_assoc.
  cbn [re_sub_indent andb]. change (91 =? LF) with false. f_equal.
  rewrite re_sub_newline by apply no_sp_head_value. f_equal.
  rewrite IHx. f_equal.
  assert (forall R, no_sp_head R ->
            re_sub_indent i false 0
              (arr_items (fun n => render_indent (ind n)) (S level) l
               ++ newline_indent (fun n => render_indent (ind n)) level ++ R)
            = arr_items (fun n => render_indent (tab_step i (ind n))) (S level) l
              ++ newline_indent (fun n => render_indent (tab_step i (ind n))) level
              ++ re_sub_indent i false 0 R) as Hitems.
  { intros R HR. induction IH as [|y l Hy _ IHl].
    - cbn [arr_items foldr app]. by apply re_sub_newline.
    - cbn [arr_items foldr]. rewrite <- !app_comm_cons, <- !app_assoc.
      cbn [re_sub_indent andb]. change (44 =? LF) with false. f_equal.
      rewrite re_sub_newline by apply no_sp_head_value. f_equal.
      rewrite Hy. f_equal. apply IHl. }
  by rewrite Hitems.
- destruct o as [|[k0 v0] o]; [apply re_sub_plain; by repeat constructor|].
  apply Forall_cons in IH as [IHx IH]. cbn [snd] in IHx.
  rewrite !iterencode_obj. rewrite <- !app_comm_cons, <- !app_assoc.
  cbn [re_sub_indent andb]. change (123 =? LF) with false. f_equal.
  rewrite re_sub_newline by (by rewrite encode_basestring_app).
  f_equal. rewrite re_sub_plain by apply encode_basestring_plain. f_equal.
  cbn [app]. rewrite <- ?app_assoc. cbn [re_sub_indent].
  change (58 =? LF) with false. change (32 =? LF) with false. cbn [andb]. do 2 f_equal.
  rewrite IHx. f_equal.
  assert (forall R, no_sp_head R ->
            re_sub_indent i false 0
              (obj_items (fun n => render_indent (ind n)) (S level) o
               ++ newline_indent (fun n => render_indent (ind n)) level ++ R)
            = obj_items (fun n => render_indent (tab_step i (ind n))) (S level) o
              ++ newline_indent (fun n => render_indent (tab_step i (ind n))) level
              ++ re_sub_indent i false 0 R) as Hitems.
  { intros R HR. induction IH as [|[k v] o Hy _ IHo].
    - cbn [obj_items foldr app]. by apply re_sub_newline.
    - cbn [obj_items foldr fst snd] in *. rewrite <- !app_comm_cons, <- !app_assoc.
      cbn [re_sub_indent andb]. change (44 =? LF) with false. f_equal.
      rewrite re_sub_newline by (by rewrite encode_basestring_app).
      f_equal. rewrite re_sub_plain by apply encode_basestring_plain. f_equal.
      cbn [app]. rewrite <- ?app_assoc. cbn [re_sub_indent].
      change (58 =? LF) with false. change (32 =? LF) with false. cbn [andb].
      do 2 f_equal.
      rewrite Hy. f_equal. apply IHo. }
  by rewrite Hitems.
Qed.

End Substitution.

Lemma re_sub_rendering (i : nat) (ind : nat -> nat * nat) (y : json) :
  (1 <= i)%nat ->
  re_sub_indent i true 0 (iterencode (fun n => render_indent (ind n)) y 0)
  = iterencode (fun n => render_indent (tab_step i (ind n))) y 0.
Proof.
  intros Hi. rewrite re_sub_no_match.
  - rewrite <- (app_nil_r (iterencode (fun n => render_indent (ind n)) y 0)).
    rewrite re_sub_iterencode by done. apply app_nil_r.
  - destruct (iterencode_head (fun n => render_indent (ind n)) y 0) as (c & t & -> & Hc).
    apply value_start_cases in Hc.
    destruct (4 * i)%nat eqn:Em; [lia|]. cbn [repeat startswith]. unfold SP. by eqbs.
Qed.

(** The eight substitutions turn the four spaces per level of [json.dumps]
    into the indentation [indent_tabs]. *)
Lemma tabify_iterencode (y : json) :
  tabify (iterencode indent4 y 0) = iterencode indent_tabs y 0.
Proof.
  unfold tabify. cbn [foldl].
  change indent4 with (fun n => render_indent ((fun n => (0%nat, (4 * n)%nat)) n)).
  rewrite !re_sub_rendering by lia. reflexivity.
Qed.

(** Up to eight levels the indentation is one tab per level; deeper lines
    keep four spaces for every level after the eighth. *)
Lemma indent_tabs_spec (level : nat) :
  indent_tabs level
  = if (level <=? 8)%nat then repeat TAB level
    else repeat TAB 8 ++ repeat SP (4 * (level - 8)).
Proof.
  destruct (Nat.leb_spec level 8) as [H|H].
  - do 9 (destruct level as [|level]; [reflexivity|]). lia.
  - unfold indent_tabs. cbn [foldl]. unfold tab_step at 8. cbn [fst snd].
    change (0 =? 0)%nat with true.
    destruct (Nat.leb_spec (4 * 8) (4 * level)) as [_|]; [|lia]. cbn [andb].
    unfold tab_step. cbn [fst snd Nat.eqb andb]. unfold render_indent. cbn [fst snd].
    do 2 f_equal. lia.
Qed.

Lemma indent_tabs_ws (level : nat) : Forall (fun c => is_ws c = true) (indent_tabs level).
Proof.
  rewrite indent_tabs_spec.
  assert (forall c n, is_ws c = true -> Forall (fun c => is_ws c = true) (repeat c n)) as H
    by (intros c n Hc; induction n; by constructor).
  destruct (level <=? 8)%nat; [by apply H|]. apply Forall_app. split; by apply H.
Qed.

Lemma weight_le_length (indent : nat -> pstr) (y : json) :
  forall level, (weight y <= length (iterencode indent y level))%nat.
Proof.
  induction y as [|b|z|s|l IH|o IH] using json_rect'; intros level.
  - simpl. lia.
  - destruct b; simpl; lia.
  - destruct (int_repr_head z) as (c & t & E & _). cbn [iterencode weight].
    rewrite E. simpl. lia.
  - simpl. lia.
  - destruct l as [|x0 l]; [simpl; lia|].
    apply Forall_cons in IH as [IHx IH].
    rewrite iterencode_arr. cbn [weight foldr length]. rewrite !length_app.
    specialize (IHx (S level)).
    assert (foldr (fun y n => weight y + n)%nat 0%nat l
            <= length (arr_items indent (S level) l))%nat as Hl.
    { induction IH as [|y l Hy _ IHl]; [done|].
      cbn [arr_items foldr length]. rewrite !length_app.
      fold (arr_items indent (S level) l). specialize (Hy (S level)). lia. }
    lia.
  - destruct o as [|[k0 v0] o]; [simpl; lia|].
    apply Forall_cons in IH as [IHx IH]. cbn [snd] in IHx.
    rewrite iterencode_obj. cbn [weight foldr length snd]. rewrite !length_app.
    specialize (IHx (S level)).
    assert (foldr (fun kv n => weight kv.2 + n)%nat 0%nat o
            <= length (obj_items indent (S level) o))%nat as Hl.
    { induction IH as [|[k v] o Hy _ IHo]; [done|].
      cbn [obj_items foldr length fst snd] in *. rewrite !length_app.
      fold (obj_items indent (S level) o). specialize (Hy (S level)). lia. }
    lia.
Qed.

(** The text that [json.loads] is given: a rendering and a final line
    feed. *)
Lemma json_loads_rendering (indent : nat -> pstr) (y : json) :
  (forall level, Forall (fun c => is_ws c = true) (indent level)) ->
  wf_json y = true ->
  json_loads (iterencode indent y 0 ++ [LF]) = Ok y.
Proof.
  intros Hws Hwf. unfold json_loads.
  pose proof (weight_le_length indent y 0) as Hw.
  pose proof (scan_once_iterencode indent y Hws Hwf
                (S (length (iterencode indent y 0 ++ [LF]))) 0 [LF]) as Hs.
  destruct (iterencode_head indent y 0) as (c & t & Ec & Hc).
  rewrite Ec in *. cbn [app] in *.
  pose proof (value_start_cases c Hc) as Hc'.
  cbn [startswith]. replace (65279 =? c) with false by (symmetry; apply N.eqb_neq; lia).
  cbn [andb]. rewrite (skip_ws_start c) by (by apply value_start_not_ws).
  rewrite Hs; [reflexivity | | reflexivity].
  cbn [length] in *. rewrite length_app. lia.
Qed.

(** *** Sorted keys *)

Lemma pstr_ltb_trans (a : pstr) :
  forall b c, pstr_ltb a b = true -> pstr_ltb b c = true -> pstr_ltb a c = true.
Proof.
  induction a as [|x a IH]; intros [|y b] [|z c]; cbn [pstr_ltb]; try done.
  destruct (N.ltb_spec x y), (N.ltb_spec y x), (N.ltb_spec y z), (N.ltb_spec z y),
    (N.ltb_spec x z), (N.ltb_spec z x); try done; try lia.
  apply IH.
Qed.

Lemma pstr_ltb_total (a : pstr) :
  forall b, a <> b -> pstr_ltb a b = false -> pstr_ltb b a = true.
Proof.
  induction a as [|x a IH]; intros [|y b]; cbn [pstr_ltb]; try done.
  intros Hne. destruct (N.ltb_spec x y), (N.ltb_spec y x); try done; try lia.
  apply IH. intros ->. apply Hne. f_equal. lia.
Qed.

Lemma insert_item_perm (kv : pstr * json) (l : fdict) : insert_item kv l ≡ₚ kv :: l.
Proof.
  induction l as [|kv' l IH]; [done|]. cbn [insert_item].
  destruct (pstr_ltb kv.1 kv'.1); [done|]. rewrite IH. apply Permutation_swap.
Qed.

Lemma sorted_items_perm (l : fdict) : sorted_items l ≡ₚ l.
Proof.
  unfold sorted_items. induction l as [|kv l IH]; [done|].
  cbn [foldr]. by rewrite insert_item_perm, IH.
Qed.

Lemma insert_item_sorted (kv : pstr * json) (l : fdict) :
  sorted_keys l -> kv.1 ∉ fields_of l -> sorted_keys (insert_item kv l).
Proof.
  induction l as [|kv' l IH]; intros Hs Hk; [by repeat constructor|].
  cbn [insert_item]. destruct Hs as [Hall Hs].
  unfold fields_of in Hk. rewrite fmap_cons in Hk.
  apply not_elem_of_cons in Hk as [Hne Hk].
  destruct (pstr_ltb kv.1 kv'.1) eqn:E.
  - split; [|by split]. constructor; [exact E|].
    eapply Forall_impl; [exact Hall|]. intros kv2 H2. by eapply pstr_ltb_trans.
  - split; [|by apply IH]. rewrite insert_item_perm. constructor; [|exact Hall].
    unfold key_lt. by apply pstr_ltb_total.
Qed.

Lemma sorted_items_sorted (l : fdict) : NoDup (fields_of l) -> sorted_keys (sorted_items l).
Proof.
  unfold sorted_items. induction l as [|kv l IH]; [done|].
  unfold fields_of. rewrite fmap_cons. intros [Hk Hnd]%NoDup_cons. cbn [foldr].
  apply insert_item_sorted; [by apply IH|].
  fold (sorted_items l). unfold fields_of. by rewrite sorted_items_perm.
Qed.

Lemma sorted_items_id (l : fdict) : sorted_keys l -> sorted_items l = l.
Proof.
  unfold sorted_items. induction l as [|kv l IH]; [done|].
  intros [Hall Hs]. cbn [foldr]. rewrite (IH Hs).
  destruct Hall as [|kv' l' Hlt _]; [done|]. cbn [insert_item]. by rewrite Hlt.
Qed.

(** *** Well-formed values under [sort_keys] *)

Lemma wf_json_arr (l : list json) :
  wf_json (JArr l) = true <-> Forall (fun y => wf_json y = true) l.
Proof.
  cbn [wf_json]. rewrite forallb_forall, Forall_forall.
  split; intros H y Hy; apply H; by apply list_elem_of_In.
Qed.

Lemma wf_json_obj (o : fdict) :
  wf_json (JObj o) = true
  <-> NoDup (fields_of o) /\ Forall (fun kv => wf_json kv.2 = true) o.
Proof.
  cbn [wf_json]. rewrite andb_true_iff, bool_decide_eq_true, forallb_forall, Forall_forall.
  split; intros [Hnd H]; (split; [exact Hnd|]); intros y Hy; apply H; by apply list_elem_of_In.
Qed.

Lemma sort_keys_obj (o : fdict) :
  sort_keys (JObj o) = JObj (sorted_items ((fun kv => (kv.1, sort_keys kv.2)) <$> o)).
Proof. reflexivity. Qed.

Lemma fields_of_sorted (o : fdict) :
  fields_of (sorted_items ((fun kv => (kv.1, sort_keys kv.2)) <$> o)) ≡ₚ fields_of o.
Proof.
  unfold fields_of. rewrite sorted_items_perm, <- list_fmap_compose. reflexivity.
Qed.

Lemma sort_keys_wf (x : json) : wf_json x = true -> wf_json (sort_keys x) = true.
Proof.
  induction x as [|b|z|s|l IH|o IH] using json_rect'; try done.
  - rewrite wf_json_arr. intros Hwf. change (sort_keys (JArr l)) with (JArr (sort_keys <$> l)).
    rewrite wf_json_arr, Forall_fmap. rewrite Forall_forall in *.
    intros y Hy. apply IH; [done | by apply Hwf].
  - rewrite wf_json_obj, sort_keys_obj, wf_json_obj. intros [Hnd Hwf]. split.
    + by rewrite fields_of_sorted.
    + rewrite Forall_forall in *. intros kv Hkv.
      rewrite sorted_items_perm in Hkv.
      apply list_elem_of_fmap in Hkv as (kv0 & -> & Hkv0).
      cbn [snd]. apply IH; [done | by apply Hwf].
Qed.

(** Sorting the keys gives an equal value, in the sense of [==]. *)
Lemma sort_keys_py_eq (x : json) : wf_json x = true -> py_eq (sort_keys x) x = true.
Proof.
  induction x as [|b|z|s|l IH|o IH] using json_rect'.
  - done.
  - by destruct b.
  - intros _. apply Z.eqb_refl.
  - intros _. apply pstr_eqb_refl.
  - rewrite wf_json_arr. intros Hwf.
    change (sort_keys (JArr l)) with (JArr (sort_keys <$> l)).
    induction IH as [|y l Hy _ IHl]; [done|].
    apply Forall_cons in Hwf as [Hw Hwf].
    rewrite fmap_cons, py_eq_arr. rewrite (Hy Hw). by apply IHl.
  - rewrite wf_json_obj, sort_keys_obj. intros [Hnd Hwf].
    rewrite py_eq_obj. apply andb_true_iff. split.
    + apply Nat.eqb_eq. by rewrite sorted_items_perm, length_fmap.
    + apply forallb_forall. intros kv Hkv. apply list_elem_of_In in Hkv.
      rewrite sorted_items_perm in Hkv.
      apply list_elem_of_fmap in Hkv as ([k v] & -> & Hkv0). cbn [fst snd].
      rewrite (fget_elem k v o Hnd Hkv0).
      rewrite Forall_forall in IH, Hwf.
      apply (IH (k, v) Hkv0). by apply (Hwf (k, v)).
Qed.

Lemma sort_keys_idempotent (x : json) :
  wf_json x = true -> sort_keys (sort_keys x) = sort_keys x.
Proof.
  induction x as [|b|z|s|l IH|o IH] using json_rect'; try done.
  - rewrite wf_json_arr. intros Hwf.
    change (sort_keys (JArr l)) with (JArr (sort_keys <$> l)).
    change (sort_keys (JArr (sort_keys <$> l))) with (JArr (sort_keys <$> (sort_keys <$> l))).
    f_equal. rewrite <- list_fmap_compose. apply Forall_fmap_ext_1.
    rewrite Forall_forall in *. intros y Hy. apply IH; [done | by apply Hwf].
  - rewrite wf_json_obj. intros [Hnd Hwf]. rewrite !sort_keys_obj. f_equal.
    set (M := (fun kv => (kv.1, sort_keys kv.2)) <$> o).
    assert ((fun kv : pstr * json => (kv.1, sort_keys kv.2)) <$> sorted_items M
            = sorted_items M) as ->.
    { rewrite <- (list_fmap_id (sorted_items M)) at 2. apply Forall_fmap_ext_1.
      rewrite Forall_forall in *. intros kv Hkv.
      rewrite sorted_items_perm in Hkv. unfold M in Hkv.
      apply list_elem_of_fmap in Hkv as ([k v] & -> & Hkv0). cbn [fst snd id].
      f_equal. apply (IH (k, v) Hkv0). by apply (Hwf (k, v)). }
    apply sorted_items_id, sorted_items_sorted.
    pose proof (fields_of_sorted o) as Hp. fold M in Hp.
    unfold fields_of in *. rewrite sorted_items_perm in Hp. by rewrite Hp.
Qed.

(** *** The formatter on a text that its punctuation rules leave alone *)

Lemma format_json_rendering (x : json) :
  untouched (json_dumps x) = true ->
  format_json x = iterencode indent_tabs (sort_keys x) 0 ++ [LF].
Proof.
  intros H. unfold format_json. rewrite (rewrite_punctuation_untouched _ H).
  unfold json_dumps. by rewrite tabify_iterencode.
Qed.

Lemma json_loads_format_json (x : json) :
  wf_json x = true -> untouched (json_dumps x) = true ->
  json_loads (format_json x) = Ok (sort_keys x).
Proof.
  intros Hwf H. rewrite (format_json_rendering x H).
  apply json_loads_rendering; [apply indent_tabs_ws | by apply sort_keys_wf].
Qed.

Lemma format_json_sort_keys (x : json) :
  wf_json x = true -> format_json (sort_keys x) = format_json x.
Proof.
  intros Hwf. unfold format_json, json_dumps. by rewrite sort_keys_idempotent.
Qed.

(** C4, amended: for a value with distinct keys in every dictionary whose
    [json.dumps] text has none of the sequences that the formatter
    rewrites, decoding the formatter's text gives the value with every
    dictionary in key order, which is [==] to the value. *)
Theorem format_json_round_trip (x : json) :
  wf_json x = true -> untouched (json_dumps x) = true ->
  json_loads (format_json x) = Ok (sort_keys x) /\ py_eq (sort_keys x) x = true.
Proof.
  intros Hwf H. split; [by apply json_loads_format_json | by apply sort_keys_py_eq].
Qed.

Lemma format_json_round_trip_witness :
  json_loads (format_json sample_card) = Ok (sort_keys sample_card)
  /\ py_eq (sort_keys sample_card) sample_card = true.
Proof. apply format_json_round_trip; vm_compute; reflexivity. Defined.

(** Where the punctuation rules find nothing to rewrite, formatting is
    stable: for a value with distinct keys in every dictionary whose
    [json.dumps] text has none of the rewritten sequences, the formatter's
    text decodes, and formatting the decoded value gives the same text
    again. *)
Theorem format_json_stable (x : json) :
  wf_json x = true -> untouched (json_dumps x) = true ->
  exists y, json_loads (format_json x) = Ok y /\ format_json y = format_json x.
Proof.
  intros Hwf H. exists (sort_keys x).
  split; [by apply json_loads_format_json | by apply format_json_sort_keys].
Qed.

Lemma format_json_stable_witness :
  exists y, json_loads (format_json sample_card) = Ok y
            /\ format_json y = format_json sample_card.
Proof. apply format_json_stable; vm_compute; reflexivity. Defined.

(** * Further properties of the code *)

(** ** [load_json_file] *)

(** A file whose bytes are not UTF-8 or whose text is not JSON: the
    handler prints its message, counts one validation error and then
    raises [AttributeError] on [e.message]; the files stay as they are. *)
Theorem load_json_file_invalid (args : Args) (p : path) (f : file) (w : world) :
  fs w !! p = Some f ->
  (data f = Undecodable \/ exists raw, data f = Text raw /\ json_loads raw = Err ValueError) ->
  load_json_file args p w
  = (Raise AttributeError,
     World (formatting_errors w) (validation_errors w + 1)
           (stdout w ++ printed args (MsgNotValidJson p) 0) (fs w) (dirs w)).
Proof.
  intros Hp Hbad. unfold load_json_file. rewrite Hp.
  assert ((_ <- verbose_print args (MsgNotValidJson p) 0;
           _ <- add_validation_errors 1; raise AttributeError) w
          = (Raise AttributeError : outcome json,
             World (formatting_errors w) (validation_errors w + 1)
                   (stdout w ++ printed args (MsgNotValidJson p) 0) (fs w) (dirs w))) as E.
  { unfold bind, M_bind. by rewrite verbose_print_emit. }
  destruct Hbad as [Hd|(raw & Hd & Hl)]; rewrite Hd; [exact E|]. rewrite Hl. exact E.
Qed.

Lemma load_json_file_invalid_witness :
  load_json_file quiet_args (py "cycles.json") broken_world
  = (Raise AttributeError,
     World 0 1 [MsgNotValidJson (py "cycles.json")] (fs broken_world) ∅).
Proof.
  apply (load_json_file_invalid quiet_args (py "cycles.json")
           (File true (Text (py "[1,"))) broken_world).
  - reflexivity.
  - right. exists (py "[1,"). split; [reflexivity | vm_compute; reflexivity].
Defined.

(** A file whose canonical text contains [<sup>]: the function returns
    [None] and counts one validation error; the file is not rewritten, even
    when [fix_formatting] is set. *)
Theorem load_json_file_sup (args : Args) (p : path) (f : file) (raw : pstr) (x : json)
    (w : world) :
  fs w !! p = Some f -> data f = Text raw -> json_loads raw = Ok x ->
  occurs (py "<sup>") (format_json x) = true ->
  load_json_file args p w
  = (Ret JNull,
     World (formatting_errors w) (validation_errors w + 1)
           (stdout w ++ printed args (MsgInvalidContent p) 0) (fs w) (dirs w)).
Proof.
  intros Hp Hd Hl Hs. unfold load_json_file. rewrite Hp, Hd, Hl, Hs.
  unfold bind, M_bind. by rewrite verbose_print_emit.
Qed.

Lemma load_json_file_sup_witness :
  load_json_file quiet_args (py "cycles.json") sup_world
  = (Ret JNull, World 0 1 [MsgInvalidContent (py "cycles.json")] (fs sup_world) ∅).
Proof.
  apply (load_json_file_sup quiet_args (py "cycles.json")
           (File true (Text ([91; 34] ++ py "x<sup>2</sup>" ++ [34; 93])))
           ([91; 34] ++ py "x<sup>2</sup>" ++ [34; 93])
           (JArr [JStr (py "x<sup>2</sup>")]) sup_world);
    vm_compute; reflexivity.
Defined.

(** Without [fix_formatting], a file that decodes and has no [<sup>] is
    returned as decoded and nothing changes: no message, no count, no
    write, whether or not its text is the canonical one. *)
Theorem load_json_file_reads (args : Args) (p : path) (f : file) (raw : pstr) (x : json)
    (w : world) :
  fix_formatting args = false ->
  fs w !! p = Some f -> data f = Text raw -> json_loads raw = Ok x ->
  occurs (py "<sup>") (format_json x) = false ->
  load_json_file args p w = (Ret x, w).
Proof.
  intros Hfix Hp Hd Hl Hs. unfold load_json_file. rewrite Hp, Hd, Hl, Hs, Hfix.
  destruct (negb _); [|done].
  unfold bind, M_bind, add_formatting_errors, ret. cbn [andb]. cbv beta iota.
  destruct w. cbn. by rewrite Z.add_0_r.
Qed.

Lemma load_json_file_reads_witness :
  load_json_file quiet_args (py "x.json")
    (World 0 0 [] {[ py "x.json" := File true (Text (py "[1, 2]")) ]} ∅)
  = (Ret (JArr [JInt 1; JInt 2]),
     World 0 0 [] {[ py "x.json" := File true (Text (py "[1, 2]")) ]} ∅).
Proof.
  apply (load_json_file_reads quiet_args (py "x.json") (File true (Text (py "[1, 2]")))
           (py "[1, 2]")); vm_compute; reflexivity.
Defined.

(** With [fix_formatting], a writable file whose text is not the canonical
    one is rewritten with the canonical text; the decoded value is
    returned and no error is counted. *)
Theorem load_json_file_fixes (args : Args) (p : path) (f : file) (raw : pstr) (x : json)
    (w : world) :
  fix_formatting args = true ->
  fs w !! p = Some f -> writable f = true -> data f = Text raw -> json_loads raw = Ok x ->
  occurs (py "<sup>") (format_json x) = false ->
  format_json x <> raw -> has_surrogate (format_json x) = false ->
  load_json_file args p w
  = (Ret x,
     World (formatting_errors w) (validation_errors w)
           (stdout w ++ printed args (MsgFixingFormatting p) 0)
           (<[p := File true (Text (format_json x))]> (fs w)) (dirs w)).
Proof.
  intros Hfix Hp Hw Hd Hl Hs Hne Hsur. unfold load_json_file.
  rewrite Hp, Hd, Hl, Hs, Hfix, Hw.
  apply pstr_eqb_false in Hne. rewrite Hne. cbn [negb andb].
  assert ((0 <? length (format_json x))%nat = true) as ->.
  { unfold format_json. rewrite length_app. apply Nat.ltb_lt. simpl. lia. }
  rewrite Hsur. unfold bind, M_bind, add_formatting_errors. rewrite verbose_print_emit.
  unfold write_file, ret, emit. cbn. by rewrite Z.add_0_r, insert_insert_eq.
Qed.

Lemma load_json_file_fixes_witness :
  load_json_file fixing_args (py "x.json") fixable_world
  = (Ret (JArr [JInt 1; JInt 2]),
     World (formatting_errors fixable_world) (validation_errors fixable_world)
       (stdout fixable_world ++ printed fixing_args (MsgFixingFormatting (py "x.json")) 0)
       (<[py "x.json" := File true (Text (format_json (JArr [JInt 1; JInt 2])))]>
          (fs fixable_world))
       (dirs fixable_world)).
Proof.
  apply (load_json_file_fixes fixing_args (py "x.json") (File true (Text (py "[1, 2]")))
           (py "[1, 2]") (JArr [JInt 1; JInt 2]) fixable_world);
    try (vm_compute; reflexivity).
  vm_compute. discriminate.
Defined.

(** A file that holds the formatter's text of a value is canonical: it is
    read back, with every dictionary in key order, and nothing changes,
    with or without [fix_formatting]. *)
Theorem load_json_file_canonical (args : Args) (p : path) (f : file) (x : json) (w : world) :
  fs w !! p = Some f -> data f = Text (format_json x) ->
  wf_json x = true -> untouched (json_dumps x) = true ->
  occurs (py "<sup>") (format_json x) = false ->
  load_json_file args p w = (Ret (sort_keys x), w).
Proof.
  intros Hp Hd Hwf Hu Hs. unfold load_json_file.
  rewrite Hp, Hd, (json_loads_format_json x Hwf Hu), (format_json_sort_keys x Hwf), Hs.
  by rewrite pstr_eqb_refl.
Qed.

Lemma load_json_file_canonical_witness :
  load_json_file quiet_args source_path (world_with [(source_path, sample_card)])
  = (Ret (sort_keys sample_card), world_with [(source_path, sample_card)]).
Proof.
  apply (load_json_file_canonical quiet_args source_path (file_of sample_card) sample_card);
    vm_compute; reflexivity.
Defined.

(** ** [get_translatable_strings] *)

Lemma fget_fset_eq (k : pstr) (v : json) (d : fdict) : fget k (fset k v d) = Some v.
Proof.
  unfold fget, fset. induction d as [|[k0 v0] d IH]; simpl.
  - by rewrite pstr_eqb_refl.
  - destruct (pstr_eqb k0 k) eqn:E; simpl; by rewrite E.
Qed.

Lemma is_translatable_elem (f : pstr) : is_translatable f = true <-> f ∈ translatable_fields.
Proof.
  unfold is_translatable. rewrite existsb_exists. split.
  - intros (g & Hg & E). apply pstr_eqb_true in E. subst g. by apply list_elem_of_In.
  - intros H. exists f. split; [by apply list_elem_of_In | apply pstr_eqb_refl].
Qed.

Lemma gather_lookup (item : fdict) (fields : list pstr) (field : pstr) :
  forall acc : fdict,
    fget field (foldl (fun result f =>
                         match fget f item with
                         | Some v => fset f v result
                         | None => result
                         end) acc fields)
    = if bool_decide (field ∈ fields)
      then match fget field item with Some v => Some v | None => fget field acc end
      else fget field acc.
Proof.
  induction fields as [|f fields IH]; intros acc; [done|].
  cbn [foldl]. rewrite IH. destruct (decide (field = f)) as [->|Hne].
  - rewrite (bool_decide_eq_true_2 (f ∈ f :: fields)) by left.
    destruct (fget f item) as [v|] eqn:E; [rewrite fget_fset_eq|]; by destruct (bool_decide _).
  - assert (bool_decide (field ∈ f :: fields) = bool_decide (field ∈ fields)) as ->.
    { apply bool_decide_ext. rewrite elem_of_cons. naive_solver. }
    destruct (fget f item) as [v|]; [rewrite fget_fset_ne by done|]; done.
Qed.

(** The result holds the whitelisted fields of the record with the
    record's values and nothing else (so never the code), whatever the
    order in which the set of field names is visited; the flag says that
    the record has a key that is neither whitelisted nor [code]; only
    standard output can change, and only when the caller asked for the
    warning. *)
Theorem get_translatable_strings_result (args : Args) (item : fdict) (p : path)
    (warn : bool) (w : world) :
  exists tr extra w',
    get_translatable_strings args item p warn w = (Ret (tr, extra), w')
    /\ quiet w w' /\ (warn = false -> w' = w)
    /\ (forall field,
          fget field tr = if is_translatable field then fget field item else None)
    /\ (extra = true
        <-> exists k, k ∈ fields_of item /\ is_translatable k = false /\ k <> py "code").
Proof.
  unfold get_translatable_strings. cbv zeta.
  set (extra := negb (length (extra_fields item) =? 0)%nat).
  assert (exists w',
            (if warn && extra then verbose_print args (WarnExtraFields p (extra_fields item)) 0
             else ret ()) w = (Ret (), w') /\ quiet w w' /\ (warn = false -> w' = w))
    as (w' & Hrun & Hq & Hw).
  { destruct warn; cbn [andb].
    - destruct extra.
      + destruct (verbose_print_run args (WarnExtraFields p (extra_fields item)) 0 w)
          as (w' & H1 & H2). by exists w'.
      + exists w. split; [done|]. split; [apply quiet_refl | done].
    - exists w. split; [done|]. split; [apply quiet_refl | done]. }
  exists (translatable_of item), extra, w'.
  split; [by rewrite (bind_ret _ _ _ _ _ Hrun)|]. split; [done|]. split; [done|]. split.
  - intros field. unfold translatable_of. rewrite gather_lookup.
    destruct (is_translatable field) eqn:E.
    + apply is_translatable_elem in E. rewrite bool_decide_eq_true_2 by done.
      by destruct (fget field item).
    + rewrite bool_decide_eq_false_2; [done|]. intros H%is_translatable_elem. congruence.
  - unfold extra, extra_fields. rewrite negb_true_iff, Nat.eqb_neq. split.
    + intros Hlen. destruct (filter _ _) as [|k l] eqn:Ef; [done|].
      assert (k ∈ k :: l) as Hk by left. rewrite <- Ef in Hk.
      apply list_elem_of_filter in Hk as [Hc Hk]. exists k.
      apply Is_true_true, andb_true_iff in Hc as [H1 H2].
      apply negb_true_iff in H1, H2. apply pstr_eqb_false in H2. done.
    + intros (k & Hk & H1 & H2) Hlen. apply length_zero_iff_nil in Hlen.
      assert (k ∈ filter (fun k => negb (is_translatable k) && negb (pstr_eqb k (py "code")))
                         (fst <$> item)) as Hin.
      { apply list_elem_of_filter. split; [|done]. apply Is_true_true.
        apply pstr_eqb_false in H2. by rewrite H1, H2. }
      rewrite Hlen in Hin. by apply elem_of_nil in Hin.
Qed.

(** ** [load_translatable_dict] *)

(** What the loader returns for a source or an ignore file is a mapping
    with distinct hashable codes, each with a non-empty dictionary of
    whitelisted fields, and [total] is the number of its pairs. *)
Theorem load_translatable_dict_returns_field_mapping (args : Args) (p : path)
    (w w' : world) (d : cdict) (t : nat) :
  load_translatable_dict args p false w = (Ret (d, t), w') ->
  field_mapping d /\ t = pairs d.
Proof.
  intros H. by apply (load_translatable_dict_mapping args p false w w' d t H).
Qed.

Lemma load_translatable_dict_returns_field_mapping_witness :
  field_mapping noise_mapping /\ 2%nat = pairs noise_mapping.
Proof.
  apply (load_translatable_dict_returns_field_mapping quiet_args source_path
           (world_with [(source_path, noise_file)])
           (world_with [(source_path, noise_file)])).
  vm_compute. reflexivity.
Defined.

(** A file that cannot be read gives the empty mapping and a total of 0;
    the warning is printed from verbosity 1 on, and nothing is counted. *)
Theorem load_translatable_dict_unreadable (args : Args) (p : path) (warn : bool) (w : world) :
  fs w !! p = None ->
  load_translatable_dict args p warn w
  = (Ret ([], 0%nat),
     World (formatting_errors w) (validation_errors w)
           (stdout w ++ printed args (WarnCouldNotLoad p) 1) (fs w) (dirs w)).
Proof. intros H. by rewrite load_translatable_dict_absent. Qed.

Lemma load_translatable_dict_unreadable_witness :
  load_translatable_dict quiet_args localized_path true empty_world
  = (Ret ([], 0%nat),
     World (formatting_errors empty_world) (validation_errors empty_world)
           (stdout empty_world ++ printed quiet_args (WarnCouldNotLoad localized_path) 1)
           (fs empty_world) (dirs empty_world)).
Proof. apply load_translatable_dict_unreadable. reflexivity. Defined.

(** ** [compare_translations] *)

(** When the English file loads and neither the localized file nor the
    ignore file can be read, the comparison returns with nothing translated
    and nothing untranslated; [missing] is the whole English mapping, with
    the code written into every record, and only standard output has
    changed since the English file was loaded. *)
Theorem compare_translations_no_localized (args : Args) (loc : i18nLocale) (p : path)
    (w w1 : world) (en : cdict) (t : nat) :
  load_translatable_dict args p false w = (Ret (en, t), w1) ->
  fs w1 !! resolvePath loc p = None ->
  fs w1 !! ignore_path loc p = None ->
  exists w',
    compare_translations args loc p w
    = (Ret {| locale := loc; en_file_name := p; translated := 0; untranslated := [];
              missing := with_codes en; total := t |}, w')
    /\ quiet w1 w'.
Proof.
  intros Hen Hloc Hign. unfold compare_translations, load_mappings.
  rewrite bind_run, bind_run, Hen. cbv beta iota zeta.
  rewrite bind_run.
  assert (exists w2, (if (t =? 0)%nat
                      then verbose_print args (MsgNoTranslatable (name loc) p) 1
                      else ret ()) w1 = (Ret (), w2) /\ quiet w1 w2) as (w2 & -> & Hq2).
  { destruct (t =? 0)%nat; [apply verbose_print_run|].
    exists w1. split; [done | apply quiet_refl]. }
  cbv beta iota. rewrite bind_run.
  assert (fs w2 = fs w1) as Hfs2 by (by destruct Hq2 as (_ & _ & ? & _)).
  rewrite load_translatable_dict_absent by (by rewrite Hfs2).
  cbv beta iota. rewrite bind_run. unfold check_extra_i18n_codes at 1.
  cbn [fmap list_fmap filter list_filter length Nat.eqb negb]. unfold ret at 1.
  cbv beta iota. rewrite bind_run.
  fold (ignore_path loc p).
  rewrite load_translatable_dict_absent by (by cbn; rewrite Hfs2).
  cbv beta iota. unfold ret at 1. cbv beta iota.
  destruct (compare_mappings_empty args loc p en t []
              (emit (emit w2 (printed args (WarnCouldNotLoad (resolvePath loc p)) 1))
                    (printed args (WarnCouldNotLoad (ignore_path loc p)) 1)))
    as (w' & Hrun & Hq).
  exists w'. split; [exact Hrun|].
  eapply quiet_trans; [exact Hq2|]. eapply quiet_trans; [|exact Hq].
  rewrite emit_emit. repeat split. by eexists.
Qed.

Lemma compare_translations_no_localized_witness :
  exists w',
    compare_translations quiet_args locale_fr source_path
      (world_with [(source_path, noise_file)])
    = (Ret {| locale := locale_fr; en_file_name := source_path; translated := 0;
              untranslated := []; missing := with_codes noise_mapping; total := 2 |}, w')
    /\ quiet (world_with [(source_path, noise_file)]) w'.
Proof.
  apply (compare_translations_no_localized quiet_args locale_fr source_path
           (world_with [(source_path, noise_file)]));
    vm_compute; reflexivity.
Defined.

Lemma conservation_up_to_written_codes_witness :
  exists stats w',
    compare_mappings quiet_args locale_fr source_path noise_source 3 noise_localized []
      empty_world = (Ret stats, w')
    /\ (translated stats + pairs (untranslated stats) + pairs (missing stats)
        = pairs noise_source + length (untranslated stats) + length (missing stats))%nat.
Proof.
  apply (conservation_up_to_written_codes quiet_args locale_fr source_path noise_source 3
           noise_localized [] empty_world); by_decision.
Defined.

(** The count of translated fields never exceeds the number of fields of
    the source mapping. *)
Theorem translated_at_most_source (args : Args) (loc : i18nLocale) (p : path)
    (source : cdict) (total : nat) (localized ignore : cdict) (w : world) :
  field_mapping source -> py_dict localized ->
  exists stats w',
    compare_mappings args loc p source total localized ignore w = (Ret stats, w')
    /\ (translated stats <= pairs source)%nat.
Proof.
  intros Hsrc Hloc. pose proof (field_mapping_py_dict _ Hsrc) as Hpd.
  destruct (compare_mappings_run args loc p source total localized ignore w)
    as (w' & Hrun & _); [done | done | by apply field_mapping_nodup |].
  eexists _, w'. split; [exact Hrun|]. cbn [translated].
  pose proof (conservation_before_rendering ignore localized source Hloc Hpd). lia.
Qed.

Lemma translated_at_most_source_witness :
  exists stats w',
    compare_mappings quiet_args locale_fr source_path noise_source 3 noise_localized []
      empty_world = (Ret stats, w')
    /\ (translated stats <= pairs noise_source)%nat.
Proof.
  apply (translated_at_most_source quiet_args locale_fr source_path noise_source 3
           noise_localized [] empty_world); by_decision.
Defined.

Lemma unaddressed_lookup (items : cdict) (k : json) :
  forall en : cdict,
    hashable k = true -> py_dict en -> Forall (fun kv => hashable kv.1 = true) items ->
    cget k (unaddressed en items)
    = if bool_decide (key_of k ∈ keys_of items) then None else cget k en.
Proof.
  induction items as [|[c lf] items IH]; intros en Hk Hen Hit; [done|].
  apply Forall_cons in Hit as [Hc Hit]. cbn [fst] in Hc.
  change (unaddressed en ((c, lf) :: items)) with (unaddressed (cpop c en) items).
  destruct (cpop_keys c en Hc Hen) as [Hen' Hlook].
  rewrite (IH (cpop c en) Hk Hen' Hit), (Hlook k Hk).
  cbn [keys_of fmap list_fmap fst]. fold (keys_of items).
  destruct (py_eq c k) eqn:E.
  - apply py_eq_key in E; [|done..].
    rewrite (bool_decide_eq_true_2 (key_of k ∈ key_of c :: keys_of items))
      by (rewrite E; left).
    by destruct (bool_decide _).
  - apply py_eq_key_false in E; [|done..].
    assert (bool_decide (key_of k ∈ key_of c :: keys_of items)
            = bool_decide (key_of k ∈ keys_of items)) as ->; [|done].
    apply bool_decide_ext. rewrite elem_of_cons. naive_solver.
Qed.

Lemma with_codes_lookup (d : cdict) (k : json) :
  cget k (with_codes d) = None <-> cget k d = None.
Proof.
  unfold with_codes, flatten_i18n_dict, cget. cbn [fst].
  induction d as [|[k0 v0] d IH]; [done|].
  rewrite fmap_cons. cbn [dict_get fst snd]. by destruct (py_eq k0 k).
Qed.

Lemma untranslated_hashable (ign en items : cdict) :
  Forall (fun kv => hashable kv.1 = true) items ->
  Forall (fun kv : json * fdict => hashable kv.1 = true)
         (with_codes (omap (code_untranslated ign en) items)).
Proof.
  intros Hh. unfold with_codes, flatten_i18n_dict. cbn [fst].
  rewrite Forall_fmap, Forall_forall. intros kv Hkv. cbn [fst].
  apply list_elem_of_omap in Hkv as (kv0 & Hkv0 & He).
  unfold code_untranslated in He. destruct (cget kv0.1 en); [|done].
  destruct (0 <? _)%nat; [|done]. injection He as <-. unfold compose. cbn [fst].
  rewrite Forall_forall in Hh. by apply Hh.
Qed.

(** A code is reported missing exactly when the source has it and the
    localized mapping does not; a code reported untranslated is in both.
    So no code is in both reports. *)
Theorem missing_and_untranslated_codes (args : Args) (loc : i18nLocale) (p : path)
    (source : cdict) (total : nat) (localized ignore : cdict) (w : world) (k : json) :
  field_mapping source -> py_dict localized -> hashable k = true ->
  exists stats w',
    compare_mappings args loc p source total localized ignore w = (Ret stats, w')
    /\ (is_Some (cget k (missing stats))
        <-> is_Some (cget k source) /\ key_of k ∉ keys_of localized)
    /\ (is_Some (cget k (untranslated stats))
        -> is_Some (cget k source) /\ key_of k ∈ keys_of localized).
Proof.
  intros Hsrc Hloc Hk. pose proof (field_mapping_py_dict _ Hsrc) as Hpd.
  destruct (compare_mappings_run args loc p source total localized ignore w)
    as (w' & Hrun & _); [done | done | by apply field_mapping_nodup |].
  eexists _, w'. split; [exact Hrun|]. cbn [missing untranslated].
  destruct Hloc as [Hlh Hlnd]. split.
  - rewrite <- !not_eq_None_Some, with_codes_lookup.
    rewrite (unaddressed_lookup localized k source Hk Hpd Hlh).
    destruct (bool_decide _) eqn:E.
    + apply bool_decide_eq_true in E. naive_solver.
    + apply bool_decide_eq_false in E. naive_solver.
  - intros Hsome.
    destruct (decide (key_of k ∈ keys_of localized)) as [Hin|Hnot].
    2: { rewrite (untranslated_absent ignore source localized k Hk Hlh Hnot) in Hsome.
         by destruct Hsome. }
    split; [|done].
    unfold keys_of in Hin. apply list_elem_of_fmap in Hin as ([c lf] & Hkc & Hc).
    cbn [fst] in Hkc.
    assert (hashable c = true) as Hch.
    { rewrite Forall_forall in Hlh. by apply (Hlh (c, lf)). }
    assert (py_eq k c = true) as Hkc' by (by apply py_eq_key).
    rewrite (cget_ext k c _ Hk Hch) in Hsome
      by (by apply untranslated_hashable || done).
    rewrite (untranslated_lookup ignore source localized c lf (conj Hlh Hlnd) Hc) in Hsome.
    rewrite (cget_ext k c source Hk Hch) by (by destruct Hpd || done).
    destruct (cget c source); [done | by destruct Hsome].
Qed.

Lemma missing_and_untranslated_codes_witness :
  exists stats w',
    compare_mappings quiet_args locale_fr source_path noise_source 3 noise_localized []
      empty_world = (Ret stats, w')
    /\ (is_Some (cget (JStr (py "A1")) (missing stats))
        <-> is_Some (cget (JStr (py "A1")) noise_source)
            /\ key_of (JStr (py "A1")) ∉ keys_of noise_localized)
    /\ (is_Some (cget (JStr (py "A1")) (untranslated stats))
        -> is_Some (cget (JStr (py "A1")) noise_source)
           /\ key_of (JStr (py "A1")) ∈ keys_of noise_localized).
Proof.
  apply (missing_and_untranslated_codes quiet_args locale_fr source_path noise_source 3
           noise_localized [] empty_world (JStr (py "A1"))); by_decision.
Defined.

(** ** [format_json] *)

(** For a value whose [json.dumps] text has none of the rewritten
    sequences, the formatter's text is that rendering with a line of
    nesting level [n] indented by [n] tabs up to level 8, and by 8 tabs and
    four spaces for every further level beyond, and one final line feed. *)
Theorem format_json_tabs (x : json) :
  untouched (json_dumps x) = true ->
  format_json x = iterencode indent_tabs (sort_keys x) 0 ++ [LF]
  /\ forall level,
       indent_tabs level
       = if (level <=? 8)%nat then repeat TAB level
         else repeat TAB 8 ++ repeat SP (4 * (level - 8)).
Proof.
  intros H. split; [by apply format_json_rendering | apply indent_tabs_spec].
Qed.

Lemma format_json_tabs_witness :
  format_json sample_card = iterencode indent_tabs (sort_keys sample_card) 0 ++ [LF]
  /\ forall level,
       indent_tabs level
       = if (level <=? 8)%nat then repeat TAB level
         else repeat TAB 8 ++ repeat SP (4 * (level - 8)).
Proof. apply format_json_tabs. vm_compute. reflexivity. Defined.

Lemma replace_single_absent (c : N) (new s : pstr) : c ∉ new -> c ∉ replace [c] new s.
Proof.
  intros Hnew. unfold replace. induction s as [|a s IH]; [apply not_elem_of_nil|].
  cbn [replace_from startswith length pred]. destruct (N.eqb_spec c a) as [->|Hne]; cbn [andb].
  - rewrite not_elem_of_app. by split.
  - rewrite not_elem_of_cons. by split.
Qed.

Lemma replace_keeps_absent (c : N) (old new s : pstr) :
  c ∉ s -> c ∉ new -> c ∉ replace old new s.
Proof.
  intros Hs Hnew. unfold replace. generalize 0%nat as skip.
  induction s as [|a s IH]; intros skip; [apply not_elem_of_nil|].
  apply not_elem_of_cons in Hs as [Hne Hs]. cbn [replace_from].
  destruct skip as [|k]; [|by apply IH].
  destruct (startswith old (a :: s)).
  - rewrite not_elem_of_app. split; [done | by apply IH].
  - rewrite not_elem_of_cons. split; [done | by apply IH].
Qed.

Lemma re_sub_keeps_absent (c : N) (i : nat) (s : pstr) :
  c ∉ s -> c <> TAB -> forall bol skip, c ∉ re_sub_indent i bol skip s.
Proof.
  intros Hs Hc. induction s as [|a s IH]; intros bol skip; [apply not_elem_of_nil|].
  apply not_elem_of_cons in Hs as [Hne Hs]. cbn [re_sub_indent].
  destruct skip as [|k]; [|by apply IH].
  destruct (bol && startswith (repeat SP (4 * i)) (a :: s)).
  - rewrite not_elem_of_app. split; [|by apply IH].
    intros Hin. apply list_elem_of_In, repeat_spec in Hin. done.
  - rewrite not_elem_of_cons. split; [done | by apply IH].
Qed.

(** The formatter's text never has a curly single quote, a minus sign or
    an en dash in it, whatever the value. *)
Theorem format_json_no_typographic (x : json) (c : N) :
  c ∈ [0x2018; 0x2019; 0x2212; 0x2013] -> Forall (fun a => a <> c) (format_json x).
Proof.
  intros Hc. enough (c ∉ format_json x) as Hn
    by (apply Forall_forall; intros a Ha ->; done).
  unfold format_json. rewrite not_elem_of_app. split.
  2: { intros H%list_elem_of_singleton. subst c. revert Hc. by_decision. }
  assert (c <> TAB) as Htab by (intros ->; revert Hc; by_decision).
  unfold tabify. cbn [foldl].
  do 8 (apply re_sub_keeps_absent; [|done]).
  unfold rewrite_punctuation. cbv zeta.
  do 3 (apply replace_keeps_absent; [|intros H; revert Hc Htab; clear -H; set_solver]).
  repeat (apply elem_of_cons in Hc as [->|Hc]); [| | | |by apply elem_of_nil in Hc].
  - do 3 (apply replace_keeps_absent; [|by_decision]). by apply replace_single_absent; by_decision.
  - do 2 (apply replace_keeps_absent; [|by_decision]). by apply replace_single_absent; by_decision.
  - do 1 (apply replace_keeps_absent; [|by_decision]). by apply replace_single_absent; by_decision.
  - by apply replace_single_absent; by_decision.
Qed.

Lemma format_json_no_typographic_witness :
  Forall (fun a => a <> 0x2019) (format_json curly_quote).
Proof. apply format_json_no_typographic. by_decision. Defined.

(** ** [flatten_i18n_dict] *)

Lemma fset_fset_same (k : pstr) (v : json) (d : fdict) : fset k v (fset k v d) = fset k v d.
Proof.
  unfold fset. induction d as [|[k0 v0] d IH]; simpl.
  - by rewrite pstr_eqb_refl.
  - destruct (pstr_eqb k0 k) eqn:E; simpl; rewrite E; [done | by rewrite IH].
Qed.

(** After the call every record holds its own code under [code], the list
    returned is the list of the records of the mapping, and a second call
    changes nothing. *)
Theorem flatten_i18n_dict_writes_codes (d : cdict) :
  Forall (fun kv => fget (py "code") kv.2 = Some kv.1) (flatten_i18n_dict d).1
  /\ (flatten_i18n_dict d).2 = snd <$> (flatten_i18n_dict d).1
  /\ fst <$> (flatten_i18n_dict d).1 = fst <$> d
  /\ flatten_i18n_dict (flatten_i18n_dict d).1 = flatten_i18n_dict d.
Proof.
  unfold flatten_i18n_dict. cbn [fst snd]. split; [|split; [done|split]].
  - rewrite Forall_fmap. apply Forall_forall. intros [k v] _. cbn. apply fget_fset_eq.
  - rewrite <- list_fmap_compose. by apply list_fmap_ext.
  - assert (((fun kv : json * fdict => (kv.1, fset (py "code") kv.1 kv.2)) <$>
              ((fun kv : json * fdict => (kv.1, fset (py "code") kv.1 kv.2)) <$> d))
            = (fun kv : json * fdict => (kv.1, fset (py "code") kv.1 kv.2)) <$> d) as E.
    { rewrite <- list_fmap_compose. apply list_fmap_ext. intros _ [k v] _. cbn.
      by rewrite fset_fset_same. }
    by rewrite E.
Qed.

(** ** [check_duplicate_codes] *)

(** On a list of records with pairwise distinct codes the check prints
    nothing and changes nothing. *)
Theorem check_duplicate_codes_silent (args : Args) (cs : list json) (p : path) (w : world) :
  Forall (fun c => is_record c = true) cs -> NoDup (record_key <$> cs) ->
  check_duplicate_codes args (JArr cs) p w = (Ret (), w).
Proof.
  intros Hrec Hnd. unfold check_duplicate_codes. cbn [py_iter]. rewrite bind_run.
  unfold lift at 1. cbv beta iota.
  pose proof (check_duplicate_distinct args p cs [] [] w Hrec) as H.
  rewrite app_nil_r in H. rewrite H; [done | constructor | done |].
  intros c _. apply not_elem_of_nil.
Qed.

Lemma check_duplicate_codes_silent_witness :
  check_duplicate_codes quiet_args
    (JArr [record_of (py "A1") []; record_of (py "A2") [(py "name", JStr (py "N"))]])
    source_path empty_world
  = (Ret (), empty_world).
Proof. apply check_duplicate_codes_silent; by_decision. Defined.

(** ** The path of the ignore file *)

Lemma endswith_app (suffix a b : pstr) :
  endswith suffix b = true -> endswith suffix (a ++ b) = true.
Proof.
  unfold endswith. rewrite !andb_true_iff, !Nat.leb_le, !pstr_eqb_true, length_app.
  intros [Hlen Hd]. split; [lia|].
  replace (length a + length b - length suffix)%nat
    with (length a + (length b - length suffix))%nat by lia.
  by rewrite drop_app_add'.
Qed.

Lemma endswith_refl (s : pstr) : endswith s s = true.
Proof.
  unfold endswith. rewrite Nat.leb_refl, Nat.sub_diag. cbn [drop andb]. apply pstr_eqb_refl.
Qed.

Lemma ignore_path_json (loc : i18nLocale) (p stem : path) :
  resolvePath loc p = stem ++ py ".json" -> ignore_path loc p = stem ++ py ".ignore".
Proof.
  unfold ignore_path, removesuffix.
  intros ->. rewrite (endswith_app _ stem _ (endswith_refl _)).
  change (negb (pstr_eqb (py ".json") [])) with true. cbn [andb].
  rewrite length_app, Nat.add_sub. by rewrite take_app_length.
Qed.

Lemma check_extra_i18n_codes_returns (args : Args) (i18n en : cdict) (p : path) (w : world) :
  check_extra_i18n_codes args i18n en p w
  = (Ret (), (check_extra_i18n_codes args i18n en p w).2).
Proof.
  unfold check_extra_i18n_codes. destruct (negb _); [|done]. by rewrite verbose_print_emit.
Qed.

(** For a localized file [stem.json], the ignore mapping that the
    comparison uses is the one loaded from [stem.ignore]: when the English
    file, [stem.json] and [stem.ignore] load in turn, [compare_translations]
    is the comparison of these three mappings. *)
Theorem compare_translations_ignore_file (args : Args) (loc : i18nLocale) (p stem : path)
    (w w1 w3 w4 : world) (en i18n ign : cdict) (t t' t'' : nat) :
  resolvePath loc p = stem ++ py ".json" ->
  load_translatable_dict args p false w = (Ret (en, t), w1) ->
  load_translatable_dict args (stem ++ py ".json") true
    ((if (t =? 0)%nat then verbose_print args (MsgNoTranslatable (name loc) p) 1
      else ret ()) w1).2
  = (Ret (i18n, t'), w3) ->
  load_translatable_dict args (stem ++ py ".ignore") false
    (check_extra_i18n_codes args i18n en (stem ++ py ".json") w3).2
  = (Ret (ign, t''), w4) ->
  compare_translations args loc p w = compare_mappings args loc p en t i18n ign w4.
Proof.
  intros Hres Hen Hloc Hign. unfold compare_translations, load_mappings. cbv zeta.
  change (removesuffix (py ".json") (resolvePath loc p) ++ py ".ignore")
    with (ignore_path loc p).
  rewrite (ignore_path_json loc p stem Hres), Hres.
  rewrite bind_run, bind_run, Hen. cbv beta iota. rewrite bind_run.
  assert ((if (t =? 0)%nat then verbose_print args (MsgNoTranslatable (name loc) p) 1
           else ret ()) w1
          = (Ret (), ((if (t =? 0)%nat
                       then verbose_print args (MsgNoTranslatable (name loc) p) 1
                       else ret ()) w1).2)) as ->.
  { destruct (t =? 0)%nat; [|done]. by rewrite verbose_print_emit. }
  cbv beta iota. rewrite bind_run, Hloc. cbv beta iota.
  rewrite bind_run, check_extra_i18n_codes_returns. cbv beta iota.
  rewrite bind_run, Hign. reflexivity.
Qed.

Lemma compare_translations_ignore_file_witness :
  compare_translations quiet_args locale_fr source_path ignore_world
  = compare_mappings quiet_args locale_fr source_path ability_mapping 1
      ability_mapping ability_mapping ignore_world.
Proof.
  apply (compare_translations_ignore_file quiet_args locale_fr source_path
           (py "./translations/fr/pack/core") ignore_world ignore_world ignore_world
           ignore_world ability_mapping ability_mapping ability_mapping 1 1 1);
    vm_compute; reflexivity.
Defined.

(** ** [main] *)

(** Without a readable [cycles.json] under the base path the run ends in
    the [OSError] of [open], which nothing catches: only the message about
    the cycle index may have been printed, and the process exits with
    status 1. *)
Theorem main_without_cycles (abspath : path -> path) (relpath : path -> option path -> path)
    (path_parts : path -> list pstr) (args : Args) (w : world) :
  fs w !! os_path_join (base_path args) (py "cycles.json") = None ->
  main abspath relpath path_parts args w
  = (Raise OSError,
     World 0 0 (stdout w ++ printed args (MsgLoading (py "cycle")) 1) (fs w) (dirs w))
  /\ exit_status abspath relpath path_parts args w = Some 1%Z.
Proof.
  intros Hp.
  assert (main abspath relpath path_parts args w
          = (Raise OSError,
             World 0 0 (stdout w ++ printed args (MsgLoading (py "cycle")) 1) (fs w) (dirs w)))
    as E.
  { unfold main. rewrite bind_run. unfold reset_counters. cbv beta iota.
    rewrite bind_run. unfold load_cycles. rewrite bind_run, verbose_print_emit.
    cbv beta iota. unfold load_json_file, emit. cbn [fs]. by rewrite Hp. }
  split; [exact E|]. unfold exit_status. by rewrite E.
Qed.

Lemma main_without_cycles_witness :
  main same_path same_relpath one_part quiet_args empty_world
  = (Raise OSError,
     World 0 0 (stdout empty_world ++ printed quiet_args (MsgLoading (py "cycle")) 1)
           (fs empty_world) (dirs empty_world))
  /\ exit_status same_path same_relpath one_part quiet_args empty_world = Some 1%Z.
Proof. apply main_without_cycles. reflexivity. Defined.

(** The exit status of a run is 0 or 1. *)
Theorem exit_status_zero_or_one (abspath : path -> path)
    (relpath : path -> option path -> path) (path_parts : path -> list pstr)
    (args : Args) (w : world) (status : Z) :
  exit_status abspath relpath path_parts args w = Some status ->
  status = 0%Z \/ status = 1%Z.
Proof.
  unfold exit_status.
  pose proof (main_outcome abspath relpath path_parts args w) as [_ H]. cbv zeta in H.
  destruct (main abspath relpath path_parts args w).1 as [s|e].
  - intros [= <-]. rewrite H. destruct (_ =? 0)%Z; auto.
  - destruct e; intros [= <-]; auto.
Qed.

Lemma exit_status_zero_or_one_witness : 0%Z = 0%Z \/ 0%Z = 1%Z.
Proof.
  apply (exit_status_zero_or_one same_path same_relpath one_part run_args run_world).
  vm_compute. reflexivity.
Defined.

(** ** [all_files] *)

Lemma os_path_join_endswith (suffix a b : pstr) :
  endswith suffix b = true -> endswith suffix (os_path_join a b) = true.
Proof.
  intros H. unfold os_path_join. destruct (startswith [47] b); [done|].
  destruct (_ || _); [by apply endswith_app|].
  change (a ++ 47 :: b) with (a ++ [47] ++ b). rewrite app_assoc. by apply endswith_app.
Qed.

Lemma all_files_names_json (args : Args) (cycle_dir : pstr) (names : list pstr) :
  forall w, exists files w',
    all_files_names args cycle_dir names w = (Ret files, w')
    /\ Forall (fun f => endswith (py ".json") f = true) files /\ quiet w w'.
Proof.
  induction names as [|n names IH]; intros w.
  - exists [], w. split; [done|]. split; [constructor | apply quiet_refl].
  - cbn [all_files_names]. destruct (endswith (py ".json") n) eqn:E; cbn [negb].
    + destruct (IH w) as (files & w' & Hrun & Hf & Hq). rewrite bind_run, Hrun.
      eexists _, w'. split; [done|]. split; [|done].
      constructor; [|done]. by apply os_path_join_endswith.
    + rewrite bind_run, verbose_print_emit.
      destruct (IH (emit w (printed args (MsgIgnoringNonJson n) 1)))
        as (files & w' & Hrun & Hf & Hq).
      exists files, w'. split; [done|]. split; [done|].
      eapply quiet_trans; [|exact Hq]. repeat split. by eexists.
Qed.

Lemma all_files_cycles_json (args : Args) (cycle_dirs : list pstr) :
  forall w files w',
    all_files_cycles args cycle_dirs w = (Ret files, w') ->
    Forall (fun f => endswith (py ".json") f = true) files /\ quiet w w'.
Proof.
  induction cycle_dirs as [|c cycle_dirs IH]; intros w files w'.
  - intros [= <- <-]. split; [constructor | apply quiet_refl].
  - cbn [all_files_cycles]. rewrite bind_run. unfold os_listdir at 1.
    destruct (dirs w !! os_path_join PACK_DIR c) as [names|]; [|done].
    rewrite bind_run.
    destruct (all_files_names_json args c names w) as (here & w1 & -> & Hh & Hq1).
    rewrite bind_run.
    destruct (all_files_cycles args cycle_dirs w1) as [[more|e] w2] eqn:Hm; [|done].
    intros [= <- <-]. destruct (IH w1 more w2 Hm) as [Hmore Hq2].
    split; [by apply Forall_app | by eapply quiet_trans].
Qed.

(** Every path that [all_files] yields ends in [.json], the last six are
    the index files, and listing them changes nothing but standard
    output. *)
Theorem all_files_json (args : Args) (w w' : world) (files : list path) :
  all_files args w = (Ret files, w') ->
  Forall (fun f => endswith (py ".json") f = true) files
  /\ (exists packs,
        files = packs ++ [py "cycles.json"; py "encounters.json"; py "factions.json";
                          py "packs.json"; py "subtypes.json"; py "types.json"])
  /\ quiet w w'.
Proof.
  unfold all_files. rewrite bind_run. unfold os_listdir at 1.
  destruct (dirs w !! PACK_DIR) as [cycle_dirs|]; [|done].
  rewrite bind_run.
  destruct (all_files_cycles args cycle_dirs w) as [[packs|e] w1] eqn:Hp; [|done].
  intros [= <- <-]. destruct (all_files_cycles_json args cycle_dirs w packs w1 Hp) as [Hf Hq].
  split; [|split; [by exists packs | done]].
  apply Forall_app. split; [done|]. by repeat constructor.
Qed.

Lemma all_files_json_witness :
  Forall (fun f => endswith (py ".json") f = true)
    ([py "pack/core/core.json"]
     ++ [py "cycles.json"; py "encounters.json"; py "factions.json";
         py "packs.json"; py "subtypes.json"; py "types.json"])
  /\ (exists packs,
        [py "pack/core/core.json"]
        ++ [py "cycles.json"; py "encounters.json"; py "factions.json";
            py "packs.json"; py "subtypes.json"; py "types.json"]
        = packs ++ [py "cycles.json"; py "encounters.json"; py "factions.json";
                    py "packs.json"; py "subtypes.json"; py "types.json"])
  /\ quiet listing_world listing_world.
Proof.
  apply (all_files_json quiet_args listing_world listing_world).
  vm_compute. reflexivity.
Defined.

(** ** [load_packs] *)

(** The loop body of [load_packs] on one pack: when it returns, the pack
    has the two flags [player] and [encounter] as booleans, its cycle code
    is not [promotional] any more, and nothing else has changed. *)
Theorem load_pack_result (args : Args) (p p' : json) (w w' : world) :
  load_pack args p w = (Ret p', w') ->
  w' = w
  /\ (exists b, getitem p' (py "player") = Ret (JBool b))
  /\ (exists b, getitem p' (py "encounter") = Ret (JBool b))
  /\ getitem p' (py "cycle_code") <> Ret (JStr (py "promotional")).
Proof.
  unfold load_pack. destruct p as [| | | | |o]; try done.
  rewrite bind_run. unfold lift at 1. cbn [getitem].
  destruct (fget (py "cycle_code") o) as [cc|] eqn:Hcc; [|done]. cbv beta iota.
  set (o1 := if py_eq cc (JStr (py "promotional"))
             then setitem (JObj o) (py "cycle_code") (JStr (py "promo")) else JObj o).
  assert (exists o1', o1 = JObj o1'
                      /\ exists cc', fget (py "cycle_code") o1' = Some cc'
                                     /\ py_eq cc' (JStr (py "promotional")) = false)
    as (o1' & -> & cc' & Hcc' & Hne).
  { unfold o1. destruct (py_eq cc (JStr (py "promotional"))) eqn:E.
    - eexists. split; [reflexivity|]. exists (JStr (py "promo")).
      split; [apply fget_fset_eq | reflexivity].
    - exists o. split; [done|]. by exists cc. }
  rewrite bind_run. unfold lift at 1. cbn [getitem].
  destruct (fget (py "code") o1') as [code|]; [|done]. cbv beta iota.
  rewrite bind_run. unfold lift at 1. destruct (py_str code) as [code_text|]; [|done].
  cbv beta iota. rewrite bind_run. unfold lift at 1. cbn [getitem]. rewrite Hcc'.
  cbv beta iota. rewrite bind_run. unfold lift at 1.
  destruct (as_str cc') as [cycle_dir|]; [|done]. cbv beta iota.
  rewrite bind_run. unfold check_file_access at 1. cbv beta iota.
  rewrite bind_run. unfold check_file_access at 1. cbv beta iota.
  unfold ret. intros [= <- <-]. split; [done|]. cbn [setitem getitem].
  split; [|split].
  - eexists. rewrite fget_fset_ne by done. by rewrite fget_fset_eq.
  - eexists. by rewrite fget_fset_eq.
  - rewrite !fget_fset_ne by done. rewrite Hcc'. intros [= ->]. done.
Qed.

Lemma load_pack_result_witness :
  empty_world = empty_world
  /\ (exists b, getitem
        (JObj [(py "code", JStr (py "books")); (py "cycle_code", JStr (py "promo"));
               (py "player", JBool false); (py "encounter", JBool false)])
        (py "player") = Ret (JBool b))
  /\ (exists b, getitem
        (JObj [(py "code", JStr (py "books")); (py "cycle_code", JStr (py "promo"));
               (py "player", JBool false); (py "encounter", JBool false)])
        (py "encounter") = Ret (JBool b))
  /\ getitem
       (JObj [(py "code", JStr (py "books")); (py "cycle_code", JStr (py "promo"));
              (py "player", JBool false); (py "encounter", JBool false)])
       (py "cycle_code") <> Ret (JStr (py "promotional")).
Proof.
  apply (load_pack_result quiet_args promotional_pack).
  vm_compute. reflexivity.
Defined.

(** ** What a run leaves alone *)

Section Invariant.

Variable R : world -> world -> Prop.

Variable args : Args.

Hypothesis R_refl : forall w, R w w.

Hypothesis R_trans : forall w1 w2 w3, R w1 w2 -> R w2 w3 -> R w1 w3.

Hypothesis R_print : forall m lvl, preserves R (verbose_print args m lvl).

Hypothesis R_load : forall p, preserves R (load_json_file args p).

Lemma preserves_ret {A : Type} (a : A) : preserves R (ret a).
Proof. intros w. apply R_refl. Qed.

Lemma preserves_raise {A : Type} (e : exn) : preserves R (@raise A e).
Proof. intros w. apply R_refl. Qed.

Lemma preserves_lift {A : Type} (o : outcome A) : preserves R (lift o).
Proof. intros w. apply R_refl. Qed.

Lemma preserves_bind {A B : Type} (m : M A) (f : A -> M B) :
  preserves R m -> (forall a, preserves R (f a)) -> preserves R (bind m f).
Proof.
  intros Hm Hf w. unfold bind, M_bind. specialize (Hm w).
  destruct (m w) as [[a|e] w1]; cbn [snd] in *; [|done].
  eapply R_trans; [exact Hm | apply Hf].
Qed.

Lemma preserves_if {A : Type} (b : bool) (m1 m2 : M A) :
  preserves R m1 -> preserves R m2 -> preserves R (if b then m1 else m2).
Proof. by destruct b. Qed.

Lemma preserves_check_file_access (p : path) : preserves R (check_file_access p).
Proof. intros w. apply R_refl. Qed.

Lemma preserves_os_listdir (p : path) : preserves R (os_listdir p).
Proof. intros w. unfold os_listdir. destruct (dirs w !! p); apply R_refl. Qed.

Lemma preserves_get_counters : preserves R get_counters.
Proof. intros w. apply R_refl. Qed.

Create HintDb preserve.

#[local] Hint Resolve preserves_ret preserves_raise preserves_lift R_print R_load
  preserves_check_file_access preserves_os_listdir preserves_get_counters : preserve.

Ltac preserve :=
  repeat first
    [ progress auto with preserve
    | apply preserves_bind; [|intros ?]
    | apply preserves_if
    | match goal with
      | |- preserves _ (let '(_, _) := ?x in _) => destruct x
      | |- preserves _ (match ?x with _ => _ end) => destruct x
      end ].

Lemma preserves_check_duplicate_codes_loop (p : path) (cs : list json) :
  forall codes, preserves R (check_duplicate_codes_loop args p codes cs).
Proof. induction cs as [|c cs IH]; intros codes; simpl; preserve. Qed.

#[local] Hint Resolve preserves_check_duplicate_codes_loop : preserve.

Lemma preserves_load_translatable_loop (p : path) (warn : bool) (cs : list json) :
  forall d t fe, preserves R (load_translatable_loop args p warn d t fe cs).
Proof.
  induction cs as [|c cs IH]; intros d t fe; simpl; [preserve|].
  unfold get_translatable_strings. preserve.
Qed.

#[local] Hint Resolve preserves_load_translatable_loop : preserve.

Lemma preserves_load_translatable_dict (p : path) (warn : bool) :
  preserves R (load_translatable_dict args p warn).
Proof.
  unfold load_translatable_dict, translatable_dict_of_data, check_duplicate_codes.
  preserve.
Qed.

#[local] Hint Resolve preserves_load_translatable_dict : preserve.

Lemma preserves_compare_fields (ign : cdict) (code : json) (lf : fdict) (items : fdict) :
  forall u t, preserves R (compare_fields args ign code lf u t items).
Proof. induction items as [|[f v] items IH]; intros u t; simpl; preserve. Qed.

#[local] Hint Resolve preserves_compare_fields : preserve.

Lemma preserves_compare_codes (loc : i18nLocale) (ign : cdict) (items : cdict) :
  forall en t u, preserves R (compare_codes args loc ign en t u items).
Proof. induction items as [|[code lf] items IH]; intros en t u; simpl; preserve. Qed.

#[local] Hint Resolve preserves_compare_codes : preserve.

Lemma preserves_compare_translations (loc : i18nLocale) (p : path) :
  preserves R (compare_translations args loc p).
Proof.
  unfold compare_translations, load_mappings, compare_mappings, check_extra_i18n_codes.
  preserve.
Qed.

#[local] Hint Resolve preserves_compare_translations : preserve.

Lemma preserves_check_translations (loc : i18nLocale) (files : list path) :
  preserves R (check_translations args loc files).
Proof. induction files as [|f files IH]; simpl; [preserve|]. unfold print_short. preserve. Qed.

#[local] Hint Resolve preserves_check_translations : preserve.

Lemma preserves_check_locales (files : list path) (langs : list pstr) :
  preserves R (check_locales args files langs).
Proof. induction langs as [|l langs IH]; simpl; preserve. Qed.

#[local] Hint Resolve preserves_check_locales : preserve.

Lemma preserves_check_all_locales (it : M (list path)) :
  preserves R it -> preserves R (check_all_locales args it).
Proof. intros Hit. unfold check_all_locales, get_languages. preserve. Qed.

Lemma preserves_all_files_names (dir : pstr) (names : list pstr) :
  preserves R (all_files_names args dir names).
Proof. induction names as [|n names IH]; simpl; preserve. Qed.

#[local] Hint Resolve preserves_all_files_names : preserve.

Lemma preserves_all_files_cycles (cycle_dirs : list pstr) :
  preserves R (all_files_cycles args cycle_dirs).
Proof. induction cycle_dirs as [|c cycle_dirs IH]; simpl; preserve. Qed.

#[local] Hint Resolve preserves_all_files_cycles : preserve.

Lemma preserves_all_files : preserves R (all_files args).
Proof. unfold all_files. preserve. Qed.

Lemma preserves_load_packs_loop (ps : list json) : preserves R (load_packs_loop args ps).
Proof. induction ps as [|x ps IH]; simpl; [preserve|]. unfold load_pack. preserve. Qed.

#[local] Hint Resolve preserves_load_packs_loop : preserve.

Lemma preserves_load_cycles : preserves R (load_cycles args).
Proof. unfold load_cycles. preserve. Qed.

Lemma preserves_load_packs (cycles : json) : preserves R (load_packs args cycles).
Proof. unfold load_packs. preserve. Qed.

Variable abspath : path -> path.

Variable relpath : path -> option path -> path.

Variable path_parts : path -> list pstr.

Lemma preserves_check_file_list (files : list path) :
  preserves R (check_file_list abspath relpath path_parts args files).
Proof.
  induction files as [|f files IH]; simpl; [preserve|].
  apply preserves_bind; [|by intros ?].
  repeat apply preserves_if; [preserve.. |]. apply preserves_check_all_locales. preserve.
Qed.

Lemma preserves_main :
  preserves R reset_counters -> (forall m, preserves R (stdout_write m)) ->
  preserves R (main abspath relpath path_parts args).
Proof.
  intros Hreset Hwrite. unfold main.
  apply preserves_bind; [done | intros _].
  apply preserves_bind; [apply preserves_load_cycles | intros cycles].
  apply preserves_bind; [apply preserves_load_packs | intros packs].
  apply preserves_bind.
  - repeat apply preserves_if; [| |preserve].
    + apply preserves_check_all_locales, preserves_all_files.
    + apply preserves_bind; [preserve | intros _]. apply preserves_check_file_list.
  - intros _. apply preserves_bind; [preserve | intros [formatting validation]].
    apply preserves_bind; [apply Hwrite | intros _]. preserve.
Qed.

End Invariant.

Lemma read_only_refl (w : world) : read_only w w.
Proof. repeat split. exists []. by rewrite app_nil_r. Qed.

Lemma read_only_trans (w1 w2 w3 : world) : read_only w1 w2 -> read_only w2 w3 -> read_only w1 w3.
Proof.
  intros (A1 & B1 & o1 & E1) (A2 & B2 & o2 & E2).
  repeat split; try congruence. exists (o1 ++ o2). by rewrite E2, E1, app_assoc.
Qed.

Lemma read_only_print (args : Args) (m : msg) (lvl : Z) :
  preserves read_only (verbose_print args m lvl).
Proof. intros w. rewrite verbose_print_emit. repeat split. by eexists. Qed.

Lemma read_only_load (args : Args) (p : path) :
  fix_formatting args = false -> preserves read_only (load_json_file args p).
Proof.
  intros Hfix w. unfold load_json_file. rewrite Hfix.
  destruct (fs w !! p) as [f|]; [|apply read_only_refl].
  assert (forall A (e : exn) (m : msg),
            read_only w ((_ <- verbose_print args m 0; _ <- add_validation_errors 1;
                          (raise e : M A)) w).2) as Hbad.
  { intros A e m. unfold bind, M_bind. rewrite verbose_print_emit. repeat split. by eexists. }
  destruct (data f) as [|raw]; [apply Hbad|].
  destruct (json_loads raw) as [x|[]]; [|apply Hbad|apply read_only_refl..].
  destruct (occurs _ _).
  - unfold bind, M_bind. rewrite verbose_print_emit. repeat split. by eexists.
  - destruct (negb _); [|apply read_only_refl]. cbn. repeat split. exists [].
    by rewrite app_nil_r.
Qed.

(** Without [fix_formatting] a run writes no file: when [main] ends,
    normally or with an exception, the files and the directories are those
    it started with, and standard output has only been added to. *)
Theorem main_read_only (abspath : path -> path) (relpath : path -> option path -> path)
    (path_parts : path -> list pstr) (args : Args) (w : world) :
  fix_formatting args = false ->
  read_only w (main abspath relpath path_parts args w).2.
Proof.
  intros Hfix.
  apply (preserves_main read_only args read_only_refl read_only_trans
           (read_only_print args) (fun p => read_only_load args p Hfix)).
  - intros w0. repeat split. exists []. by rewrite app_nil_r.
  - intros m w0. repeat split. by eexists.
Qed.

Lemma main_read_only_witness :
  read_only run_world (main same_path same_relpath one_part run_args run_world).2.
Proof. apply main_read_only. reflexivity. Defined.

Lemma same_files_refl (w : world) : same_files w w.
Proof. done. Qed.

Lemma same_files_trans (w1 w2 w3 : world) :
  same_files w1 w2 -> same_files w2 w3 -> same_files w1 w3.
Proof. intros [A1 B1] [A2 B2]. split; congruence. Qed.

Lemma same_files_load (args : Args) (p : path) : preserves same_files (load_json_file args p).
Proof.
  intros w. unfold load_json_file.
  destruct (fs w !! p) as [f|] eqn:Hp; [|done].
  assert (forall A (e : exn) (m : msg),
            same_files w ((_ <- verbose_print args m 0; _ <- add_validation_errors 1;
                           (raise e : M A)) w).2) as Hbad.
  { intros A e m. unfold bind, M_bind. by rewrite verbose_print_emit. }
  destruct (data f) as [|raw]; [apply Hbad|].
  destruct (json_loads raw) as [x|[]]; [|apply Hbad|done..].
  destruct (occurs _ _).
  - unfold bind, M_bind. by rewrite verbose_print_emit.
  - destruct (negb _); [|done].
    assert (dom (<[p := File true (Text [])]> (fs w)) = dom (fs w)) as Hdom.
    { rewrite dom_insert_L. apply elem_of_dom_2 in Hp. set_solver. }
    unfold bind, M_bind, add_formatting_errors. cbn [snd fst].
    destruct (fix_formatting args && _); [|done].
    rewrite verbose_print_emit. cbn [snd fst].
    destruct (writable f).
    + unfold write_file at 1. cbv beta iota.
      destruct (has_surrogate _); unfold write_file, raise, ret, emit; cbn [snd fst fs dirs];
        (split; [|done]); rewrite ?dom_insert_L; apply elem_of_dom_2 in Hp; set_solver.
    + rewrite !verbose_print_emit. done.
Qed.

(** A run never creates or removes a file, with or without
    [fix_formatting]: the set of files is the same when [main] ends,
    normally or with an exception. *)
Theorem main_same_files (abspath : path -> path) (relpath : path -> option path -> path)
    (path_parts : path -> list pstr) (args : Args) (w : world) :
  dom (fs (main abspath relpath path_parts args w).2) = dom (fs w)
  /\ dirs (main abspath relpath path_parts args w).2 = dirs w.
Proof.
  apply (preserves_main same_files args same_files_refl same_files_trans).
  - intros m lvl w0. by rewrite verbose_print_emit.
  - apply same_files_load.
  - done.
  - done.
Qed.

Lemma counts_up_load (args : Args) (p : path) : preserves counts_up (load_json_file args p).
Proof.
  intros w. unfold load_json_file, counts_up.
  destruct (fs w !! p) as [f|]; [|cbn; lia].
  assert (forall A (e : exn) (m : msg),
            (validation_errors w
             <= validation_errors ((_ <- verbose_print args m 0; _ <- add_validation_errors 1;
                                    (raise e : M A)) w).2)%Z) as Hbad.
  { intros A e m. unfold bind, M_bind. rewrite verbose_print_emit. cbn. lia. }
  destruct (data f) as [|raw]; [apply Hbad|].
  destruct (json_loads raw) as [x|[]]; [|apply Hbad|cbn; lia..].
  destruct (occurs _ _).
  - unfold bind, M_bind. rewrite verbose_print_emit. cbn. lia.
  - destruct (negb _); [|cbn; lia].
    unfold bind, M_bind, add_formatting_errors. cbn [snd fst].
    destruct (fix_formatting args && _); [|cbn; lia].
    rewrite verbose_print_emit. cbn [snd fst].
    destruct (writable f).
    + unfold write_file at 1. cbv beta iota.
      destruct (has_surrogate _); unfold write_file, raise, ret, emit;
        cbn [snd fst validation_errors]; lia.
    + rewrite !verbose_print_emit. unfold ret, emit. cbn [snd fst validation_errors]. lia.
Qed.

(** Comparing a file never lowers the counter of validation errors,
    however the comparison ends. *)
Theorem compare_translations_counts_up (args : Args) (loc : i18nLocale) (p : path)
    (w : world) :
  (validation_errors w <= validation_errors (compare_translations args loc p w).2)%Z.
Proof.
  apply (preserves_compare_translations counts_up args).
  - intros w0. unfold counts_up. lia.
  - intros w1 w2 w3. unfold counts_up. lia.
  - intros m lvl w0. rewrite verbose_print_emit. unfold counts_up. cbn. lia.
  - apply counts_up_load.
Qed.

(** ** Localized records that the source does not have *)

Lemma cget_cpop_None (k c : json) (d : cdict) : cget k d = None -> cget k (cpop c d) = None.
Proof.
  unfold cget, cpop. induction d as [|[k0 v0] d IH]; [done|]. cbn [dict_get dict_pop].
  destruct (py_eq k0 k) eqn:E; [done|]. intros H.
  destruct (py_eq k0 c); [done|]. cbn [dict_get]. rewrite E. by apply IH.
Qed.

Lemma py_dict_filter (p : json * fdict -> bool) (d : cdict) : py_dict d -> py_dict (filter p d).
Proof.
  intros [Hh Hnd]. induction d as [|kv d IH]; [done|].
  apply Forall_cons in Hh as [H0 Hh]. cbn in Hnd. apply NoDup_cons in Hnd as [Hk Hnd].
  destruct (IH Hh Hnd) as [IH1 IH2]. rewrite filter_bool_cons. destruct (p kv); [|done].
  split; [by constructor|]. cbn. apply NoDup_cons. split; [|done].
  intros Hin. apply Hk. unfold keys_of in *. apply list_elem_of_fmap in Hin as (x & -> & Hx).
  apply list_elem_of_filter in Hx as [_ Hx]. apply list_elem_of_fmap. by exists x.
Qed.

Lemma unaddressed_filter (source items : cdict) :
  forall en : cdict,
    (forall kv, kv ∈ items -> cmem kv.1 source = false -> cget kv.1 en = None) ->
    unaddressed en (filter (fun kv => cmem kv.1 source) items) = unaddressed en items.
Proof.
  induction items as [|kv items IH]; intros en Hinv; [done|].
  rewrite filter_bool_cons. destruct (cmem kv.1 source) eqn:E.
  - change (unaddressed (cpop kv.1 en) (filter (fun kv => cmem kv.1 source) items)
            = unaddressed (cpop kv.1 en) items).
    apply IH. intros kv' Hin Hm. apply cget_cpop_None, Hinv; [by right | done].
  - change (unaddressed en (kv :: items)) with (unaddressed (cpop kv.1 en) items).
    rewrite (cpop_absent kv.1 en) by (apply Hinv; [left | done]).
    apply IH. intros kv' Hin Hm. apply Hinv; [by right | done].
Qed.

(** A localized record whose code the source does not have counts for
    nothing: the statistics are those of the comparison without such
    records (only the messages differ). *)
Theorem extra_codes_do_not_count (args : Args) (loc : i18nLocale) (p : path)
    (source : cdict) (total : nat) (localized ignore : cdict) (w : world) :
  field_mapping source -> py_dict localized ->
  exists stats w1 w2,
    compare_mappings args loc p source total localized ignore w = (Ret stats, w1)
    /\ compare_mappings args loc p source total
         (filter (fun kv => cmem kv.1 source) localized) ignore w = (Ret stats, w2).
Proof.
  intros Hsrc Hloc. pose proof (field_mapping_py_dict _ Hsrc) as Hpd.
  pose proof (field_mapping_nodup _ Hsrc) as Hnd.
  destruct (compare_mappings_run args loc p source total localized ignore w)
    as (w1 & Hrun1 & _); [done..|].
  destruct (compare_mappings_run args loc p source total
              (filter (fun kv => cmem kv.1 source) localized) ignore w)
    as (w2 & Hrun2 & _); [by apply py_dict_filter | done..|].
  eexists _, w1, w2. split; [exact Hrun1|]. rewrite Hrun2. do 2 f_equal.
  assert (sum_list_with (code_translated ignore source)
            (filter (fun kv => cmem kv.1 source) localized)
          = sum_list_with (code_translated ignore source) localized) as ->.
  { clear. induction localized as [|kv l IH]; [done|]. rewrite filter_bool_cons.
    destruct (cmem kv.1 source) eqn:E; cbn [sum_list_with]; rewrite IH; [done|].
    apply cmem_false in E. unfold code_translated. by rewrite E. }
  assert (omap (code_untranslated ignore source)
            (filter (fun kv => cmem kv.1 source) localized)
          = omap (code_untranslated ignore source) localized) as ->.
  { clear. induction localized as [|kv l IH]; [done|]. rewrite filter_bool_cons.
    destruct (cmem kv.1 source) eqn:E; rewrite !omap_cons', ?IH; [done|].
    apply cmem_false in E. unfold code_untranslated at 2. by rewrite E. }
  rewrite unaddressed_filter; [done|].
  intros kv _ Hm. by apply cmem_false.
Qed.

Lemma extra_codes_do_not_count_witness :
  exists stats w1 w2,
    compare_mappings quiet_args locale_fr source_path noise_source 3
      ((JStr (py "ZZ"), [(py "name", JStr (py "Bruit"))]) :: noise_localized) []
      empty_world = (Ret stats, w1)
    /\ compare_mappings quiet_args locale_fr source_path noise_source 3
         (filter (fun kv => cmem kv.1 noise_source)
                 ((JStr (py "ZZ"), [(py "name", JStr (py "Bruit"))]) :: noise_localized))
         [] empty_world = (Ret stats, w2).
Proof.
  apply (extra_codes_do_not_count quiet_args locale_fr source_path noise_source 3
           ((JStr (py "ZZ"), [(py "name", JStr (py "Bruit"))]) :: noise_localized) []
           empty_world); by_decision.
Defined.

(** ** [json.dumps] and [json.loads] *)

(** Before the punctuation rules and the tabs, the rendering of a value
    decodes to that value with every dictionary in key order: what keeps
    the formatter's text from decoding to the value it was given is only
    the rewriting of characters inside strings. *)
Theorem json_loads_json_dumps (x : json) :
  wf_json x = true -> json_loads (json_dumps x) = Ok (sort_keys x).
Proof.
  intros Hwf. unfold json_loads, json_dumps.
  assert (forall level, Forall (fun c => is_ws c = true) (indent4 level)) as Hws.
  { intros level. unfold indent4. induction (4 * level)%nat; by constructor. }
  pose proof (sort_keys_wf x Hwf) as Hwf'.
  pose proof (weight_le_length indent4 (sort_keys x) 0) as Hw.
  pose proof (scan_once_iterencode indent4 (sort_keys x) Hws Hwf'
                (S (length (iterencode indent4 (sort_keys x) 0))) 0 []) as Hs.
  rewrite app_nil_r in Hs.
  destruct (iterencode_head indent4 (sort_keys x) 0) as (c & t & Ec & Hc).
  rewrite Ec in *. pose proof (value_start_cases c Hc) as Hc'.
  cbn [startswith]. replace (65279 =? c) with false by (symmetry; apply N.eqb_neq; lia).
  cbn [andb]. rewrite (skip_ws_start c) by (by apply value_start_not_ws).
  rewrite Hs; [reflexivity | lia | reflexivity].
Qed.

Lemma json_loads_json_dumps_witness :
  json_loads (json_dumps curly_quote) = Ok (sort_keys curly_quote).
Proof. apply json_loads_json_dumps. reflexivity. Defined.
